(** * goiardi cookbooks: versions, constraints and dependency resolution

    A shallow embedding of [cookbook/cookbook.go]: the version order
    ([versionLess]), the constraint check ([verConstraintCheck]), the
    per-cookbook selectors ([sortedVersions], [LatestVersion],
    [LatestConstrained]), the version life cycle ([NewVersion],
    [DeleteVersion], [UpdateVersion]) and the resolver
    ([DependsCookbooks], [resolveDependencies]).

    Conventions.
    - Go [string] is [string]; Go [int] is a 64-bit two's complement
      integer, carried as a [Z] with the wrap-around written out.
    - Go maps are [gmap]s.  The order in which [range] visits a map is not
      fixed by the language, so every function that ranges over a map takes
      the visiting order as a parameter [order].
    - [interface{}] values are the tagged union [value].
    - The in-memory data store is a [gmap] from cookbook name to cookbook;
      a [*Cookbook] is the name it is stored under.  The code paths taken
      when [config.Config.UseMySQL] is set are not part of this model. *)

From Stdlib Require Import ZArith Ascii String DecimalString DecimalZ DecimalPos DecimalFacts.
From stdpp Require Import gmap strings list fin_maps relations sorting.

#[local] Set Warnings "-register-all".
#[local] Open Scope string_scope.
#[local] Open Scope Z_scope.

(** ** Go library functions used by the package *)

Module GoLib.

(** [strings.HasPrefix]. *)
Fixpoint HasPrefix (s prefix : string) : bool :=
  match prefix, s with
  | EmptyString, _ => true
  | String _ _, EmptyString => false
  | String p prefix', String c s' => Ascii.eqb c p && HasPrefix s' prefix'
  end.

(** The scan of [strings.Split s sep] for a non-empty [sep]: [skip] counts
    the bytes of a separator still to be stepped over, [cur] holds the
    bytes of the current piece, last byte first. *)
Fixpoint Split_scan (sep : string) (skip : nat) (cur : string) (s : string)
  : list string :=
  match s with
  | EmptyString => [String.rev cur]
  | String c s' =>
      match skip with
      | S k => Split_scan sep k cur s'
      | O =>
          if HasPrefix s sep
          then String.rev cur :: Split_scan sep (String.length sep - 1) EmptyString s'
          else Split_scan sep O (String c cur) s'
      end
  end.

(** [strings.Split] (called here only with the separators ".", " ", "@"
    and "::"). *)
Definition Split (s sep : string) : list string :=
  Split_scan sep O EmptyString s.

(** Value of a decimal digit byte, if it is one. *)
Definition digit_of (c : ascii) : option Z :=
  let n := Z.of_N (Ascii.N_of_ascii c) in
  if (48 <=? n) && (n <=? 57) then Some (n - 48) else None.

Inductive scan_result := Syntax | Range | Val (n : Z).

Definition maxUint64 : Z := 2 ^ 64 - 1.
Definition cutoff64 : Z := maxUint64 / 10 + 1.

(** The digit loop of [strconv.ParseUint s 10 64]: the first bad byte
    stops with a syntax error, the first overflow with a range error. *)
Fixpoint ParseUint_loop (s : string) (n : Z) : scan_result :=
  match s with
  | EmptyString => Val n
  | String c s' =>
      match digit_of c with
      | None => Syntax
      | Some d =>
          if cutoff64 <=? n then Range
          else
            let n10 := n * 10 in
            let n1 := (n10 + d) mod 2 ^ 64 in
            if (n1 <? n10) || (maxUint64 <? n1) then Range
            else ParseUint_loop s' n1
      end
  end.

(** [strconv.ParseInt s 10 0] on a 64-bit platform, with the error
    reduced to a flag. *)
Definition ParseInt (s : string) : Z * bool :=
  match s with
  | EmptyString => (0, false)
  | String c0 rest =>
      let neg := Ascii.eqb c0 "-"%char in
      let digits := if Ascii.eqb c0 "+"%char || neg then rest else s in
      match digits with
      | EmptyString => (0, false)
      | _ =>
          match ParseUint_loop digits 0 with
          | Syntax => (0, false)
          | Range =>
              if neg then (- 2 ^ 63, false) else (2 ^ 63 - 1, false)
          | Val un =>
              if negb neg && (2 ^ 63 <=? un) then (2 ^ 63 - 1, false)
              else if neg && (2 ^ 63 <? un) then (- 2 ^ 63, false)
              else (if neg then - un else un, true)
          end
      end
  end.

(** [strconv.Atoi]; every caller in the package drops the error. *)
Definition Atoi (s : string) : Z := fst (ParseInt s).

(** [uver++] on a Go [int]. *)
Definition incr_int (n : Z) : Z :=
  let m := n + 1 in if 2 ^ 63 <=? m then m - 2 ^ 64 else m.

(** The verb [%d] of [fmt.Sprintf]. *)
Definition format_d (n : Z) : string := NilZero.string_of_int (Z.to_int n).

End GoLib.

Import GoLib.

(** ** Version strings *)

(** The loop [for q := 0; q < 3; q++] of [versionLess]; [n] is the number
    of rounds left. *)
Fixpoint versionLess_loop (n : nat) (q : nat) (i_ver j_ver : list string) : bool :=
  match n with
  | O => false
  | S n' =>
      match i_ver !! q with
      | None => true
      | Some ic =>
          match j_ver !! q with
          | None => false
          | Some jc =>
              let ici := Atoi ic in
              let jci := Atoi jc in
              if negb (ici =? jci) then ici <? jci
              else versionLess_loop n' (S q) i_ver j_ver
          end
      end
  end.

Definition versionLess (ver_a ver_b : string) : bool :=
  if String.eqb ver_a ver_b then false
  else versionLess_loop 3 0 (Split ver_a ".") (Split ver_b ".").

(** [verConstraintCheck] returns one of the strings "ok", "skip", "break"
    and "invalid". *)
Definition verConstraintCheck (ver_a ver_b op : string) : string :=
  if String.eqb op "=" then
    if String.eqb ver_a ver_b then "ok"
    else if versionLess ver_a ver_b then "break"
    else "skip"
  else if String.eqb op ">" then
    if String.eqb ver_a ver_b || versionLess ver_a ver_b then "break" else "ok"
  else if String.eqb op "<" then
    if String.eqb ver_a ver_b || negb (versionLess ver_a ver_b) then "skip" else "ok"
  else if String.eqb op ">=" then
    if negb (versionLess ver_a ver_b) then "ok" else "break"
  else if String.eqb op "<=" then
    if String.eqb ver_a ver_b || versionLess ver_a ver_b then "ok" else "skip"
  else if String.eqb op "~>" then
    if versionLess ver_a ver_b then "break"
    else
      let pv := Split ver_b "." in
      let upper_bound :=
        if (length pv =? 3)%nat then
          let uver := incr_int (Atoi (pv !!! 1%nat)) in
          pv !!! 0%nat ++ "." ++ format_d uver
        else
          let uver := incr_int (Atoi (pv !!! 0%nat)) in
          format_d uver ++ ".0" in
      if negb (versionLess ver_a ver_b) && versionLess ver_a upper_bound
      then "ok" else "skip"
  else "invalid".

(** [splitConstraint]: the operator and the version of a constraint, or
    the malformed constraint. *)
Definition splitConstraint (constraint : string) : string * string + string :=
  match Split constraint " " with
  | [op; ver] => inl (op, ver)
  | _ => inr constraint
  end.

(** ** Data model *)

(** A Go [interface{}] holding decoded JSON or a typed cookbook division. *)
Inductive value :=
  | VNil
  | VBool (b : bool)
  | VString (s : string)
  | VNum (n : Z)
  | VSlice (l : list value)
  | VMap (m : gmap string value)
  | VDivs (l : list (gmap string value)).

#[export] Instance value_inhabited : Inhabited value := populate VNil.

(** [CookbookVersion]; the database ids are left out. *)
Record CookbookVersion := {
  CookbookName : string;
  Name : string;
  Version : string;
  ChefType : string;
  JsonClass : string;
  Definitions : list (gmap string value);
  Libraries : list (gmap string value);
  Attributes : list (gmap string value);
  Recipes : list (gmap string value);
  Providers : list (gmap string value);
  Resources : list (gmap string value);
  Templates : list (gmap string value);
  RootFiles : list (gmap string value);
  Files : list (gmap string value);
  IsFrozen : bool;
  Metadata : gmap string value
}.

(** [Cookbook]; [latest] is the cached pointer to the latest version and
    [numVersions] the cached count. *)
Record Cookbook := {
  cb_Name : string;
  Versions : gmap string CookbookVersion;
  latest : option CookbookVersion;
  numVersions : option Z
}.

Definition set_latest (c : Cookbook) (l : option CookbookVersion) : Cookbook :=
  {| cb_Name := cb_Name c; Versions := Versions c; latest := l;
     numVersions := numVersions c |}.

(** Errors returned by the package: the [util.Errorf] errors of the
    version life cycle carry their message, the errors of the resolver are
    told apart by the place that raises them and carry the values their
    message is built from. *)
Inductive error :=
  | Gerror (msg : string)
  | ErrNotFound (name : string)
  | ErrMalformed (constraint : string)
  | ErrEnvConflict (requested k ec : string)
  | ErrEnvImpossible (ec k : string)
  | ErrNoCookbook (name constraint : string)
  | ErrNoDepVersion (r c : string)
  | ErrDepConflict (cookbook version dep c dcon : string)
  | ErrUnsatisfied (cname : string) (traints : list string).

(** Results of the fallible operations: a value, an error returned to the
    caller, a run-time panic, or recursion fuel used up. *)
Inductive res (A : Type) :=
  | Ok (a : A)
  | Err (e : error)
  | Panic
  | OutOfFuel.
Arguments Ok {A} a.
Arguments Err {A} e.
Arguments Panic {A}.
Arguments OutOfFuel {A}.

Definition res_map {A B} (f : A -> B) (r : res A) : res B :=
  match r with
  | Ok a => Ok (f a)
  | Err e => Err e
  | Panic => Panic
  | OutOfFuel => OutOfFuel
  end.

(** ** Stateful, fallible computations *)

(** A computation over a state [S] that ends in a [res]: the state is the
    object a method call works on (a cookbook version, a cookbook) or the
    data store. *)
Definition ST (S A : Type) : Type := S -> res A * S.

Definition ret {S A} (a : A) : ST S A := fun st => (Ok a, st).
Definition fail {S A} (e : error) : ST S A := fun st => (Err e, st).
Definition panic {S A} : ST S A := fun st => (Panic, st).
Definition of_res {S A} (r : res A) : ST S A := fun st => (r, st).
Definition bind {S A B} (m : ST S A) (k : A -> ST S B) : ST S B :=
  fun st =>
    match m st with
    | (Ok a, st') => k a st'
    | (Err e, st') => (Err e, st')
    | (Panic, st') => (Panic, st')
    | (OutOfFuel, st') => (OutOfFuel, st')
    end.

Notation "x <- m ;; k" := (bind m (fun x => k))
  (at level 100, m at next level, right associativity).

(** ** Sorting version strings *)

(** One pass of the inner loop of the insertion sort behind
    [sort.Sort (sort.Reverse keys)]: [x] moves towards the front while the
    element before it is [versionLess] than [x].  [before] is the sorted
    part, nearest element first. *)
Fixpoint insert_rev (x : string) (before : list string) : list string :=
  match before with
  | [] => [x]
  | y :: before' =>
      if versionLess y x then y :: insert_rev x before' else x :: before
  end.

(** [sort.Sort (sort.Reverse keys)], as the insertion sort the library runs
    on short slices. *)
Definition sortReverse (keys : list string) : list string :=
  rev (fold_left (fun before x => insert_rev x before) keys []).

Section Cookbooks.

(** The order in which a [range] statement visits a map is not fixed by
    the language: [order] rearranges the keys of the map, and [range]
    visits the entries of the map in that order. *)
Variable order : list string -> list string.

Definition range {A} (m : gmap string A) : list (string * A) :=
  omap (fun k => pair k <$> m !! k) (order (map_to_list m).*1).

(** [sortedVersions], in-memory branch. *)
Definition sortedVersions (c : Cookbook) : list CookbookVersion :=
  let keys := (range (Versions c)).*1 in
  omap (fun s => Versions c !! s) (sortReverse keys).

(** [LatestVersion] fills the cache when it is empty; taking [sorted[0]]
    of an empty slice panics. *)
Definition LatestVersion (c : Cookbook) : res CookbookVersion * Cookbook :=
  match latest c with
  | None =>
      match sortedVersions c with
      | [] => (Panic, c)
      | v :: _ => (Ok v, set_latest c (Some v))
      end
  | Some v => (Ok v, c)
  end.

(** [UpdateLatestVersion]. *)
Definition UpdateLatestVersion (c : Cookbook) : res unit * Cookbook :=
  let c := set_latest c None in
  let '(r, c') := LatestVersion c in (res_map (fun _ => tt) r, c').

(** The scan of [LatestConstrained] over the sorted versions. *)
Fixpoint LatestConstrained_scan (vs : list CookbookVersion)
    (constraint_version constraint_op : string) : option CookbookVersion :=
  match vs with
  | [] => None
  | cv :: rest =>
      let action := verConstraintCheck (Version cv) constraint_version constraint_op in
      if String.eqb action "ok" then Some cv
      else LatestConstrained_scan rest constraint_version constraint_op
  end.

(** [LatestConstrained]; [None] is the nil pointer. *)
Definition LatestConstrained (c : Cookbook) (constraint : string)
  : res (option CookbookVersion) * Cookbook :=
  if String.eqb constraint "" then
    let '(r, c') := LatestVersion c in (res_map Some r, c')
  else
    match Split constraint " " with
    | [constraint_op; constraint_version] =>
        (Ok (LatestConstrained_scan (sortedVersions c) constraint_version constraint_op), c)
    | _ => (Ok None, c)
    end.

(** ** The life cycle of versions *)

(** [New], on its successful path: a cookbook without versions. *)
Definition New (name : string) : Cookbook :=
  {| cb_Name := name; Versions := ∅; latest := None; numVersions := None |}.

(** [GetVersion], in-memory branch. *)
Definition GetVersion (cbVersion : string) : ST Cookbook CookbookVersion :=
  fun c =>
    if String.eqb cbVersion "_latest" then LatestVersion c
    else
      match Versions c !! cbVersion with
      | Some cbv => (Ok cbv, c)
      | None =>
          (Err (Gerror ("Cannot find a cookbook named " +:+ cb_Name c
                        +:+ " with version " +:+ cbVersion)), c)
      end.

(** [DeleteVersion], in-memory branch.  It clears [numVersions] and removes
    the version from [Versions]; the clean-up of file hashes works on the
    file store only and is left out, and [Save] keeps the cookbook under
    its name in the data store. *)
Definition DeleteVersion (cb_version : string) : ST Cookbook unit :=
  fun c =>
    let '(r, c) := GetVersion cb_version c in
    match r with
    | Panic => (Panic, c)
    | OutOfFuel => (OutOfFuel, c)
    | Err _ =>
        (Err (Gerror ("Version " +:+ cb_version +:+ " of cookbook " +:+ cb_Name c
                      +:+ " does not exist to be deleted.")), c)
    | Ok cbv =>
        (Ok tt,
         {| cb_Name := cb_Name c; Versions := delete cb_version (Versions c);
            latest := latest c; numVersions := None |})
    end.

Section Lifecycle.

(** The validators of package [util]; each returns the validated value
    and the message of its error, if any. *)
Variable ValidateAsString : value -> value * option string.
Variable ValidateAsFieldString : value -> value * option string.
Variable ValidateAsVersion : value -> value * option string.
Variable ValidateCookbookDivision : string -> value -> value * option string.
Variable ValidateCookbookMetadata : value -> value * option string.
Variable ValidateAsBool : value -> value * option string.

(** Indexing a [map[string]interface{}]: a missing key reads as nil. *)
Definition index (m : gmap string value) (k : string) : value :=
  default VNil (m !! k).

(** The type assertions [.(string)], [.(bool)],
    [.([]map[string]interface{})] and [.(map[string]interface{})]. *)
Definition assert_string {S} (v : value) : ST S string :=
  match v with VString s => ret s | _ => panic end.
Definition assert_bool {S} (v : value) : ST S bool :=
  match v with VBool b => ret b | _ => panic end.
Definition assert_divs {S} (v : value) : ST S (list (gmap string value)) :=
  match v with VDivs l => ret l | _ => panic end.
Definition assert_map {S} (v : value) : ST S (gmap string value) :=
  match v with VMap m => ret m | _ => panic end.

(** [convertToCookbookDiv]. *)
Definition convertToCookbookDiv (div : value) : list (gmap string value) :=
  match div with VDivs l => l | _ => [] end.

Definition valid_elements : list string :=
  ["cookbook_name"; "name"; "version"; "json_class"; "chef_type"; "definitions";
   "libraries"; "attributes"; "recipes"; "providers"; "resources"; "templates";
   "root_files"; "files"; "frozen?"; "metadata"; "force"].

(** The loop labelled [ValidElem]: the first key that is not a valid
    element. *)
Fixpoint ValidElem (keys : list string) : option string :=
  match keys with
  | [] => None
  | k :: rest =>
      if existsb (String.eqb k) valid_elements then ValidElem rest else Some k
  end.

Definition divs : list string :=
  ["definitions"; "libraries"; "attributes"; "recipes"; "providers"; "resources";
   "templates"; "root_files"; "files"].

(** The loop over [divs]: every division of [cbv_data] is replaced by its
    validated form. *)
Fixpoint validate_divs (ds : list string) (cbv_data : gmap string value)
  : gmap string value + string :=
  match ds with
  | [] => inl cbv_data
  | d :: rest =>
      let '(v, verr) := ValidateCookbookDivision d (index cbv_data d) in
      let cbv_data := <[d := v]> cbv_data in
      match verr with
      | Some msg => inr msg
      | None => validate_divs rest cbv_data
      end
  end.

(** A field string of [cbv_data] that must be [expected] when present and
    falls back to the current value when nil ([chef_type], [json_class]). *)
Definition validate_field {S} (key expected current : string)
    (cbv_data : gmap string value) : ST S (gmap string value) :=
  let '(v, verr) := ValidateAsFieldString (index cbv_data key) in
  let cbv_data := <[key := v]> cbv_data in
  match verr with
  | Some msg =>
      if String.eqb msg "Field 'name' nil"
      then ret (<[key := VString current]> cbv_data)
      else fail (Gerror ("Field '" +:+ key +:+ "' invalid"))
  | None =>
      s <- assert_string (index cbv_data key) ;;
      if negb (String.eqb s expected)
      then fail (Gerror ("Field '" +:+ key +:+ "' invalid"))
      else ret cbv_data
  end.

(** Assignments to the fields of the version the method works on. *)
Definition modify {S} (f : S -> S) : ST S unit := fun st => (Ok tt, f st).
Definition get {S} : ST S S := fun st => (Ok st, st).

Definition set_ChefType (x : string) (v : CookbookVersion) : CookbookVersion :=
  {| CookbookName := CookbookName v; Name := Name v; Version := Version v;
     ChefType := x; JsonClass := JsonClass v; Definitions := Definitions v;
     Libraries := Libraries v; Attributes := Attributes v; Recipes := Recipes v;
     Providers := Providers v; Resources := Resources v; Templates := Templates v;
     RootFiles := RootFiles v; Files := Files v; IsFrozen := IsFrozen v;
     Metadata := Metadata v |}.
Definition set_JsonClass (x : string) (v : CookbookVersion) : CookbookVersion :=
  {| CookbookName := CookbookName v; Name := Name v; Version := Version v;
     ChefType := ChefType v; JsonClass := x; Definitions := Definitions v;
     Libraries := Libraries v; Attributes := Attributes v; Recipes := Recipes v;
     Providers := Providers v; Resources := Resources v; Templates := Templates v;
     RootFiles := RootFiles v; Files := Files v; IsFrozen := IsFrozen v;
     Metadata := Metadata v |}.
Definition set_Definitions (x : list (gmap string value)) (v : CookbookVersion) :=
  {| CookbookName := CookbookName v; Name := Name v; Version := Version v;
     ChefType := ChefType v; JsonClass := JsonClass v; Definitions := x;
     Libraries := Libraries v; Attributes := Attributes v; Recipes := Recipes v;
     Providers := Providers v; Resources := Resources v; Templates := Templates v;
     RootFiles := RootFiles v; Files := Files v; IsFrozen := IsFrozen v;
     Metadata := Metadata v |}.
Definition set_Libraries (x : list (gmap string value)) (v : CookbookVersion) :=
  {| CookbookName := CookbookName v; Name := Name v; Version := Version v;
     ChefType := ChefType v; JsonClass := JsonClass v; Definitions := Definitions v;
     Libraries := x; Attributes := Attributes v; Recipes := Recipes v;
     Providers := Providers v; Resources := Resources v; Templates := Templates v;
     RootFiles := RootFiles v; Files := Files v; IsFrozen := IsFrozen v;
     Metadata := Metadata v |}.
Definition set_Attributes (x : list (gmap string value)) (v : CookbookVersion) :=
  {| CookbookName := CookbookName v; Name := Name v; Version := Version v;
     ChefType := ChefType v; JsonClass := JsonClass v; Definitions := Definitions v;
     Libraries := Libraries v; Attributes := x; Recipes := Recipes v;
     Providers := Providers v; Resources := Resources v; Templates := Templates v;
     RootFiles := RootFiles v; Files := Files v; IsFrozen := IsFrozen v;
     Metadata := Metadata v |}.
Definition set_Recipes (x : list (gmap string value)) (v : CookbookVersion) :=
  {| CookbookName := CookbookName v; Name := Name v; Version := Version v;
     ChefType := ChefType v; JsonClass := JsonClass v; Definitions := Definitions v;
     Libraries := Libraries v; Attributes := Attributes v; Recipes := x;
     Providers := Providers v; Resources := Resources v; Templates := Templates v;
     RootFiles := RootFiles v; Files := Files v; IsFrozen := IsFrozen v;
     Metadata := Metadata v |}.
Definition set_Providers (x : list (gmap string value)) (v : CookbookVersion) :=
  {| CookbookName := CookbookName v; Name := Name v; Version := Version v;
     ChefType := ChefType v; JsonClass := JsonClass v; Definitions := Definitions v;
     Libraries := Libraries v; Attributes := Attributes v; Recipes := Recipes v;
     Providers := x; Resources := Resources v; Templates := Templates v;
     RootFiles := RootFiles v; Files := Files v; IsFrozen := IsFrozen v;
     Metadata := Metadata v |}.
Definition set_Resources (x : list (gmap string value)) (v : CookbookVersion) :=
  {| CookbookName := CookbookName v; Name := Name v; Version := Version v;
     ChefType := ChefType v; JsonClass := JsonClass v; Definitions := Definitions v;
     Libraries := Libraries v; Attributes := Attributes v; Recipes := Recipes v;
     Providers := Providers v; Resources := x; Templates := Templates v;
     RootFiles := RootFiles v; Files := Files v; IsFrozen := IsFrozen v;
     Metadata := Metadata v |}.
Definition set_Templates (x : list (gmap string value)) (v : CookbookVersion) :=
  {| CookbookName := CookbookName v; Name := Name v; Version := Version v;
     ChefType := ChefType v; JsonClass := JsonClass v; Definitions := Definitions v;
     Libraries := Libraries v; Attributes := Attributes v; Recipes := Recipes v;
     Providers := Providers v; Resources := Resources v; Templates := x;
     RootFiles := RootFiles v; Files := Files v; IsFrozen := IsFrozen v;
     Metadata := Metadata v |}.
Definition set_RootFiles (x : list (gmap string value)) (v : CookbookVersion) :=
  {| CookbookName := CookbookName v; Name := Name v; Version := Version v;
     ChefType := ChefType v; JsonClass := JsonClass v; Definitions := Definitions v;
     Libraries := Libraries v; Attributes := Attributes v; Recipes := Recipes v;
     Providers := Providers v; Resources := Resources v; Templates := Templates v;
     RootFiles := x; Files := Files v; IsFrozen := IsFrozen v;
     Metadata := Metadata v |}.
Definition set_Files (x : list (gmap string value)) (v : CookbookVersion) :=
  {| CookbookName := CookbookName v; Name := Name v; Version := Version v;
     ChefType := ChefType v; JsonClass := JsonClass v; Definitions := Definitions v;
     Libraries := Libraries v; Attributes := Attributes v; Recipes := Recipes v;
     Providers := Providers v; Resources := Resources v; Templates := Templates v;
     RootFiles := RootFiles v; Files := x; IsFrozen := IsFrozen v;
     Metadata := Metadata v |}.
Definition set_IsFrozen (x : bool) (v : CookbookVersion) : CookbookVersion :=
  {| CookbookName := CookbookName v; Name := Name v; Version := Version v;
     ChefType := ChefType v; JsonClass := JsonClass v; Definitions := Definitions v;
     Libraries := Libraries v; Attributes := Attributes v; Recipes := Recipes v;
     Providers := Providers v; Resources := Resources v; Templates := Templates v;
     RootFiles := RootFiles v; Files := Files v; IsFrozen := x;
     Metadata := Metadata v |}.
Definition set_Metadata (x : gmap string value) (v : CookbookVersion) : CookbookVersion :=
  {| CookbookName := CookbookName v; Name := Name v; Version := Version v;
     ChefType := ChefType v; JsonClass := JsonClass v; Definitions := Definitions v;
     Libraries := Libraries v; Attributes := Attributes v; Recipes := Recipes v;
     Providers := Providers v; Resources := Resources v; Templates := Templates v;
     RootFiles := RootFiles v; Files := Files v; IsFrozen := IsFrozen v;
     Metadata := x |}.

(** [UpdateVersion], in-memory branch, as a computation on the version it
    is called on.  [cbv_data] is the caller's map, which the validation
    rewrites as it goes.  The clean-up of file hashes at the end works on
    the file store only and is left out. *)
Definition UpdateVersion (cbv_data : gmap string value) (force : string)
  : ST CookbookVersion unit :=
  cbv <- get ;;
  if IsFrozen cbv && negb (String.eqb force "true") then
    fail (Gerror ("The cookbook " +:+ CookbookName cbv +:+ " at version "
                  +:+ Version cbv
                  +:+ " is frozen. Use the 'force' option to override."))
  else
  match (ValidateAsString (index cbv_data "cookbook_name")).2 with
  | Some msg =>
      if String.eqb msg "Field 'name' missing"
      then fail (Gerror "Field 'cookbook_name' missing")
      else fail (Gerror "Field 'cookbook_name' invalid")
  | None =>
  match ValidElem (range cbv_data).*1 with
  | Some k => fail (Gerror ("Invalid key " +:+ k +:+ " in request body"))
  | None =>
  cbv_data <- validate_field "chef_type" "cookbook_version" (ChefType cbv) cbv_data ;;
  cbv_data <- validate_field "json_class" "Chef::CookbookVersion" (JsonClass cbv) cbv_data ;;
  let '(v, verr) := ValidateAsVersion (index cbv_data "version") in
  let cbv_data := <["version" := v]> cbv_data in
  match verr with
  | Some _ => fail (Gerror "Field 'version' invalid")
  | None =>
  ver <- assert_string (index cbv_data "version") ;;
  let cbv_data :=
    if String.eqb ver "0.0.0" && negb (String.eqb (Version cbv) "")
    then <["version" := VString (Version cbv)]> cbv_data else cbv_data in
  match validate_divs divs cbv_data with
  | inr msg => fail (Gerror msg)
  | inl cbv_data =>
  let '(v, verr) := ValidateCookbookMetadata (index cbv_data "metadata") in
  let cbv_data := <["metadata" := v]> cbv_data in
  match verr with
  | Some msg => fail (Gerror msg)
  | None =>
  let '(v, verr) := ValidateAsBool (index cbv_data "frozen?") in
  let cbv_data := <["frozen?" := v]> cbv_data in
  match verr with
  | Some msg => fail (Gerror msg)
  | None =>
  cookbook_name <- assert_string (index cbv_data "cookbook_name") ;;
  if negb (String.eqb cookbook_name (CookbookName cbv))
  then fail (Gerror "Field 'cookbook_name' invalid") else
  name <- assert_string (index cbv_data "name") ;;
  if negb (String.eqb name (Name cbv))
  then fail (Gerror "Field 'name' invalid") else
  ver <- assert_string (index cbv_data "version") ;;
  if negb (String.eqb ver (Version cbv)) && negb (String.eqb ver "0.0.0")
  then fail (Gerror "Field 'version' invalid") else
  chef_type <- assert_string (index cbv_data "chef_type") ;;
  _ <- modify (set_ChefType chef_type) ;;
  json_class <- assert_string (index cbv_data "json_class") ;;
  _ <- modify (set_JsonClass json_class) ;;
  _ <- modify (set_Definitions (convertToCookbookDiv (index cbv_data "definitions"))) ;;
  _ <- modify (set_Libraries (convertToCookbookDiv (index cbv_data "libraries"))) ;;
  _ <- modify (set_Attributes (convertToCookbookDiv (index cbv_data "attributes"))) ;;
  recipes <- assert_divs (index cbv_data "recipes") ;;
  _ <- modify (set_Recipes recipes) ;;
  _ <- modify (set_Providers (convertToCookbookDiv (index cbv_data "providers"))) ;;
  _ <- modify (set_Resources (convertToCookbookDiv (index cbv_data "resources"))) ;;
  _ <- modify (set_Templates (convertToCookbookDiv (index cbv_data "templates"))) ;;
  _ <- modify (set_RootFiles (convertToCookbookDiv (index cbv_data "root_files"))) ;;
  _ <- modify (set_Files (convertToCookbookDiv (index cbv_data "files"))) ;;
  cbv <- get ;;
  _ <- (if negb (IsFrozen cbv) then
          frozen <- assert_bool (index cbv_data "frozen?") ;;
          modify (set_IsFrozen frozen)
        else ret tt) ;;
  metadata <- assert_map (index cbv_data "metadata") ;;
  modify (set_Metadata metadata)
  end end end end end end.

(** [NewVersion], in-memory branch.  [Save] keeps the cookbook under its
    name in the data store. *)
Definition NewVersion (cb_version : string) (cbv_data : gmap string value)
  : ST Cookbook CookbookVersion :=
  fun c =>
    let '(r, c) := GetVersion cb_version c in
    match r with
    | Panic => (Panic, c)
    | OutOfFuel => (OutOfFuel, c)
    | Ok _ =>
        (Err (Gerror ("Version " +:+ cb_version +:+ " of cookbook " +:+ cb_Name c
                      +:+ " already exists, and shouldn't be created like this. "
                      +:+ "Use UpdateVersion instead.")), c)
    | Err _ =>
        let cbv :=
          {| CookbookName := cb_Name c; Name := cb_Name c +:+ "-" +:+ cb_version;
             Version := cb_version; ChefType := "cookbook_version";
             JsonClass := "Chef::CookbookVersion";
             Definitions := []; Libraries := []; Attributes := []; Recipes := [];
             Providers := []; Resources := []; Templates := []; RootFiles := [];
             Files := []; IsFrozen := false; Metadata := ∅ |} in
        match UpdateVersion cbv_data "" cbv with
        | (Ok _, cbv) =>
            let c :=
              {| cb_Name := cb_Name c; Versions := <[cb_version := cbv]> (Versions c);
                 latest := latest c; numVersions := None |} in
            let '(r, c) := UpdateLatestVersion c in
            (res_map (fun _ => cbv) r, c)
        | (Err e, _) => (Err e, c)
        | (Panic, _) => (Panic, c)
        | (OutOfFuel, _) => (OutOfFuel, c)
        end
    end.

End Lifecycle.

(** ** The data store and the resolver *)

(** Computations over the in-memory data store. *)
Definition M (A : Type) : Type := ST (gmap string Cookbook) A.

(** [Get], in-memory branch: the pointer to the stored cookbook. *)
Definition Get (name : string) : M string :=
  fun st =>
    match st !! name with
    | Some _ => (Ok name, st)
    | None => (Err (ErrNotFound name), st)
    end.

(** A method call through a [*Cookbook]: the method works on the stored
    cookbook, and what it writes stays in the store. *)
Definition at_cookbook {A} (p : string) (f : Cookbook -> res A * Cookbook) : M A :=
  fun st =>
    match st !! p with
    | Some c => let '(r, c') := f c in (r, <[p := c']> st)
    | None => (Panic, st)
    end.

(** [methodize]. *)
Definition methodize (method : string) (cb_thing : list (gmap string value))
  : list (gmap string value) :=
  map (fun v : gmap string value =>
         filter (fun kj => negb (String.eqb method "PUT" && String.eqb kj.1 "url") = true) v)
      cb_thing.

(** [ToJson]. *)
Definition ToJson (cbv : CookbookVersion) (method : string) : gmap string value :=
  let division (key : string) (d : list (gmap string value))
      (toJson : gmap string value) : gmap string value :=
    if negb (length d =? 0)%nat then <[key := VDivs (methodize method d)]> toJson
    else toJson in
  let toJson : gmap string value := ∅ in
  let toJson := <["name" := VString (Name cbv)]> toJson in
  let toJson := <["cookbook_name" := VString (CookbookName cbv)]> toJson in
  let toJson :=
    if negb (String.eqb (Version cbv) "0.0.0")
    then <["version" := VString (Version cbv)]> toJson else toJson in
  let toJson := <["chef_type" := VString (ChefType cbv)]> toJson in
  let toJson := <["json_class" := VString (JsonClass cbv)]> toJson in
  let toJson := <["frozen?" := VBool (IsFrozen cbv)]> toJson in
  let toJson := <["recipes" := VDivs (Recipes cbv)]> toJson in
  let toJson := <["metadata" := VMap (Metadata cbv)]> toJson in
  let toJson := division "providers" (Providers cbv) toJson in
  let toJson := division "definitions" (Definitions cbv) toJson in
  let toJson := division "libraries" (Libraries cbv) toJson in
  let toJson := division "attributes" (Attributes cbv) toJson in
  let toJson := division "resources" (Resources cbv) toJson in
  let toJson := division "templates" (Templates cbv) toJson in
  let toJson := division "root_files" (RootFiles cbv) toJson in
  division "files" (Files cbv) toJson.

(** The constraint checks made for one dependency that is already in
    [cd_list] (the loop over [constraints] in [resolveDependencies]). *)
Fixpoint check_constraints (cbv deb_cbv : CookbookVersion) (c : string)
    (constraints : list string) : res unit :=
  match constraints with
  | [] => Ok tt
  | dcon :: rest =>
      if negb (String.eqb dcon "") then
        match splitConstraint dcon with
        | inr bad => Err (ErrMalformed bad)
        | inl (op, ver) =>
            let stat := verConstraintCheck (Version deb_cbv) ver op in
            if negb (String.eqb stat "ok") then
              Err (ErrDepConflict (CookbookName cbv) (Version cbv)
                     (CookbookName deb_cbv) c dcon)
            else check_constraints cbv deb_cbv c rest
        end
      else check_constraints cbv deb_cbv c rest
  end.

(** The loop over [dep_list] in [resolveDependencies]; [rec] is the
    recursive call. *)
Fixpoint resolveDependencies_loop
    (rec : CookbookVersion -> gmap string (list string) -> M (gmap string (list string)))
    (cbv : CookbookVersion) (dep_list : list (string * value))
    (cd_list : gmap string (list string)) : M (gmap string (list string)) :=
  match dep_list with
  | [] => ret cd_list
  | (r, c2) :: rest =>
      match c2 with
      | VString c =>
          dep_cb <- Get r ;;
          deb_cbv <- at_cookbook dep_cb (fun cb => LatestConstrained cb c) ;;
          match deb_cbv with
          | None => fail (ErrNoDepVersion r c)
          | Some deb_cbv =>
              cd_list <-
                match cd_list !! r with
                | Some constraints =>
                    _ <- of_res (check_constraints cbv deb_cbv c constraints) ;;
                    ret cd_list
                | None => ret (<[r := [c]]> cd_list)
                end ;;
              cd_list <- rec deb_cbv cd_list ;;
              resolveDependencies_loop rec cbv rest cd_list
          end
      | _ => panic
      end
  end.

(** [resolveDependencies]; [fuel] bounds the depth of the recursion. *)
Fixpoint resolveDependencies (fuel : nat) (cbv : CookbookVersion)
    (cd_list : gmap string (list string)) : M (gmap string (list string)) :=
  match fuel with
  | O => fun st => (OutOfFuel, st)
  | S fuel' =>
      match Metadata cbv !! "dependencies" with
      | Some (VMap dep_list) =>
          resolveDependencies_loop (resolveDependencies fuel') cbv (range dep_list) cd_list
      | _ => panic
      end
  end.

(** First loop of [DependsCookbooks]: one run-list entry. *)
Definition run_list_entry (cb_v : string) : string * string :=
  let cx := Split cb_v "@" in
  let cbName := Split (cx !!! 0%nat) "::" !!! 0%nat in
  let constraint := if (length cx =? 2)%nat then "= " +:+ cx !!! 1%nat else "" in
  (cbName, constraint).

Fixpoint run_list_loop (run_list : list string) (cd_list : gmap string (list string))
  : gmap string (list string) * list string :=
  match run_list with
  | [] => (cd_list, [])
  | cb_v :: rest =>
      let '(cbName, constraint) := run_list_entry cb_v in
      let '(cd_list', run_list_ref) := run_list_loop rest (<[cbName := [constraint]]> cd_list) in
      (cd_list', cbName :: run_list_ref)
  end.

(** Second loop of [DependsCookbooks]: one entry [k], [ec] of the
    environment's constraints. *)
Definition env_constraint (k ec : string) (cd_list : gmap string (list string))
  : res (gmap string (list string)) :=
  match cd_list !! k with
  | None => Ok cd_list
  | Some [] => Panic
  | Some (requested :: _) =>
      if String.eqb requested "" then Ok (<[k := [ec]]> cd_list)
      else
        let orgver :=
          match splitConstraint requested with inl (_, ver) => ver | inr _ => "" end in
        match splitConstraint ec with
        | inr bad => Err (ErrMalformed bad)
        | inl (newop, newver) =>
            if String.eqb orgver newver then Ok (<[k := [ec]]> cd_list)
            else if String.eqb newop ">" || String.eqb newop ">=" then
              if versionLess orgver newver then Ok (<[k := [ec]]> cd_list)
              else Ok cd_list
            else if String.eqb newop "<" || String.eqb newop "<=" then
              if negb (versionLess orgver newver) then Ok (<[k := [ec]]> cd_list)
              else Ok cd_list
            else if String.eqb newop "=" then
              if negb (String.eqb orgver newver)
              then Err (ErrEnvConflict requested k ec)
              else Ok cd_list
            else if String.eqb newop "~>" then
              if String.eqb (verConstraintCheck orgver newver newop) "ok"
              then Ok (<[k := [ec]]> cd_list)
              else Err (ErrEnvConflict requested k ec)
            else Err (ErrEnvImpossible ec k)
        end
  end.

Fixpoint env_constraints_loop (entries : list (string * string))
    (cd_list : gmap string (list string)) : res (gmap string (list string)) :=
  match entries with
  | [] => Ok cd_list
  | (k, ec) :: rest =>
      match env_constraint k ec cd_list with
      | Ok cd_list' => env_constraints_loop rest cd_list'
      | other => other
      end
  end.

(** Third loop of [DependsCookbooks], over [run_list_ref]. *)
Fixpoint needed_loop (fuel : nat) (run_list_ref : list string)
    (cd_list : gmap string (list string)) : M (gmap string (list string)) :=
  match run_list_ref with
  | [] => ret cd_list
  | cbName :: rest =>
      c <- Get cbName ;;
      match default [] (cd_list !! cbName) with
      | [] => panic
      | constraint :: _ =>
          cbv <- at_cookbook c (fun cb => LatestConstrained cb constraint) ;;
          match cbv with
          | None =>
              name <- at_cookbook c (fun cb => (Ok (cb_Name cb), cb)) ;;
              fail (ErrNoCookbook name constraint)
          | Some cbv =>
              cd_list <- resolveDependencies fuel cbv cd_list ;;
              needed_loop fuel rest cd_list
          end
      end
  end.

(** The loop labelled [Vers] in [DependsCookbooks]: it runs over the
    constraints [traints] of one cookbook for one candidate [cv], and its
    [continue Vers] goes on with the next constraint. *)
Fixpoint Vers_loop (cv : CookbookVersion) (traints : list string) : option error :=
  match traints with
  | [] => None
  | ct :: rest =>
      if negb (String.eqb ct "") then
        match splitConstraint ct with
        | inr bad => Some (ErrMalformed bad)
        | inl (op, ver) =>
            let action := verConstraintCheck (Version cv) ver op in
            if negb (String.eqb action "ok")
            then Vers_loop cv rest
            else Vers_loop cv rest
        end
      else Vers_loop cv rest
  end.

(** The loop over [cb.sortedVersions()] around it: once the [Vers] loop
    is through, [gcbv] is set to [cv] and the loop is left. *)
Definition versions_loop (sorted : list CookbookVersion) (traints : list string)
  : res (option CookbookVersion) :=
  match sorted with
  | [] => Ok None
  | cv :: _ =>
      match Vers_loop cv traints with
      | Some e => Err e
      | None => Ok (Some cv)
      end
  end.

Definition chkDiv : list string :=
  ["definitions"; "libraries"; "attributes"; "providers"; "resources";
   "templates"; "root_files"; "files"].

(** Divisions that [ToJson] left out are set to an empty slice. *)
Definition fill_divisions (gcbvJson : gmap string value) : gmap string value :=
  fold_left
    (fun (j : gmap string value) cd =>
       match j !! cd with
       | None | Some VNil => <[cd := VDivs []]> j
       | Some _ => j
       end)
    chkDiv gcbvJson.

(** Last loop of [DependsCookbooks], over [cd_list]. *)
Fixpoint deps_loop (entries : list (string * list string))
    (cookbook_deps : gmap string value) : M (gmap string value) :=
  match entries with
  | [] => ret cookbook_deps
  | (cname, traints) :: rest =>
      cb <- Get cname ;;
      sorted <- at_cookbook cb (fun c => (Ok (sortedVersions c), c)) ;;
      gcbv <- of_res (versions_loop sorted traints) ;;
      match gcbv with
      | None => fail (ErrUnsatisfied cname traints)
      | Some gcbv =>
          let gcbvJson := fill_divisions (ToJson gcbv "POST") in
          deps_loop rest (<[CookbookName gcbv := VMap gcbvJson]> cookbook_deps)
      end
  end.

(** [DependsCookbooks]. *)
Definition DependsCookbooks (fuel : nat) (run_list : list string)
    (env_constraints : gmap string string) : M (gmap string value) :=
  let '(cd_list, run_list_ref) := run_list_loop run_list ∅ in
  cd_list <- of_res (env_constraints_loop (range env_constraints) cd_list) ;;
  cd_list <- needed_loop fuel run_list_ref cd_list ;;
  deps_loop (range cd_list) ∅.

End Cookbooks.

(** ** The version algebra of the specification

    The definitions of this module follow the words of the specification,
    not the code: a version is a triple of numbers whose patch is 0 when
    the text leaves it out, and every comparison is numeric. *)

Module Spec.

Record version := { major : Z; minor : Z; patch : option Z }.

Definition triple (v : version) : Z * Z * Z :=
  (major v, minor v, default 0 (patch v)).

(** A non-empty run of decimal digits and its value. *)
Fixpoint digits_value (s : string) (acc : Z) : option Z :=
  match s with
  | EmptyString => Some acc
  | String c s' =>
      match digit_of c with
      | Some d => digits_value s' (10 * acc + d)
      | None => None
      end
  end.

Definition number (s : string) : option Z :=
  match s with
  | EmptyString => None
  | _ => digits_value s 0
  end.

(** [Parse]: exactly two or three dot-separated non-negative integers. *)
Definition Parse (text : string) : option version :=
  match Split text "." with
  | [x; y] =>
      match number x, number y with
      | Some a, Some b => Some {| major := a; minor := b; patch := None |}
      | _, _ => None
      end
  | [x; y; z] =>
      match number x, number y, number z with
      | Some a, Some b, Some c => Some {| major := a; minor := b; patch := Some c |}
      | _, _, _ => None
      end
  | _ => None
  end.

(** [Compare]: lexicographic over (major, minor, patch) as integers. *)
Definition Compare (a b : version) : comparison :=
  let '(a1, a2, a3) := triple a in
  let '(b1, b2, b3) := triple b in
  match a1 ?= b1 with
  | Eq => match a2 ?= b2 with Eq => a3 ?= b3 | c => c end
  | c => c
  end.

Definition less (a b : version) : bool :=
  match Compare a b with Lt => true | _ => false end.
Definition equal (a b : version) : bool :=
  match Compare a b with Eq => true | _ => false end.

(** The upper bound of a pessimistic constraint: [~> 1.2.3] stops below
    1.3.0 and [~> 2.1] below 3.0. *)
Definition upper_bound (bound : version) : version :=
  match patch bound with
  | Some _ => {| major := major bound; minor := minor bound + 1; patch := Some 0 |}
  | None => {| major := major bound + 1; minor := 0; patch := None |}
  end.

(** The outcome table of the constraint evaluator for the operators
    other than the pessimistic one, from the result [c] of comparing the
    candidate with the bound. *)
Definition outcome (c : comparison) (op : string) : string :=
  if String.eqb op "=" then
    match c with Eq => "ok" | Lt => "break" | Gt => "skip" end
  else if String.eqb op ">" then
    match c with Gt => "ok" | _ => "break" end
  else if String.eqb op "<" then
    match c with Lt => "ok" | _ => "skip" end
  else if String.eqb op ">=" then
    match c with Lt => "break" | _ => "ok" end
  else if String.eqb op "<=" then
    match c with Gt => "skip" | _ => "ok" end
  else "invalid".

(** [Evaluate]. *)
Definition Evaluate (candidate bound : version) (op : string) : string :=
  if String.eqb op "~>" then
    if less candidate bound then "break"
    else if less candidate (upper_bound bound) then "ok" else "skip"
  else outcome (Compare candidate bound) op.

(** What [Merge] does with a request that is there: take the constraint
    of the environment, keep the requested one, or fail.  [c] compares the
    requested bound with the bound of the environment, [pessimistic_ok]
    tells whether the requested bound passes the environment's pessimistic
    constraint, [eop] is the operator of the environment. *)
Inductive decision := TakeEnvironment | KeepRequested | Conflict | Invalid.

Definition decide_merge (c : comparison) (pessimistic_ok : bool) (eop : string)
  : decision :=
  match c with
  | Eq => TakeEnvironment
  | _ =>
      if String.eqb eop ">" || String.eqb eop ">=" then
        match c with Lt => TakeEnvironment | _ => KeepRequested end
      else if String.eqb eop "<" || String.eqb eop "<=" then
        match c with Lt => KeepRequested | _ => TakeEnvironment end
      else if String.eqb eop "=" then Conflict
      else if String.eqb eop "~>" then
        if pessimistic_ok then TakeEnvironment else Conflict
      else Invalid
  end.

(** [Merge] of a requested constraint, if there is one, with the
    constraint of the environment. *)
Definition Merge (requested : option (string * version))
    (environment : string * version) : decision :=
  match requested with
  | None => TakeEnvironment
  | Some (rop, rver) =>
      decide_merge (Compare rver environment.2)
        (String.eqb (Evaluate rver environment.2 "~>") "ok") environment.1
  end.

End Spec.

(** ** Canonical version texts *)

(** The text of a version whose numbers are written by [%d]: "x.y.z" when
    the patch is there, "x.y" when it is not. *)
Definition render (v : Spec.version) : string :=
  match Spec.patch v with
  | Some c =>
      format_d (Spec.major v) +:+ "." +:+ format_d (Spec.minor v) +:+ "." +:+ format_d c
  | None => format_d (Spec.major v) +:+ "." +:+ format_d (Spec.minor v)
  end.

Definition in_range (n : Z) : Prop := 0 <= n < 2 ^ 63.

(** The numbers of a version fit a Go [int]. *)
Definition valid (v : Spec.version) : Prop :=
  in_range (Spec.major v) /\ in_range (Spec.minor v) /\
  match Spec.patch v with Some c => in_range c | None => True end.

Definition full (x y z : Z) : Spec.version :=
  {| Spec.major := x; Spec.minor := y; Spec.patch := Some z |}.
Definition short (x y : Z) : Spec.version :=
  {| Spec.major := x; Spec.minor := y; Spec.patch := None |}.

(** The order of [versionLess] on canonical texts: numeric on major and
    minor, then a patch that is left out comes before every patch. *)
Definition absent_first_less (v w : Spec.version) : bool :=
  if negb (Spec.major v =? Spec.major w) then Spec.major v <? Spec.major w
  else if negb (Spec.minor v =? Spec.minor w) then Spec.minor v <? Spec.minor w
  else
    match Spec.patch v, Spec.patch w with
    | None, None => false
    | None, Some _ => true
    | Some _, None => false
    | Some c, Some c' => c <? c'
    end.

(** The comparison the code makes of two version texts: the same text,
    or [versionLess], or neither. *)
Definition compare_texts (ver_a ver_b : string) : comparison :=
  if String.eqb ver_a ver_b then Eq
  else if versionLess ver_a ver_b then Lt else Gt.

Fixpoint all_digits (s : string) : bool :=
  match s with
  | EmptyString => true
  | String c s' =>
      match digit_of c with Some _ => all_digits s' | None => false end
  end.

Fixpoint no_dot (s : string) : bool :=
  match s with
  | EmptyString => true
  | String c s' => negb (Ascii.eqb c ".") && no_dot s'
  end.

(** Value of a digit sequence read from the left, starting from [acc]. *)
Fixpoint uval (d : Decimal.uint) (acc : Z) : Z :=
  match d with
  | Decimal.Nil => acc
  | Decimal.D0 d => uval d (10 * acc)
  | Decimal.D1 d => uval d (10 * acc + 1)
  | Decimal.D2 d => uval d (10 * acc + 2)
  | Decimal.D3 d => uval d (10 * acc + 3)
  | Decimal.D4 d => uval d (10 * acc + 4)
  | Decimal.D5 d => uval d (10 * acc + 5)
  | Decimal.D6 d => uval d (10 * acc + 6)
  | Decimal.D7 d => uval d (10 * acc + 7)
  | Decimal.D8 d => uval d (10 * acc + 8)
  | Decimal.D9 d => uval d (10 * acc + 9)
  end.

(** ** What resolution may write, and what it follows *)

(** The versions a cookbook can hand out: those of [Versions] and the
    cached one. *)
Definition versions_of (c : Cookbook) : list CookbookVersion :=
  (map_to_list (Versions c)).*2 ++ option_list (latest c).

Section Frames.

Variable order : list string -> list string.

(** [c'] is [c], except that a [latest] that was nil may have been filled
    with the first of the sorted versions. *)
Definition cache_filled (c c' : Cookbook) : Prop :=
  cb_Name c' = cb_Name c /\ Versions c' = Versions c /\
  numVersions c' = numVersions c /\
  (latest c' = latest c \/
   latest c = None /\
   exists v, head (sortedVersions order c) = Some v /\ latest c' = Some v).

(** The same cookbooks under the same names, up to [cache_filled]. *)
Definition caches_filled (st st' : gmap string Cookbook) : Prop :=
  forall p, option_Forall2 cache_filled (st !! p) (st' !! p).

(** A computation on a cookbook only fills the cache, and is not affected
    by a filled cache. *)
Definition fills_cache {A} (f : ST Cookbook A) : Prop :=
  (forall c, cache_filled c (f c).2) /\
  (forall c1 c2, cache_filled c1 c2 ->
     (f c1).1 = (f c2).1 /\ cache_filled (f c1).2 (f c2).2).

(** The same for a computation on the data store. *)
Definition fills_caches {A} (m : ST (gmap string Cookbook) A) : Prop :=
  (forall st, caches_filled st (m st).2) /\
  (forall st1 st2, caches_filled st1 st2 ->
     (m st1).1 = (m st2).1 /\ caches_filled (m st1).2 (m st2).2).

(** A triple for computations on the data store: from a store in [P] the
    computation does not run out of fuel, and a value it returns comes
    with a store in [Q]. *)
Definition hoare {A} (P : gmap string Cookbook -> Prop)
    (m : ST (gmap string Cookbook) A)
    (Q : A -> gmap string Cookbook -> Prop) : Prop :=
  forall st, P st ->
    (m st).1 <> OutOfFuel /\ forall a, (m st).1 = Ok a -> Q a (m st).2.

(** The stores that resolution started from [st0] can reach. *)
Definition reached (st0 st : gmap string Cookbook) : Prop := caches_filled st0 st.

(** From fuel [n] on, [resolveDependencies] called on a version of the
    cookbook stored as [p] does not run out of fuel. *)
Definition enough (st0 : gmap string Cookbook) (n : nat) (p : string) : Prop :=
  forall fuel, (n <= fuel)%nat -> forall c v cd,
    hoare (fun st => reached st0 st /\ st !! p = Some c /\ v ∈ versions_of c)
      (resolveDependencies order fuel v cd) (fun _ st => reached st0 st).

End Frames.

(** The names a version declares a dependency on. *)
Definition dep_names (v : CookbookVersion) : list string :=
  match Metadata v !! "dependencies" with
  | Some (VMap dep_list) => (map_to_list dep_list).*1
  | _ => []
  end.

(** The declared dependencies of the store: [(p, q)] when a version of the
    cookbook stored as [p] declares a dependency on [q]. *)
Definition dep_pairs (st : gmap string Cookbook) : list (string * string) :=
  pc ← map_to_list st; v ← versions_of pc.2; q ← dep_names v; [(pc.1, q)].

Definition declares (st : gmap string Cookbook) (p q : string) : Prop :=
  (p, q) ∈ dep_pairs st.

Definition acyclic (st : gmap string Cookbook) : Prop :=
  Irreflexive (tc (declares st)).

(** A numbering of the cookbooks that falls along every declared
    dependency. *)
Definition ranked (rank : string -> nat) (st : gmap string Cookbook) : bool :=
  forallb (fun pq : string * string => (rank pq.2 <? rank pq.1)%nat) (dep_pairs st).


(** The version a requested constraint names, as the second loop of
    [DependsCookbooks] reads it. *)
Definition requested_version (requested : string) : string :=
  match splitConstraint requested with inl (_, ver) => ver | inr _ => "" end.

(** The version chosen for [name] in the result of [DependsCookbooks]. *)
Definition chosen_version (deps : gmap string value) (name : string) : option value :=
  match deps !! name with
  | Some (VMap gcbvJson) => gcbvJson !! "version"
  | _ => None
  end.

(** ** Example data *)

(** Two visiting orders: by ascending and by descending key. *)
Definition ascending (keys : list string) : list string := merge_sort String.le keys.
Definition descending (keys : list string) : list string := rev (ascending keys).

(** A version with the given declared dependencies. *)
Definition example_version (name ver : string) (deps : list (string * string))
  : CookbookVersion :=
  {| CookbookName := name; Name := name +:+ "-" +:+ ver; Version := ver;
     ChefType := "cookbook_version"; JsonClass := "Chef::CookbookVersion";
     Definitions := []; Libraries := []; Attributes := []; Recipes := [];
     Providers := []; Resources := []; Templates := []; RootFiles := []; Files := [];
     IsFrozen := false;
     Metadata :=
       {[ "dependencies" :=
            VMap (list_to_map ((fun kv : string * string => (kv.1, VString kv.2)) <$> deps)) ]} |}.

(** A cookbook with the given versions and an empty cache. *)
Definition example_cookbook (name : string) (vs : list CookbookVersion) : Cookbook :=
  {| cb_Name := name;
     Versions := list_to_map ((fun v => (Version v, v)) <$> vs);
     latest := None; numVersions := None |}.

Definition foo_1_0_0 : CookbookVersion := example_version "foo" "1.0.0" [].
Definition foo_1_2_0 : CookbookVersion := example_version "foo" "1.2.0" [].
Definition foo_2_0_0 : CookbookVersion := example_version "foo" "2.0.0" [].

(** The cookbook foo with the versions 1.0.0, 1.2.0 and 2.0.0. *)
Definition foo : Cookbook := example_cookbook "foo" [foo_1_0_0; foo_1_2_0; foo_2_0_0].

Definition foo_store : gmap string Cookbook := {[ "foo" := foo ]}.

(** foo after its version 2.0.0 was added last, so that the cache holds
    it. *)
Definition foo_cached : Cookbook :=
  {| cb_Name := "foo"; Versions := Versions foo; latest := Some foo_2_0_0;
     numVersions := None |}.

(** A store where a 1.0.0 depends on b and on c, c 1.0.0 depends on
    b = 1.0.0, and b has the versions 1.0.0 and 2.0.0. *)
Definition abc_store : gmap string Cookbook :=
  list_to_map
    [("a", example_cookbook "a" [example_version "a" "1.0.0" [("b", ""); ("c", "")]]);
     ("b", example_cookbook "b" [example_version "b" "1.0.0" [];
                                 example_version "b" "2.0.0" []]);
     ("c", example_cookbook "c" [example_version "c" "1.0.0" [("b", "= 1.0.0")]])].

Definition abc_rank (name : string) : nat :=
  if String.eqb name "a" then 2 else if String.eqb name "c" then 1 else 0.

(** Stand-ins for the validators of package [util]. *)
Definition example_string (v : value) : value * option string :=
  match v with
  | VString s => (VString s, None)
  | VNil => (VString "", Some "Field 'name' nil")
  | _ => (VString "", Some "Field 'name' invalid")
  end.
Definition example_division (d : string) (v : value) : value * option string :=
  match v with
  | VDivs l => (VDivs l, None)
  | VNil => (VDivs [], None)
  | _ => (VDivs [], Some ("Field '" +:+ d +:+ "' invalid"))
  end.
Definition example_metadata (v : value) : value * option string :=
  match v with
  | VMap m => (VMap m, None)
  | _ => (VMap ∅, Some "bad metadata")
  end.
Definition example_bool (v : value) : value * option string :=
  match v with
  | VBool b => (VBool b, None)
  | VNil => (VBool false, None)
  | _ => (VBool false, Some "Field 'frozen?' invalid")
  end.



(** A cookbook whose only version depends on the cookbook itself. *)
Definition self_version : CookbookVersion := example_version "a" "1.0.0" [("a", "")].
Definition self_cookbook : Cookbook :=
  {| cb_Name := "a"; Versions := {[ "1.0.0" := self_version ]};
     latest := Some self_version; numVersions := None |}.
Definition self_store : gmap string Cookbook := {[ "a" := self_cookbook ]}.

(** ** File hashes, listings and recipe names *)

(** [getAttrHashes]: one entry for every item of a division, the empty
    string where the item has no [checksum] string. *)
Definition getAttrHashes (attr : list (gmap string value)) : list string :=
  map (fun v : gmap string value =>
         match v !! "checksum" with
         | Some (VString h) => h
         | _ => ""
         end)
      attr.

(** [delSliceElement], for a position inside the slice (where the callers
    use it). *)
Definition delSliceElement (pos : nat) (strs : list string) : list string :=
  (take pos strs ++ drop (S pos) strs)%list.

(** The loop of [removeDupHashes]: [n] rounds are left, [i] is the index
    the [range] is at.  The slice shrinks in place, so the element the
    [range] hands out is the one the shrunk slice has at [i]. *)
Fixpoint removeDupHashes_loop (n i : nat) (file_hashes : list string) : list string :=
  match n with
  | O => file_hashes
  | S n' =>
      if (length file_hashes <=? i + 1)%nat then file_hashes
      else
        match file_hashes !! i, file_hashes !! (i + 1)%nat with
        | Some v, Some next =>
            if String.eqb v next
            then removeDupHashes_loop n' (S i) (delSliceElement (i + 1) file_hashes)
            else removeDupHashes_loop n' (S i) file_hashes
        | _, _ => file_hashes
        end
  end.

Definition removeDupHashes (file_hashes : list string) : list string :=
  removeDupHashes_loop (length file_hashes) 0 file_hashes.

(** One pass of the insertion sort behind [sort.Strings]: [x] moves
    towards the front while it is less than the element before it.
    [before] is the sorted part, nearest element first. *)
Fixpoint insert_string (x : string) (before : list string) : list string :=
  match before with
  | [] => [x]
  | y :: before' =>
      if String.ltb x y then y :: insert_string x before' else x :: before
  end.

(** [sort.Strings], as the insertion sort the library runs on short
    slices. *)
Definition sort_Strings (l : list string) : list string :=
  rev (fold_left (fun before x => insert_string x before) l []).

(** [fileHashes]. *)
Definition fileHashes (cbv : CookbookVersion) : list string :=
  let fhashes :=
    (getAttrHashes (Definitions cbv) ++ getAttrHashes (Libraries cbv)
     ++ getAttrHashes (Attributes cbv) ++ getAttrHashes (Recipes cbv)
     ++ getAttrHashes (Providers cbv) ++ getAttrHashes (Resources cbv)
     ++ getAttrHashes (Templates cbv) ++ getAttrHashes (RootFiles cbv)
     ++ getAttrHashes (Files cbv))%list in
  removeDupHashes (sort_Strings fhashes).

(** The innermost loop of [deleteHashes] for one hash [vh] of a stored
    version: the first entry of [file_hashes] equal to [vh] is taken out,
    unless an entry greater than [vh] comes first. *)
Fixpoint keep_hash (vh : string) (file_hashes : list string) : list string :=
  match file_hashes with
  | [] => []
  | fh :: rest =>
      if String.eqb fh vh then rest
      else if String.ltb vh fh then fh :: rest
      else fh :: keep_hash vh rest
  end.

(** The first part of a recipe file name that the regular expression
    [(.*?)\.rb] captures: the text before the first ".rb", from the last
    line break on, as [.] does not match a line break.  [cur] holds the
    text read so far, last byte first. *)
Fixpoint recipe_base (cur : string) (s : string) : option string :=
  match s with
  | EmptyString => None
  | String c s' =>
      if HasPrefix s ".rb" then Some (String.rev cur)
      else if Ascii.eqb c "010"%char then recipe_base EmptyString s'
      else recipe_base (String c cur) s'
  end.

(** The loop of [RecipeList]. *)
Fixpoint RecipeList_loop (cookbookName : string) (recipe_meta : list (gmap string value))
  : res (list string) :=
  match recipe_meta with
  | [] => Ok []
  | r :: rest =>
      match r !! "name" with
      | Some (VString name) =>
          match recipe_base EmptyString name with
          | None => Err (Gerror "No recipe name found")
          | Some rbase =>
              let rname :=
                if String.eqb rbase "default" then cookbookName
                else cookbookName +:+ "::" +:+ rbase in
              res_map (cons rname) (RecipeList_loop cookbookName rest)
          end
      | _ => Panic
      end
  end.

(** [RecipeList]. *)
Definition RecipeList (cbv : CookbookVersion) : res (list string) :=
  RecipeList_loop (CookbookName cbv) (Recipes cbv).

Section Listings.

Variable order : list string -> list string.

(** [NumVersions], in-memory branch. *)
Definition NumVersions (c : Cookbook) : Z := Z.of_nat (size (Versions c)).

(** [GetList], in-memory branch: the names in the data store, in the
    order the store lists them. *)
Definition GetList (st : gmap string Cookbook) : list string :=
  (range order st).*1.

(** [AllCookbooks], in-memory branch. *)
Definition AllCookbooks (st : gmap string Cookbook) : list Cookbook :=
  omap (fun c => st !! c) (GetList st).

(** [deleteHashes]: what is left of [file_hashes] after the hashes of all
    stored versions were taken out; this is the list handed to
    [filestore.DeleteHashes]. *)
Definition deleteHashes (st : gmap string Cookbook) (file_hashes : list string)
  : list string :=
  fold_left
    (fun file_hashes cb =>
       fold_left
         (fun file_hashes ver =>
            fold_left (fun file_hashes vh => keep_hash vh file_hashes)
              (fileHashes ver) file_hashes)
         (sortedVersions order cb) file_hashes)
    (AllCookbooks st) file_hashes.

(** [DeleteVersion] on the cookbook stored as [p], with the clean-up of
    file hashes: the result, the store, and the hashes handed to
    [filestore.DeleteHashes]. *)
Definition DeleteVersion_at (p cb_version : string) (st : gmap string Cookbook)
  : res unit * gmap string Cookbook * list string :=
  match st !! p with
  | None => (Panic, st, [])
  | Some c =>
      match GetVersion order cb_version c with
      | (Ok cbv, _) =>
          let file_hashes := fileHashes cbv in
          let '(r, c') := DeleteVersion order cb_version c in
          let st' := <[cb_Name c' := c']> (<[p := c']> st) in
          (r, st', deleteHashes (<[p := c']> st) file_hashes)
      | _ =>
          let '(r, c') := DeleteVersion order cb_version c in (r, <[p := c']> st, [])
      end
  end.

(** The package [util] makes the URLs. *)
Variable ObjURL : Cookbook -> string.
Variable CustomObjURL : Cookbook -> string -> string.

(** The loop labelled [VerLoop] of [infoHashBase]; [constraint] is the
    operator and the version of the constraint, if there is one. *)
Fixpoint VerLoop (c : Cookbook) (sorted : list CookbookVersion) (all_versions : bool)
    (num_versions nr : Z) (constraint : option (string * string)) : list value :=
  match sorted with
  | [] => []
  | cv :: rest =>
      if negb all_versions && (num_versions <=? nr) then []
      else
        let con_action :=
          match constraint with
          | Some (constraint_op, constraint_version) =>
              verConstraintCheck (Version cv) constraint_version constraint_op
          | None => "ok"
          end in
        if String.eqb con_action "skip"
        then VerLoop c rest all_versions num_versions nr constraint
        else if String.eqb con_action "break" then []
        else
          let cv_info : gmap string value :=
            <["version" := VString (Version cv)]>
              (<["url" := VString (CustomObjURL c (Version cv))]> ∅) in
          VMap cv_info
          :: VerLoop c rest all_versions num_versions (nr + 1) constraint
  end.

(** [infoHashBase]; [None] is the nil map it returns for a constraint that
    is not well formed. *)
Definition infoHashBase (c : Cookbook) (num_results : value) (constraint : string)
  : res (option (gmap string value)) :=
  let counted : res (bool * Z) :=
    match num_results with
    | VString s =>
        if negb (String.eqb s "") && negb (String.eqb s "all") then Ok (false, Atoi s)
        else if String.eqb s "" then Ok (false, 1)
        else Ok (true, 0)
    | _ => Panic
    end in
  match counted with
  | Ok (all_versions, num_versions) =>
      let parsed : option (option (string * string)) :=
        if negb (String.eqb constraint "") then
          match Split constraint " " with
          | [constraint_op; constraint_version] =>
              Some (Some (constraint_op, constraint_version))
          | _ => None
          end
        else Some None in
      match parsed with
      | None => Ok None
      | Some con =>
          let versions :=
            VerLoop c (sortedVersions order c) all_versions num_versions 0 con in
          Ok (Some (<["versions" := VSlice versions]>
                      (<["url" := VString (ObjURL c)]> ∅)))
      end
  | Err e => Err e
  | Panic => Panic
  | OutOfFuel => OutOfFuel
  end.

(** [InfoHash] and [ConstrainedInfoHash]. *)
Definition InfoHash (c : Cookbook) (num_results : value) :=
  infoHashBase c num_results "".
Definition ConstrainedInfoHash (c : Cookbook) (num_results : value) (constraint : string) :=
  infoHashBase c num_results constraint.

End Listings.

Section VerNums.

(** [util.ValidateAsVersion] and [strconv.ParseInt] with base 0 and 64
    bits, each with the message of its error. *)
Variable ValidateAsVersion : value -> value * option string.
Variable ParseInt_base0 : string -> Z * option string.

(** [extractVerNums].  Its test of the number of parts asks for a length
    that is below 2 and above 3 at once. *)
Definition extractVerNums (cbVersion : string) : res (Z * Z * Z) :=
  match (ValidateAsVersion (VString cbVersion)).2 with
  | Some msg => Err (Gerror msg)
  | None =>
      let nums := Split cbVersion "." in
      if (length nums <? 2)%nat && (3 <? length nums)%nat then
        Err (Gerror "incorrect number of numbers in version string")
      else
        match nums !! 0%nat with
        | None => Panic
        | Some n0 =>
            match ParseInt_base0 n0 with
            | (_, Some msg) => Err (Gerror msg)
            | (maj, None) =>
                match nums !! 1%nat with
                | None => Panic
                | Some n1 =>
                    match ParseInt_base0 n1 with
                    | (_, Some msg) => Err (Gerror msg)
                    | (min, None) =>
                        if (length nums =? 3)%nat then
                          match nums !! 2%nat with
                          | None => Panic
                          | Some n2 =>
                              match ParseInt_base0 n2 with
                              | (_, Some msg) => Err (Gerror msg)
                              | (patch, None) => Ok (maj, min, patch)
                              end
                          end
                        else Ok (maj, min, 0)
                    end
                end
            end
        end
  end.

End VerNums.


(** ** Auxiliary notions for the statements *)

(** The byte [c] does not occur in [s]. *)
Fixpoint no_char (c : ascii) (s : string) : bool :=
  match s with
  | EmptyString => true
  | String c' s' => negb (Ascii.eqb c' c) && no_char c s'
  end.

(** The pieces [l] put together again with [sep] between them
    ([strings.Join]). *)
Fixpoint Join (l : list string) (sep : string) : string :=
  match l with
  | [] => ""
  | [x] => x
  | x :: rest => x +:+ sep +:+ Join rest sep
  end.

(** Every entry of the table of constraints holds exactly one constraint. *)
Definition singletons (cd_list : gmap string (list string)) : Prop :=
  forall k l, cd_list !! k = Some l -> exists c, l = [c].

(** The keys that every cookbook of a resolution result carries. *)
Definition result_keys : list string :=
  ["name"; "cookbook_name"; "chef_type"; "json_class"; "frozen?"; "recipes";
   "metadata"; "definitions"; "libraries"; "attributes"; "providers";
   "resources"; "templates"; "root_files"; "files"].

(** A version text in canonical decimal form whose numbers fit a Go
    [int]. *)
Definition canonical (text : string) : Prop :=
  exists v, valid v /\ text = render v.

(** Every version of the cookbook is stored under its own version text,
    and that text is canonical. *)
Definition keyed (c : Cookbook) : Prop :=
  forall k v, Versions c !! k = Some v -> Version v = k /\ canonical k.

(** [v] passes the check of the constraint [op ver]. *)
Definition passes (op ver : string) (v : CookbookVersion) : Prop :=
  verConstraintCheck (Version v) ver op = "ok".

(** The resolution of the run list foo@1.0.0 on [foo_store], and the
    cookbooks it reports. *)
Definition foo_resolution : res (gmap string value) * gmap string Cookbook :=
  DependsCookbooks ascending 1 ["foo@1.0.0"] ∅ foo_store.
Definition foo_deps : gmap string value :=
  match foo_resolution.1 with Ok deps => deps | _ => ∅ end.

(** The version of a in [abc_store], and the table after its
    dependencies were resolved from a table that holds a alone. *)
Definition a_1_0_0 : CookbookVersion :=
  example_version "a" "1.0.0" [("b", ""); ("c", "")].
Definition a_resolution : res (gmap string (list string)) * gmap string Cookbook :=
  resolveDependencies ascending 3 a_1_0_0 {[ "a" := [""] ]} abc_store.
Definition a_table : gmap string (list string) :=
  match a_resolution.1 with Ok cd => cd | _ => ∅ end.

(** [w] carries the cookbook name, the name and the version text of
    [v]. *)
Definition same_identity (v w : CookbookVersion) : Prop :=
  CookbookName w = CookbookName v /\ Name w = Name v /\ Version w = Version v.

(** What a computation on a version may do to it: keep the fields that
    name it; leave it as it was whenever it returns an error; never
    return an error; never write to it. *)
Definition keeps_identity {A} (m : ST CookbookVersion A) : Prop :=
  forall v, same_identity v (m v).2.
Definition rejects_cleanly {A} (m : ST CookbookVersion A) : Prop :=
  forall v e v', m v = (Err e, v') -> v' = v.
Definition never_fails {A} (m : ST CookbookVersion A) : Prop :=
  forall v e v', m v <> (Err e, v').
Definition reads_only {A} (m : ST CookbookVersion A) : Prop :=
  forall v, (m v).2 = v.

(** The items of all divisions of a version, in the order [fileHashes]
    reads them. *)
Definition division_items (cbv : CookbookVersion) : list (gmap string value) :=
  (Definitions cbv ++ Libraries cbv ++ Attributes cbv ++ Recipes cbv
   ++ Providers cbv ++ Resources cbv ++ Templates cbv ++ RootFiles cbv
   ++ Files cbv)%list.



(** The entry [infoHashBase] makes for a version. *)
Definition version_info (CustomObjURL : Cookbook -> string -> string)
    (c : Cookbook) (cv : CookbookVersion) : value :=
  VMap (<["version" := VString (Version cv)]>
          (<["url" := VString (CustomObjURL c (Version cv))]> ∅)).

(** The map [infoHashBase] returns for the listed versions. *)
Definition info_hash (ObjURL : Cookbook -> string)
    (CustomObjURL : Cookbook -> string -> string)
    (c : Cookbook) (listed : list CookbookVersion) : gmap string value :=
  <["versions" := VSlice (version_info CustomObjURL c <$> listed)]>
    (<["url" := VString (ObjURL c)]> ∅).

(** The number of versions asked for by a [num_results] other than
    "all". *)
Definition asked (num_results : string) : Z :=
  if String.eqb num_results "" then 1 else Atoi num_results.

(** The operators [verConstraintCheck] knows. *)
Definition operators : list string := ["="; ">"; "<"; ">="; "<="; "~>"].

(** The name [RecipeList] gives the recipe whose file is [rbase].rb. *)
Definition recipe_name (cookbookName rbase : string) : string :=
  if String.eqb rbase "default" then cookbookName
  else cookbookName +:+ "::" +:+ rbase.

(** A recipe file name [rbase].rb whose [rbase] holds neither a dot nor a
    line break. *)
Definition recipe_file (r : gmap string value) (rbase : string) : Prop :=
  r !! "name" = Some (VString (rbase +:+ ".rb")) /\
  no_char "." rbase = true /\ no_char "010" rbase = true.

(** A request for version 3.0.0 of foo, and what [NewVersion] makes of it
    on the cookbook foo. *)
Definition new_request : gmap string value :=
  list_to_map
    [("cookbook_name", VString "foo"); ("name", VString "foo-3.0.0");
     ("version", VString "3.0.0"); ("metadata", VMap ∅)].
Definition foo_new : res CookbookVersion * Cookbook :=
  NewVersion ascending example_string example_string example_string
    example_division example_metadata example_bool "3.0.0" new_request foo.
Definition foo_3_0_0 : CookbookVersion :=
  match foo_new.1 with Ok cbv => cbv | _ => foo_1_0_0 end.

(** A request with a key that is no element of a version. *)
Definition colour_request : gmap string value :=
  list_to_map [("cookbook_name", VString "foo"); ("colour", VString "red")].

(** A stand-in for [strconv.ParseInt] with base 0, for decimal texts. *)
Definition example_parse (s : string) : Z * option string :=
  let '(n, ok) := ParseInt s in (n, if ok then None else Some "invalid syntax").

(** The divisions [ToJson] sends only when something is in them, under
    the keys it sends them with. *)
Definition optional_divisions (cbv : CookbookVersion)
  : list (string * list (gmap string value)) :=
  [("providers", Providers cbv); ("definitions", Definitions cbv);
   ("libraries", Libraries cbv); ("attributes", Attributes cbv);
   ("resources", Resources cbv); ("templates", Templates cbv);
   ("root_files", RootFiles cbv); ("files", Files cbv)].

(** * Properties *)

(** ** Decimal texts and the version order *)

Lemma uval_ge d : forall acc, 0 <= acc -> acc <= uval d acc.
Proof.
  induction d; intros acc Hacc; simpl; [lia | ..];
    (etransitivity; [| apply IHd; lia]); lia.
Qed.

Lemma uval_of_uint_acc d : forall acc, uval d (Zpos acc) = Zpos (Pos.of_uint_acc d acc).
Proof.
  induction d; intros acc; simpl; [reflexivity | ..];
    rewrite <- IHd; f_equal; lia.
Qed.

Lemma uval_of_uint d : uval d 0 = Z.of_N (Pos.of_uint d).
Proof.
  induction d; simpl; try reflexivity; try exact IHd;
    rewrite <- uval_of_uint_acc; reflexivity.
Qed.

Lemma all_digits_string_of_uint d : all_digits (NilEmpty.string_of_uint d) = true.
Proof. induction d; simpl; auto. Qed.

Lemma ParseUint_loop_step c s d n :
  digit_of c = Some d -> 0 <= d <= 9 -> 0 <= n -> 10 * n + d < 2 ^ 64 ->
  ParseUint_loop (String c s) n = ParseUint_loop s (10 * n + d).
Proof.
  intros Hc Hd Hn Hlt. cbn [ParseUint_loop]. rewrite Hc.
  change cutoff64 with 1844674407370955162.
  change maxUint64 with 18446744073709551615.
  change (2 ^ 64) with 18446744073709551616 in *.
  destruct (Z.leb_spec 1844674407370955162 n); [lia |].
  rewrite Z.mod_small by lia.
  destruct (Z.ltb_spec (n * 10 + d) (n * 10)); [lia |].
  destruct (Z.ltb_spec 18446744073709551615 (n * 10 + d)); [lia |].
  simpl. f_equal. lia.
Qed.

Lemma ParseUint_loop_string_of_uint d :
  forall acc, 0 <= acc -> uval d acc < 2 ^ 64 ->
  ParseUint_loop (NilEmpty.string_of_uint d) acc = Val (uval d acc).
Proof.
  induction d; intros acc Hacc Hlt; [reflexivity | ..];
    cbn [NilEmpty.string_of_uint uval] in *;
    match goal with
    | H : uval ?d ?a < _ |- _ => pose proof (uval_ge d a ltac:(lia))
    end;
    match goal with
    | |- context [ParseUint_loop (String ?c _) _] =>
        let v := eval vm_compute in (digit_of c) in
        match v with
        | Some ?k =>
            rewrite (ParseUint_loop_step c _ k);
            [| vm_compute; reflexivity | lia | lia | rewrite ?Z.add_0_r; lia ]
        end
    end;
    rewrite ?Z.add_0_r; apply IHd; lia.
Qed.

Lemma ParseInt_unsigned c s d un :
  digit_of c = Some d -> ParseUint_loop (String c s) 0 = Val un -> un < 2 ^ 63 ->
  ParseInt (String c s) = (un, true).
Proof.
  intros Hc Hloop Hun. unfold ParseInt.
  destruct (Ascii.eqb_spec c "-") as [-> | _]; [discriminate Hc |].
  destruct (Ascii.eqb_spec c "+") as [-> | _]; [discriminate Hc |].
  cbn [orb]. rewrite Hloop. cbn [negb andb].
  destruct (Z.leb_spec (2 ^ 63) un); [lia | reflexivity].
Qed.

Lemma Atoi_format_d n : 0 <= n < 2 ^ 63 -> Atoi (format_d n) = n.
Proof.
  intros Hn. unfold format_d, Atoi. destruct n as [| p | p]; [reflexivity | | lia].
  cbn [Z.to_int NilZero.string_of_int NilZero.string_of_uint].
  pose proof (Unsigned.to_uint_nonnil p) as Hnil.
  pose proof (Unsigned.of_to p) as Hof.
  pose proof (ParseUint_loop_string_of_uint (Pos.to_uint p) 0 ltac:(lia)) as Hloop.
  rewrite uval_of_uint, Hof in Hloop. specialize (Hloop ltac:(simpl; lia)).
  destruct (Pos.to_uint p) eqn:E; [done | ..];
    unfold NilZero.string_of_uint; cbn [NilEmpty.string_of_uint] in *;
    (erewrite ParseInt_unsigned; [reflexivity | vm_compute; reflexivity | exact Hloop | simpl; lia]).
Qed.

Lemma all_digits_no_dot s : all_digits s = true -> no_dot s = true.
Proof.
  induction s as [| c s IH]; [done |]. simpl.
  destruct (digit_of c) eqn:E; [| done]. intros H.
  destruct (Ascii.eqb_spec c ".") as [-> | _]; [discriminate E |]. simpl. auto.
Qed.

Lemma append_empty_r s : s +:+ "" = s.
Proof. induction s as [| c s IH]; [done |]. change (String c (s +:+ "") = String c s). by rewrite IH. Qed.

Lemma rev_app_rev_app s1 : forall s2 s3,
  String.rev_app (String.rev_app s1 s2) s3 = String.rev_app s2 (s1 +:+ s3).
Proof. induction s1 as [| c s1 IH]; intros; simpl; [done |]. by rewrite IH. Qed.

Lemma HasPrefix_nil s : HasPrefix s "" = true.
Proof. by destruct s. Qed.

Lemma Split_scan_no_dot s : forall cur t,
  no_dot s = true ->
  Split_scan "." 0 cur (s +:+ t) = Split_scan "." 0 (String.rev_app s cur) t.
Proof.
  induction s as [| c s IH]; intros cur t H; [done |].
  simpl in H. apply andb_prop in H as [Hc Hs].
  change (String c s +:+ t) with (String c (s +:+ t)).
  cbn [Split_scan HasPrefix String.rev_app].
  rewrite HasPrefix_nil, andb_true_r.
  destruct (Ascii.eqb c "."); [done |]. by apply IH.
Qed.

Lemma Split_scan_dot cur t :
  Split_scan "." 0 cur (String "." t) = String.rev cur :: Split_scan "." 0 "" t.
Proof. cbn [Split_scan HasPrefix]. by rewrite HasPrefix_nil. Qed.

Lemma Split_piece s cur t :
  no_dot s = true ->
  Split_scan "." 0 cur (s +:+ String "." t)
  = String.rev_app cur s :: Split_scan "." 0 "" t.
Proof.
  intros H. rewrite Split_scan_no_dot, Split_scan_dot by done.
  unfold String.rev. by rewrite rev_app_rev_app, append_empty_r.
Qed.

Lemma Split_last s cur :
  no_dot s = true -> Split_scan "." 0 cur s = [String.rev_app cur s].
Proof.
  intros H. rewrite <- (append_empty_r s) at 1. rewrite Split_scan_no_dot by done.
  simpl. unfold String.rev. by rewrite rev_app_rev_app, append_empty_r.
Qed.

Lemma Split3 a b c :
  no_dot a = true -> no_dot b = true -> no_dot c = true ->
  Split (a +:+ "." +:+ b +:+ "." +:+ c) "." = [a; b; c].
Proof.
  intros Ha Hb Hc. unfold Split.
  change (a +:+ "." +:+ b +:+ "." +:+ c) with (a +:+ String "." (b +:+ String "." c)).
  rewrite Split_piece by done. rewrite Split_piece by done. by rewrite Split_last.
Qed.

Lemma Split2 a b :
  no_dot a = true -> no_dot b = true -> Split (a +:+ "." +:+ b) "." = [a; b].
Proof.
  intros Ha Hb. unfold Split.
  change (a +:+ "." +:+ b) with (a +:+ String "." b).
  rewrite Split_piece by done. by rewrite Split_last.
Qed.

Lemma no_dot_format_d n : 0 <= n -> no_dot (format_d n) = true.
Proof.
  intros Hn. apply all_digits_no_dot. unfold format_d.
  destruct n as [| p | p]; [done | | lia].
  cbn [Z.to_int NilZero.string_of_int]. unfold NilZero.string_of_uint.
  destruct (Pos.to_uint p) eqn:E; [done | ..]; rewrite <- E;
    apply all_digits_string_of_uint.
Qed.

Lemma Split_render v :
  valid v ->
  Split (render v) "."
  = format_d (Spec.major v) :: format_d (Spec.minor v)
    :: match Spec.patch v with Some c => [format_d c] | None => [] end.
Proof.
  destruct v as [a b [c |]]; unfold valid, in_range, render; simpl;
    intros (Ha & Hb & Hc).
  - apply Split3; apply no_dot_format_d; lia.
  - apply Split2; apply no_dot_format_d; lia.
Qed.

Lemma render_inj v w : valid v -> valid w -> render v = render w -> v = w.
Proof.
  intros Hv Hw E. apply (f_equal (fun s => Split s ".")) in E.
  rewrite !Split_render in E by done.
  destruct v as [a b [c |]], w as [a' b' [c' |]];
    destruct Hv as (Ha & Hb & Hc), Hw as (Ha' & Hb' & Hc'); simpl in *;
    try discriminate E; injection E as E;
    repeat match goal with
    | H : format_d _ = format_d _ |- _ =>
        apply (f_equal Atoi) in H; rewrite !Atoi_format_d in H by done
    end; by subst.
Qed.

Lemma versionLess_loop_render v w :
  valid v -> valid w -> render v <> render w ->
  versionLess_loop 3 0 (Split (render v) ".") (Split (render w) ".")
  = absent_first_less v w.
Proof.
  intros Hv Hw Hne. rewrite !Split_render by done.
  destruct v as [a b pc], w as [a' b' pc'].
  destruct Hv as (Ha & Hb & Hc), Hw as (Ha' & Hb' & Hc'); simpl in *.
  cbn [versionLess_loop lookup list_lookup].
  rewrite !Atoi_format_d by done.
  unfold absent_first_less; simpl.
  destruct (Z.eqb_spec a a'); simpl; [| done].
  destruct (Z.eqb_spec b b'); simpl; [| done].
  destruct pc as [c |], pc' as [c' |]; simpl; try done.
  - rewrite !Atoi_format_d by done.
    destruct (Z.eqb_spec c c'); simpl; [| done]. subst. by destruct Hne.
  - subst. by destruct Hne.
Qed.

Lemma absent_first_less_irrefl v : absent_first_less v v = false.
Proof.
  unfold absent_first_less. rewrite !Z.eqb_refl. simpl.
  destruct (Spec.patch v); [apply Z.ltb_irrefl | done].
Qed.

Lemma versionLess_render v w :
  valid v -> valid w -> versionLess (render v) (render w) = absent_first_less v w.
Proof.
  intros Hv Hw. unfold versionLess.
  destruct (String.eqb_spec (render v) (render w)) as [E | Hne].
  - apply render_inj in E; [| done..]. subst w.
    by rewrite absent_first_less_irrefl.
  - by apply versionLess_loop_render.
Qed.

Lemma absent_first_less_full a b c a' b' c' :
  absent_first_less (full a b c) (full a' b' c') = Spec.less (full a b c) (full a' b' c').
Proof.
  unfold absent_first_less, Spec.less, Spec.Compare, Spec.triple; simpl.
  destruct (Z.eqb_spec a a'); simpl.
  - subst. rewrite Z.compare_refl.
    destruct (Z.eqb_spec b b'); simpl.
    + subst. rewrite Z.compare_refl. unfold Z.ltb. done.
    + unfold Z.ltb. destruct (Z.compare_spec b b'); done.
  - unfold Z.ltb. destruct (Z.compare_spec a a'); done.
Qed.

Lemma Spec_equal_full a b c a' b' c' :
  Spec.equal (full a b c) (full a' b' c') = true <-> full a b c = full a' b' c'.
Proof.
  unfold Spec.equal, Spec.Compare, Spec.triple; simpl. split.
  - destruct (Z.compare_spec a a'); try done.
    destruct (Z.compare_spec b b'); try done.
    destruct (Z.compare_spec c c'); try done. by subst.
  - intros [= -> -> ->]. by rewrite !Z.compare_refl.
Qed.

Lemma versionLess_same a : versionLess a a = false.
Proof. unfold versionLess. by rewrite String.eqb_refl. Qed.

Lemma verConstraintCheck_outcome a b op :
  op <> "~>" -> verConstraintCheck a b op = Spec.outcome (compare_texts a b) op.
Proof.
  intros Hop. unfold verConstraintCheck, Spec.outcome, compare_texts.
  destruct (String.eqb_spec a b) as [-> | Hab].
  - rewrite versionLess_same.
    repeat (destruct (String.eqb op _); [done |]).
    destruct (String.eqb_spec op "~>"); done.
  - repeat (destruct (String.eqb op _); [by destruct (versionLess a b) |]).
    destruct (String.eqb_spec op "~>"); done.
Qed.

Lemma compare_texts_full a b c a' b' c' :
  valid (full a b c) -> valid (full a' b' c') ->
  compare_texts (render (full a b c)) (render (full a' b' c'))
  = Spec.Compare (full a b c) (full a' b' c').
Proof.
  intros Hv Hw. unfold compare_texts.
  rewrite versionLess_render, absent_first_less_full by done.
  destruct (String.eqb_spec (render (full a b c)) (render (full a' b' c'))) as [E | Hne].
  - apply render_inj in E; [| done..]. injection E as -> -> ->.
    unfold Spec.Compare, Spec.triple; simpl. by rewrite !Z.compare_refl.
  - unfold Spec.less. destruct (Spec.Compare _ _) eqn:E; try done.
    destruct Hne. f_equal. apply Spec_equal_full. unfold Spec.equal. by rewrite E.
Qed.

(** Claim C3, as it is stated, fails on the code: the texts "1.2" and
    "1.2.0" denote the same triple (1, 2, 0) and compare equal in the
    specification, but [versionLess] puts "1.2" before "1.2.0". *)
Lemma versionLess_absent_patch_counterexample :
  Spec.Parse "1.2" = Some (short 1 2) /\
  Spec.Parse "1.2.0" = Some (full 1 2 0) /\
  Spec.Compare (short 1 2) (full 1 2 0) = Eq /\
  versionLess "1.2" "1.2.0" = true.
Proof. repeat split. Qed.

(** Claim C3, amended: on version texts in canonical decimal form
    [versionLess] is numeric-lexicographic over major and minor, and then
    over the patch, where a patch that is left out comes before every
    patch that is written; so on texts that both carry a patch it is the
    numeric order of the triples.  "10.0.0" is greater than "9.0.0", and
    "1.2" is less than "1.2.0". *)
Theorem versionLess_canonical v w :
  valid v -> valid w ->
  versionLess (render v) (render w) = absent_first_less v w /\
  (is_Some (Spec.patch v) -> is_Some (Spec.patch w) ->
   versionLess (render v) (render w) = Spec.less v w) /\
  versionLess "9.0.0" "10.0.0" = true /\ versionLess "10.0.0" "9.0.0" = false /\
  versionLess "1.2" "1.2.0" = true /\ versionLess "1.2.0" "1.2" = false.
Proof.
  intros Hv Hw. split; [by apply versionLess_render |].
  split; [| by repeat split].
  intros [c Hc] [c' Hc']. rewrite versionLess_render by done.
  destruct v as [a b pc], w as [a' b' pc']. simpl in Hc, Hc'. subst.
  apply absent_first_less_full.
Qed.

Lemma versionLess_canonical_witness :
  valid (full 9 0 0) /\ valid (full 10 0 0) /\
  versionLess (render (full 9 0 0)) (render (full 10 0 0))
  = Spec.less (full 9 0 0) (full 10 0 0).
Proof.
  assert (valid (full 9 0 0)) as Hv by (unfold valid, in_range; simpl; lia).
  assert (valid (full 10 0 0)) as Hw by (unfold valid, in_range; simpl; lia).
  split; [exact Hv |]. split; [exact Hw |].
  apply (versionLess_canonical (full 9 0 0) (full 10 0 0) Hv Hw); simpl; eauto.
Defined.

(** Claim C4, as it is stated, fails on the code: 1.2.0 and 1.2 are equal
    versions, for which the table of the specification answers "ok" to
    the operator "=", but [verConstraintCheck] answers "skip". *)
Lemma verConstraintCheck_equal_counterexample :
  Spec.Parse "1.2.0" = Some (full 1 2 0) /\
  Spec.Parse "1.2" = Some (short 1 2) /\
  Spec.Evaluate (full 1 2 0) (short 1 2) "=" = "ok" /\
  verConstraintCheck "1.2.0" "1.2" "=" = "skip".
Proof. repeat split. Qed.

(** Claim C4, amended: for every candidate text, bound text and operator
    other than "~>", [verConstraintCheck] returns the outcome table of the
    specification, where two versions are equal when their texts are the
    same and the candidate is less than the bound when [versionLess] says
    so; on canonical texts that carry all three numbers this is the table
    over the numeric comparison of the triples.  An operator outside the
    six known ones gives "invalid". *)
Theorem verConstraintCheck_table a b op :
  op <> "~>" ->
  verConstraintCheck a b op = Spec.outcome (compare_texts a b) op /\
  (forall v w, valid v -> valid w ->
     is_Some (Spec.patch v) -> is_Some (Spec.patch w) ->
     a = render v -> b = render w ->
     verConstraintCheck a b op = Spec.Evaluate v w op) /\
  (op <> "=" -> op <> ">" -> op <> "<" -> op <> ">=" -> op <> "<=" ->
   verConstraintCheck a b op = "invalid").
Proof.
  intros Hop. split; [by apply verConstraintCheck_outcome |]. split.
  - intros v w Hv Hw [c Hc] [c' Hc'] -> ->.
    rewrite verConstraintCheck_outcome by done.
    destruct v as [x y pc], w as [x' y' pc']. simpl in Hc, Hc'. subst.
    pose proof (compare_texts_full x y c x' y' c' Hv Hw) as E.
    unfold full in E. rewrite E.
    unfold Spec.Evaluate. by destruct (String.eqb_spec op "~>").
  - intros H1 H2 H3 H4 H5. rewrite verConstraintCheck_outcome by done.
    unfold Spec.outcome.
    repeat match goal with
    | |- context [String.eqb op ?s] => destruct (String.eqb_spec op s); [done |]
    end.
    done.
Qed.

Lemma verConstraintCheck_table_witness :
  ">=" <> "~>" /\
  verConstraintCheck "1.2.3" "1.0.0" ">="
  = Spec.outcome (compare_texts "1.2.3" "1.0.0") ">=".
Proof.
  assert (">=" <> "~>") as Hop by discriminate.
  split; [exact Hop |].
  apply (verConstraintCheck_table "1.2.3" "1.0.0" ">=" Hop).
Defined.

(** Claim C5, as it is stated, fails on the code: a request for
    "= 1.2.0" and an environment constraint "= 1.2" name the same version,
    so the merge of the specification takes the environment's constraint,
    but the code reports a conflict. *)
Lemma env_constraint_same_version_counterexample :
  Spec.Parse "1.2.0" = Some (full 1 2 0) /\
  Spec.Parse "1.2" = Some (short 1 2) /\
  Spec.Merge (Some ("=", full 1 2 0)) ("=", short 1 2) = Spec.TakeEnvironment /\
  env_constraint "foo" "= 1.2" {[ "foo" := ["= 1.2.0"] ]}
  = Err (ErrEnvConflict "= 1.2.0" "foo" "= 1.2").
Proof. repeat split. Qed.

(** Claim C5, amended: for a cookbook [k] of the run list, an empty
    request takes the constraint of the environment; otherwise a malformed
    environment constraint is an error, and else the decision is the one
    of the specification's merge, made on the texts of the two versions:
    the environment wins when the texts are the same; for ">" and ">=" it
    replaces the request exactly when the requested version is
    [versionLess] than the environment's, for "<" and "<=" exactly when it
    is not; for "=" with different texts, and for "~>" when the requested
    version does not pass the environment's constraint, the merge fails
    with a conflict. *)
Theorem env_constraint_merge k ec cd_list requested rest :
  cd_list !! k = Some (requested :: rest) ->
  env_constraint k ec cd_list =
    if String.eqb requested "" then Ok (<[k := [ec]]> cd_list)
    else
      match splitConstraint ec with
      | inr bad => Err (ErrMalformed bad)
      | inl (newop, newver) =>
          let orgver := requested_version requested in
          match Spec.decide_merge (compare_texts orgver newver)
                  (String.eqb (verConstraintCheck orgver newver "~>") "ok") newop with
          | Spec.TakeEnvironment => Ok (<[k := [ec]]> cd_list)
          | Spec.KeepRequested => Ok cd_list
          | Spec.Conflict => Err (ErrEnvConflict requested k ec)
          | Spec.Invalid => Err (ErrEnvImpossible ec k)
          end
      end.
Proof.
  intros Hk. unfold env_constraint. rewrite Hk.
  destruct (String.eqb requested ""); [done |].
  destruct (splitConstraint ec) as [[newop newver] | bad]; [| done].
  fold (requested_version requested). cbv zeta.
  unfold Spec.decide_merge, compare_texts.
  destruct (String.eqb_spec (requested_version requested) newver) as [E | Hne]; [done |].
  destruct (String.eqb newop ">" || String.eqb newop ">=");
    [by destruct (versionLess _ _) |].
  destruct (String.eqb newop "<" || String.eqb newop "<=");
    [by destruct (versionLess _ _) |].
  destruct (String.eqb newop "="); [by destruct (versionLess _ _) |].
  destruct (String.eqb_spec newop "~>") as [-> | ?].
  - by destruct (versionLess _ _), (String.eqb (verConstraintCheck _ _ _) "ok").
  - by destruct (versionLess _ _).
Qed.

Lemma env_constraint_merge_witness :
  ({[ "foo" := [">= 1.0.0"] ]} : gmap string (list string)) !! "foo"
  = Some [">= 1.0.0"] /\
  env_constraint "foo" ">= 2.0.0" {[ "foo" := [">= 1.0.0"] ]}
  = Ok {[ "foo" := [">= 2.0.0"] ]}.
Proof.
  assert (({[ "foo" := [">= 1.0.0"] ]} : gmap string (list string)) !! "foo"
          = Some [">= 1.0.0"]) as Hk by reflexivity.
  split; [exact Hk |].
  rewrite (env_constraint_merge "foo" ">= 2.0.0" _ ">= 1.0.0" [] Hk).
  vm_compute. reflexivity.
Defined.










Lemma ascending_Permutation keys : ascending keys ≡ₚ keys.
Proof. apply merge_sort_Permutation. Qed.


(** ** The frozen flag *)



Section Frozen.

Variable order : list string -> list string.
Variables ValidateAsString ValidateAsFieldString ValidateAsVersion
  ValidateCookbookMetadata ValidateAsBool : value -> value * option string.
Variable ValidateCookbookDivision : string -> value -> value * option string.




End Frozen.


(** ** The cache of the latest version *)

Section Cache.

Variable order : list string -> list string.

Lemma range_empty {A} : range order (∅ : gmap string A) = [].
Proof.
  unfold range. induction (order _) as [| k ks IH]; [done |].
  simpl. by rewrite lookup_empty.
Qed.

Lemma sortedVersions_New name : sortedVersions order (New name) = [].
Proof. unfold sortedVersions. simpl. by rewrite range_empty. Qed.

(** [NewVersion] does refresh the cache: after it has added a version,
    [latest] is the first of the sorted versions. *)
Lemma NewVersion_latest va vf vv vd vm vb cb_version cbv_data c cbv c' :
  NewVersion order va vf vv vd vm vb cb_version cbv_data c = (Ok cbv, c') ->
  latest c' = head (sortedVersions order c') /\
  Versions c' !! cb_version = Some cbv.
Proof.
  unfold NewVersion. destruct (GetVersion order cb_version c) as [[? | ? | |] c1]; try done.
  destruct (UpdateVersion _ _ _ _ _ _ _ _ _ _) as [[[] | ? | |] cbv1]; try done.
  unfold UpdateLatestVersion, LatestVersion. cbn [latest set_latest].
  set (c2 := set_latest _ None).
  assert (sortedVersions order c2
          = sortedVersions order
              {| cb_Name := cb_Name c1; Versions := <[cb_version := cbv1]> (Versions c1);
                 latest := latest c1; numVersions := None |}) as Es by done.
  destruct (sortedVersions order c2) as [| v vs] eqn:E; [done |].
  simpl. intros [= <- <-]. simpl.
  split; [| by rewrite lookup_insert_eq].
  unfold sortedVersions in *. simpl in *. by rewrite E.
Qed.

(** Claim C6, at its failing input: when the cache holds a version,
    [DeleteVersion] of that version removes it from [Versions], clears
    [numVersions] and leaves [latest] as it was, so that [LatestVersion]
    still returns the deleted version. *)
Theorem DeleteVersion_keeps_latest c cb_version cbv :
  cb_version <> "_latest" ->
  Versions c !! cb_version = Some cbv ->
  latest c = Some cbv ->
  exists c',
    DeleteVersion order cb_version c = (Ok tt, c') /\
    Versions c' !! cb_version = None /\
    numVersions c' = None /\
    LatestVersion order c' = (Ok cbv, c').
Proof.
  intros Hne Hv Hl. unfold DeleteVersion, GetVersion.
  destruct (String.eqb_spec cb_version "_latest") as [-> | _]; [done |].
  rewrite Hv. eexists. split; [reflexivity |]. simpl.
  split; [apply lookup_delete_eq |]. split; [done |].
  unfold LatestVersion. simpl. by rewrite Hl.
Qed.

(** Claim C7, at its failing input: on a cookbook without versions, as
    [New] makes it, [LatestConstrained] with the empty constraint panics,
    whereas with a well-formed constraint it returns nil. *)
Theorem LatestConstrained_no_versions name :
  LatestConstrained order (New name) "" = (Panic, New name) /\
  LatestConstrained order (New name) "= 1.0.0" = (Ok None, New name).
Proof.
  unfold LatestConstrained, LatestVersion. simpl.
  rewrite sortedVersions_New. done.
Qed.

End Cache.

Lemma DeleteVersion_keeps_latest_witness :
  "2.0.0" <> "_latest" /\
  Versions foo_cached !! "2.0.0" = Some foo_2_0_0 /\
  latest foo_cached = Some foo_2_0_0 /\
  exists c',
    DeleteVersion ascending "2.0.0" foo_cached = (Ok tt, c') /\
    Versions c' !! "2.0.0" = None /\
    numVersions c' = None /\
    LatestVersion ascending c' = (Ok foo_2_0_0, c').
Proof.
  assert ("2.0.0" <> "_latest") as Hne by discriminate.
  assert (Versions foo_cached !! "2.0.0" = Some foo_2_0_0) as Hv
    by (vm_compute; reflexivity).
  assert (latest foo_cached = Some foo_2_0_0) as Hl by reflexivity.
  repeat (split; [assumption |]).
  apply (DeleteVersion_keeps_latest ascending foo_cached "2.0.0" foo_2_0_0 Hne Hv Hl).
Defined.

(** ** Resolution: what it writes, and when it terminates *)

Section FrameProofs.
Variable order : list string -> list string.

Lemma sortedVersions_Versions c c' :
  Versions c' = Versions c -> sortedVersions order c' = sortedVersions order c.
Proof. unfold sortedVersions, range. by intros ->. Qed.

Lemma cache_filled_refl c : cache_filled order c c.
Proof. repeat split; auto. Qed.

Lemma cache_filled_trans c1 c2 c3 :
  cache_filled order c1 c2 -> cache_filled order c2 c3 -> cache_filled order c1 c3.
Proof.
  intros (Hn & Hv & Hc & Hl) (Hn' & Hv' & Hc' & Hl').
  repeat split; try congruence.
  destruct Hl' as [Hl' | (Hnone & v & Hhd & Hl')].
  - rewrite Hl'. exact Hl.
  - destruct Hl as [Hl | (Hnone1 & v1 & _ & Hl)]; [| congruence].
    right. split; [congruence |]. exists v. split; [| done].
    by rewrite <- (sortedVersions_Versions c1 c2).
Qed.

Lemma caches_filled_refl st : caches_filled order st st.
Proof.
  intros p. destruct (st !! p); constructor. apply cache_filled_refl.
Qed.

Lemma caches_filled_trans st1 st2 st3 :
  caches_filled order st1 st2 -> caches_filled order st2 st3 ->
  caches_filled order st1 st3.
Proof.
  intros H12 H23 p. specialize (H12 p). specialize (H23 p).
  destruct H12; inversion H23; subst; constructor.
  by eapply cache_filled_trans.
Qed.

Lemma caches_filled_insert st p c c' :
  st !! p = Some c -> cache_filled order c c' ->
  caches_filled order st (<[p := c']> st).
Proof.
  intros Hp Hc q. destruct (decide (p = q)) as [<- | Hne].
  - rewrite lookup_insert_eq, Hp. by constructor.
  - rewrite lookup_insert_ne by done. apply caches_filled_refl.
Qed.

Lemma caches_filled_insert_both st1 st2 p c1 c2 :
  caches_filled order st1 st2 -> cache_filled order c1 c2 ->
  caches_filled order (<[p := c1]> st1) (<[p := c2]> st2).
Proof.
  intros Hst Hc q. destruct (decide (p = q)) as [<- | Hne].
  - rewrite !lookup_insert_eq. by constructor.
  - rewrite !lookup_insert_ne by done. apply Hst.
Qed.

Lemma fills_cache_LatestVersion : fills_cache order (LatestVersion order).
Proof.
  split.
  - intros c. unfold LatestVersion.
    destruct (latest c) eqn:El; [apply cache_filled_refl |].
    destruct (sortedVersions order c) as [| v vs] eqn:Es; [apply cache_filled_refl |].
    repeat split; simpl; auto. right. split; [done |]. exists v. by rewrite Es.
  - intros c1 c2 (Hn & Hv & Hc & Hl). unfold LatestVersion.
    rewrite (sortedVersions_Versions c1 c2 Hv).
    destruct Hl as [Hl | (Hnone & v & Hhd & Hl)].
    + rewrite Hl. destruct (latest c1) eqn:El.
      * split; [done |]. repeat split; simpl; auto. left; congruence.
      * destruct (sortedVersions order c1) as [| v vs]; simpl;
          (split; [done |]); repeat split; simpl; auto; left; congruence.
    + rewrite Hl, Hnone. destruct (sortedVersions order c1) as [| v' vs]; [done |].
      injection Hhd as ->. simpl. split; [done |].
      repeat split; simpl; auto.
Qed.

Lemma fills_cache_pure {A} (g : Cookbook -> A) :
  (forall c1 c2, cache_filled order c1 c2 -> g c1 = g c2) ->
  fills_cache order (fun c => (Ok (g c), c)).
Proof.
  intros Hg. split.
  - intros c. apply cache_filled_refl.
  - intros c1 c2 H. simpl. split; [| done]. f_equal. by apply Hg.
Qed.

Lemma fills_cache_LatestConstrained constraint :
  fills_cache order (fun c => LatestConstrained order c constraint).
Proof.
  destruct fills_cache_LatestVersion as [Hext Hst].
  unfold LatestConstrained. split.
  - intros c. destruct (String.eqb constraint "").
    + specialize (Hext c). by destruct (LatestVersion order c).
    + destruct (Split constraint " ") as [| ? [| ? [| ? ?]]]; apply cache_filled_refl.
  - intros c1 c2 H. destruct (String.eqb constraint "").
    + specialize (Hst c1 c2 H).
      destruct (LatestVersion order c1), (LatestVersion order c2).
      simpl in *. destruct Hst as [-> ?]. done.
    + destruct H as (Hn & Hv & Hc & Hl).
      rewrite (sortedVersions_Versions c1 c2 Hv).
      destruct (Split constraint " ") as [| ? [| ? [| ? ?]]]; simpl;
        (split; [done |]); repeat split; auto.
Qed.

Lemma fills_caches_ret {A} (a : A) : fills_caches order (ret a).
Proof. split; [intros st; apply caches_filled_refl | intros st1 st2 H; by split]. Qed.
Lemma fills_caches_fail {A} e : fills_caches order (@fail _ A e).
Proof. split; [intros st; apply caches_filled_refl | intros st1 st2 H; by split]. Qed.
Lemma fills_caches_panic {A} : fills_caches order (@panic _ A).
Proof. split; [intros st; apply caches_filled_refl | intros st1 st2 H; by split]. Qed.
Lemma fills_caches_of_res {A} (r : res A) : fills_caches order (of_res r).
Proof. split; [intros st; apply caches_filled_refl | intros st1 st2 H; by split]. Qed.
Lemma fills_caches_out_of_fuel {A} :
  fills_caches order (fun st => (@OutOfFuel A, st)).
Proof. split; [intros st; apply caches_filled_refl | intros st1 st2 H; by split]. Qed.

Lemma fills_caches_bind {A B} (m : M A) (k : A -> M B) :
  fills_caches order m -> (forall a, fills_caches order (k a)) ->
  fills_caches order (bind m k).
Proof.
  intros [Hext Hst] Hk. split.
  - intros st. unfold bind. specialize (Hext st).
    destruct (m st) as [[a | e | |] st']; simpl in *; try done.
    eapply caches_filled_trans; [exact Hext |]. apply Hk.
  - intros st1 st2 H. unfold bind. specialize (Hst st1 st2 H).
    destruct (m st1) as [r1 st1'], (m st2) as [r2 st2']. simpl in Hst.
    destruct Hst as [-> Hst]. destruct r2 as [a | e | |]; try done.
    by apply Hk.
Qed.

Lemma fills_caches_Get name : fills_caches order (Get name).
Proof.
  split.
  - intros st. unfold Get. destruct (st !! name); apply caches_filled_refl.
  - intros st1 st2 H. unfold Get. specialize (H name) as Hn.
    destruct Hn; simpl; by split.
Qed.

Lemma fills_caches_at_cookbook {A} p (f : ST Cookbook A) :
  fills_cache order f -> fills_caches order (at_cookbook p f).
Proof.
  intros [Hext Hst]. split.
  - intros st. unfold at_cookbook. destruct (st !! p) as [c |] eqn:Ep;
      [| apply caches_filled_refl].
    specialize (Hext c). destruct (f c) as [r c']. simpl in *.
    by eapply caches_filled_insert.
  - intros st1 st2 H. unfold at_cookbook. specialize (H p) as Hp.
    destruct Hp as [c1 c2 Hc |]; [| by split].
    specialize (Hst c1 c2 Hc). destruct (f c1) as [r1 c1'], (f c2) as [r2 c2'].
    simpl in *. destruct Hst as [-> Hst]. split; [done |].
    by apply caches_filled_insert_both.
Qed.

Ltac fills_step :=
  first
    [ apply fills_caches_ret | apply fills_caches_fail | apply fills_caches_panic
    | apply fills_caches_of_res | apply fills_caches_Get
    | apply fills_caches_out_of_fuel
    | apply fills_caches_at_cookbook;
        first [ apply fills_cache_LatestConstrained
              | apply fills_cache_pure ]
    | apply fills_caches_bind; [| intros ?]
    | match goal with
      | |- fills_caches _ (match ?x with _ => _ end) => destruct x
      end ].

Lemma fills_caches_resolveDependencies_loop rec cbv deps :
  (forall v cd, fills_caches order (rec v cd)) ->
  forall cd_list, fills_caches order (resolveDependencies_loop order rec cbv deps cd_list).
Proof.
  intros Hrec. induction deps as [| [r c2] rest IH]; intros cd_list; simpl.
  - fills_step.
  - repeat first [apply Hrec | apply IH | fills_step].
Qed.

Lemma fills_caches_resolveDependencies fuel :
  forall cbv cd_list, fills_caches order (resolveDependencies order fuel cbv cd_list).
Proof.
  induction fuel as [| fuel IH]; intros cbv cd_list; simpl.
  - fills_step.
  - repeat first [apply fills_caches_resolveDependencies_loop; exact IH | fills_step].
Qed.

Lemma fills_caches_needed_loop fuel names :
  forall cd_list, fills_caches order (needed_loop order fuel names cd_list).
Proof.
  induction names as [| n rest IH]; intros cd_list; simpl.
  - fills_step.
  - repeat first [apply fills_caches_resolveDependencies | apply IH | fills_step].
    intros c1 c2 (Hn & _). by symmetry.
Qed.

Lemma fills_caches_deps_loop entries :
  forall deps, fills_caches order (deps_loop order entries deps).
Proof.
  induction entries as [| [cname traints] rest IH]; intros deps; simpl.
  - fills_step.
  - repeat first [apply IH | fills_step].
    intros c1 c2 (_ & Hv & _). symmetry. by apply sortedVersions_Versions.
Qed.

Lemma fills_caches_DependsCookbooks fuel run_list env :
  fills_caches order (DependsCookbooks order fuel run_list env).
Proof.
  unfold DependsCookbooks. destruct (run_list_loop run_list ∅) as [cd_list ref].
  repeat first [apply fills_caches_needed_loop | apply fills_caches_deps_loop | fills_step].
Qed.

(** Claim C8, amended: for a given order of visiting the maps, resolution
    leaves every cookbook of the store with its name, its versions and its
    count as they were; the only thing it writes is a [latest] that was nil
    and is filled with the first of the sorted versions.  Resolving again
    from the store it leaves returns the same result. *)
Theorem DependsCookbooks_frame fuel run_list env st :
  caches_filled order st (DependsCookbooks order fuel run_list env st).2 /\
  (DependsCookbooks order fuel run_list env
     (DependsCookbooks order fuel run_list env st).2).1
  = (DependsCookbooks order fuel run_list env st).1.
Proof.
  destruct (fills_caches_DependsCookbooks fuel run_list env) as [Hext Hst].
  split; [apply Hext |]. symmetry. apply Hst, Hext.
Qed.

(** *** Termination *)

Lemma elem_of_sortedVersions c v :
  v ∈ sortedVersions order c -> exists k, Versions c !! k = Some v.
Proof.
  unfold sortedVersions. intros (k & _ & Hk)%list_elem_of_omap. eauto.
Qed.

Lemma elem_of_versions_of c v :
  v ∈ versions_of c <-> (exists k, Versions c !! k = Some v) \/ latest c = Some v.
Proof.
  unfold versions_of. rewrite elem_of_app, list_elem_of_fmap. split.
  - intros [([k v'] & -> & Hkv%elem_of_map_to_list) | Hl]; [left; eauto |].
    right. destruct (latest c); [| by apply elem_of_nil in Hl].
    apply list_elem_of_singleton in Hl. by subst.
  - intros [[k Hk] | Hl].
    + left. exists (k, v). split; [done |]. by apply elem_of_map_to_list.
    + right. rewrite Hl. apply list_elem_of_singleton. done.
Qed.

Lemma versions_of_cache_filled c c' v :
  cache_filled order c c' -> v ∈ versions_of c <-> v ∈ versions_of c'.
Proof.
  intros (_ & Hv & _ & Hl). rewrite !elem_of_versions_of, Hv. split.
  - intros [Hk | Hlat]; [by left |].
    right. destruct Hl as [-> | [Hnone _]]; congruence.
  - intros [Hk | Hlat]; [by left |].
    destruct Hl as [Hl | (Hnone & w & Hhd & Hl)]; [right; congruence |].
    left. apply elem_of_sortedVersions.
    assert (w = v) as -> by congruence.
    destruct (sortedVersions order c); [done |]. injection Hhd as ->. left.
Qed.

Lemma LatestVersion_version c v c' :
  LatestVersion order c = (Ok v, c') -> v ∈ versions_of c'.
Proof.
  unfold LatestVersion. intros H. apply elem_of_versions_of.
  destruct (latest c) eqn:El.
  - injection H as -> ->. by right.
  - destruct (sortedVersions order c) eqn:Es; [done |].
    injection H as -> <-. by right.
Qed.

Lemma LatestConstrained_scan_elem vs cv co v :
  LatestConstrained_scan vs cv co = Some v -> v ∈ vs.
Proof.
  induction vs as [| w vs IH]; simpl; [done |].
  destruct (String.eqb _ "ok").
  - intros [= ->]. left.
  - intros H. right. auto.
Qed.

Lemma LatestConstrained_version c constraint v c' :
  LatestConstrained order c constraint = (Ok (Some v), c') -> v ∈ versions_of c'.
Proof.
  unfold LatestConstrained. destruct (String.eqb constraint "").
  - destruct (LatestVersion order c) as [r c1] eqn:E.
    destruct r; simpl; intros [= -> ->]. by eapply LatestVersion_version.
  - destruct (Split constraint " ") as [| ? [| ? [| ? ?]]]; intros [= H ->]; try done.
    apply LatestConstrained_scan_elem, elem_of_sortedVersions in H.
    apply elem_of_versions_of. by left.
Qed.

Lemma LatestConstrained_result c constraint :
  (LatestConstrained order c constraint).1 <> OutOfFuel.
Proof.
  unfold LatestConstrained. destruct (String.eqb constraint "").
  - unfold LatestVersion. destruct (latest c); [done |].
    by destruct (sortedVersions order c).
  - by destruct (Split constraint " ") as [| ? [| ? [| ? ?]]].
Qed.

Lemma declares_iff st p q :
  declares st p q <->
  exists c v, st !! p = Some c /\ v ∈ versions_of c /\ q ∈ dep_names v.
Proof.
  unfold declares, dep_pairs. rewrite list_elem_of_bind. split.
  - intros ([p' c] & H & Hpc%elem_of_map_to_list). simpl in H.
    apply list_elem_of_bind in H as (v & H & Hv).
    apply list_elem_of_bind in H as (q' & H & Hq).
    apply list_elem_of_singleton in H. injection H as -> ->. eauto.
  - intros (c & v & Hc & Hv & Hq). exists (p, c). split.
    + simpl. apply list_elem_of_bind. exists v. split; [| done].
      apply list_elem_of_bind. exists q. split; [| done].
      by apply list_elem_of_singleton.
    + by apply elem_of_map_to_list.
Qed.

Lemma declares_caches_filled st st' p q :
  caches_filled order st st' -> declares st' p q -> declares st p q.
Proof.
  intros H. rewrite !declares_iff. intros (c' & v & Hc & Hv & Hq).
  specialize (H p). rewrite Hc in H. inversion H as [c c'' Hcc E1 E2 |]; subst.
  exists c, v. split; [done |]. split; [| done].
  by eapply versions_of_cache_filled.
Qed.

Lemma elem_of_range {A} (m : gmap string A) k x :
  (k, x) ∈ range order m -> m !! k = Some x.
Proof.
  unfold range. intros (k' & _ & H)%list_elem_of_omap.
  destruct (m !! k') eqn:E; simpl in H; [| done]. by injection H as -> ->.
Qed.

Lemma tc_declares_target st x y :
  tc (declares st) x y -> y ∈ (dep_pairs st).*2.
Proof.
  induction 1 as [x y H | x y z _ _ IH]; [| done].
  apply list_elem_of_fmap. by exists (x, y).
Qed.

Lemma acyclic_sn st p : acyclic st -> sn (declares st) p.
Proof.
  intros Hacyc. apply tc_finite_sn; [exact Hacyc |].
  exists (dep_pairs st).*2. intros y. apply tc_declares_target.
Qed.

Lemma hoare_ret {A} P (a : A) (Q : A -> _ -> Prop) :
  (forall st, P st -> Q a st) -> hoare P (ret a) Q.
Proof. intros H st HP. split; [done |]. intros a' [= <-]. by apply H. Qed.

Lemma hoare_fail {A} P e (Q : A -> _ -> Prop) : hoare P (fail e) Q.
Proof. intros st HP. by split. Qed.

Lemma hoare_panic {A} P (Q : A -> _ -> Prop) : hoare P panic Q.
Proof. intros st HP. by split. Qed.

Lemma hoare_of_res {A} P (r : res A) (Q : A -> _ -> Prop) :
  r <> OutOfFuel -> (forall a st, r = Ok a -> P st -> Q a st) -> hoare P (of_res r) Q.
Proof. intros Hr H st HP. split; [done |]. intros a Ha. by apply H. Qed.

Lemma hoare_bind {A B} P (m : M A) Q (k : A -> M B) R :
  hoare P m Q -> (forall a, hoare (Q a) (k a) R) -> hoare P (bind m k) R.
Proof.
  intros Hm Hk st HP. specialize (Hm st HP) as [Hne HQ]. unfold bind.
  destruct (m st) as [[a | e | |] st'] eqn:E; simpl in *; try done.
  apply Hk. by apply HQ.
Qed.

Section Fixed.
Variable st0 : gmap string Cookbook.

Local Abbreviation inv := (reached order st0).

Lemma hoare_LatestConstrained p constraint :
  hoare inv (at_cookbook p (fun cb => LatestConstrained order cb constraint))
    (fun o st => inv st /\
       forall v, o = Some v -> exists c, st !! p = Some c /\ v ∈ versions_of c).
Proof.
  intros st Hinv. unfold at_cookbook.
  destruct (st !! p) as [c |] eqn:Ep; [| by split].
  pose proof (LatestConstrained_result c constraint) as Hne.
  pose proof (proj1 (fills_cache_LatestConstrained constraint) c) as Hfill.
  destruct (LatestConstrained order c constraint) as [r c'] eqn:E. simpl in *.
  split; [done |]. intros o ->. split.
  - eapply caches_filled_trans; [exact Hinv |]. by eapply caches_filled_insert.
  - intros v ->. exists c'. rewrite lookup_insert_eq. split; [done |].
    by eapply LatestConstrained_version.
Qed.

Lemma enough_mono n n' p : (n <= n')%nat -> enough order st0 n p -> enough order st0 n' p.
Proof. intros Hn H fuel Hf. apply H. lia. Qed.

Lemma check_constraints_result cbv deb c cs :
  check_constraints cbv deb c cs <> OutOfFuel.
Proof.
  induction cs as [| dcon cs IH]; simpl; [done |].
  destruct (negb (String.eqb dcon "")); [| done].
  destruct (splitConstraint dcon) as [[op ver] | bad]; [| done].
  by destruct (negb _).
Qed.

Lemma hoare_Get_bind {B} P name (k : string -> M B) R :
  hoare P (k name) R -> hoare P (bind (Get name) k) R.
Proof.
  intros H st HP. unfold bind, Get. destruct (st !! name); [by apply H | by split].
Qed.

Lemma hoare_loop n fuel cbv deps :
  (n <= fuel)%nat ->
  (forall r c2, (r, c2) ∈ deps -> enough order st0 n r) ->
  forall cd,
    hoare inv (resolveDependencies_loop order (resolveDependencies order fuel) cbv deps cd)
      (fun _ st => inv st).
Proof.
  intros Hfuel. induction deps as [| [r c2] rest IH]; intros Hen cd; simpl.
  - by apply hoare_ret.
  - destruct c2; try apply hoare_panic.
    apply hoare_Get_bind.
    eapply hoare_bind; [apply (hoare_LatestConstrained r) |].
    intros [deb |]; [| apply hoare_fail].
    eapply hoare_bind with
      (Q := fun _ st => inv st /\
              exists c, st !! r = Some c /\ deb ∈ versions_of c).
    + destruct (cd !! r) as [constraints |].
      * eapply hoare_bind with (Q := fun _ st => inv st /\
              exists c, st !! r = Some c /\ deb ∈ versions_of c).
        -- apply hoare_of_res; [apply check_constraints_result |].
           intros _ st _ [Hinv Hv]. split; [done |]. by apply Hv.
        -- intros _. by apply hoare_ret.
      * apply hoare_ret. intros st [Hinv Hv]. split; [done |]. by apply Hv.
    + intros cd'. eapply hoare_bind with (Q := fun _ st => inv st).
      * intros st (Hinv & c & Hc & Hdeb).
        apply (Hen r (VString s) ltac:(left) fuel Hfuel c deb cd' st). done.
      * intros cd''. apply IH. intros r' c' Hin. apply (Hen r' c'). by right.
Qed.

Lemma enough_step n p :
  (forall q, declares st0 p q -> enough order st0 n q) -> enough order st0 (S n) p.
Proof.
  intros Hq fuel Hfuel c v cd. destruct fuel as [| fuel]; [lia |].
  simpl. destruct (Metadata v !! "dependencies") as [[| ? | ? | ? | ? | dep_list | ?] |] eqn:Em;
    try apply hoare_panic.
  intros st (Hinv & Hc & Hv).
  apply (hoare_loop n fuel v (range order dep_list)); [lia | | done].
  intros r c2 Hin%elem_of_range. apply Hq.
  apply (declares_caches_filled _ st); [done |].
  apply declares_iff. exists c, v. split; [done |]. split; [done |].
  unfold dep_names. rewrite Em. apply list_elem_of_fmap.
  exists (r, c2). split; [done |]. by apply elem_of_map_to_list.
Qed.

Lemma enough_choice (P : string -> Prop) (l : list string) :
  (forall q, q ∈ l -> P q -> exists n, enough order st0 n q) ->
  (forall q, Decision (P q)) ->
  exists n, forall q, q ∈ l -> P q -> enough order st0 n q.
Proof.
  intros H Hdec. induction l as [| x l IH].
  - exists 0%nat. intros q Hq. by apply elem_of_nil in Hq.
  - destruct IH as [n Hn]; [intros q Hq; apply H; by right |].
    destruct (decide (P x)) as [Hx | Hx].
    + destruct (H x ltac:(left) Hx) as [m Hm].
      exists (n `max` m)%nat. intros q Hq HP.
      apply elem_of_cons in Hq as [-> | Hq].
      * eapply enough_mono; [| exact Hm]. lia.
      * eapply enough_mono; [| by apply Hn]. lia.
    + exists n. intros q Hq HP.
      apply elem_of_cons in Hq as [-> | Hq]; [done | by apply Hn].
Qed.

Lemma declares_target p q : declares st0 p q -> q ∈ (dep_pairs st0).*2.
Proof. intros H. apply list_elem_of_fmap. by exists (p, q). Qed.

Lemma enough_exists p : acyclic st0 -> exists n, enough order st0 n p.
Proof.
  intros Hacyc. induction (acyclic_sn st0 p Hacyc) as [p _ IH].
  destruct (enough_choice (declares st0 p) (dep_pairs st0).*2) as [n Hn].
  - intros q _ Hq. by apply IH.
  - intros q. unfold declares. apply _.
  - exists (S n). apply enough_step. intros q Hq. apply Hn; [| done].
    by eapply declares_target.
Qed.

Lemma hoare_needed_loop n fuel names :
  (n <= fuel)%nat -> (forall p, p ∈ names -> enough order st0 n p) ->
  forall cd, hoare inv (needed_loop order fuel names cd) (fun _ st => inv st).
Proof.
  intros Hfuel. induction names as [| name rest IH]; intros Hen cd; simpl.
  - by apply hoare_ret.
  - apply hoare_Get_bind.
    destruct (default [] (cd !! name)) as [| constraint ?]; [apply hoare_panic |].
    eapply hoare_bind; [apply (hoare_LatestConstrained name) |].
    intros [cbv |].
    + eapply hoare_bind with (Q := fun _ st => inv st).
      * intros st (Hinv & Hv). destruct (Hv cbv eq_refl) as (c & Hc & Hcbv).
        apply (Hen name ltac:(left) fuel Hfuel c cbv cd st). done.
      * intros cd'. apply IH. intros p Hp. apply Hen. by right.
    + eapply hoare_bind with (Q := fun _ _ => True); [| intros ?; apply hoare_fail].
      intros st _. unfold at_cookbook. destruct (st !! name); by split.
Qed.

Lemma env_constraints_loop_result entries cd :
  env_constraints_loop entries cd <> OutOfFuel.
Proof.
  revert cd. induction entries as [| [k ec] rest IH]; intros cd; simpl; [done |].
  destruct (env_constraint k ec cd) as [cd' | e | |] eqn:E; try done.
  unfold env_constraint in E.
  repeat match type of E with
  | context [match ?x with _ => _ end] => destruct x; try done
  end.
Qed.

Lemma deps_loop_result entries deps st :
  (deps_loop order entries deps st).1 <> OutOfFuel.
Proof.
  revert deps st. induction entries as [| [cname traints] rest IH]; intros deps st;
    simpl; [done |].
  unfold bind, Get. destruct (st !! cname) as [c |] eqn:Ec; [| done].
  unfold at_cookbook. rewrite Ec. simpl.
  unfold of_res, versions_loop.
  destruct (sortedVersions order c) as [| cv ?]; [done |].
  destruct (Vers_loop cv traints); [done |]. apply IH.
Qed.

Lemma DependsCookbooks_enough n fuel run_list env :
  (n <= fuel)%nat -> (forall p, p ∈ (run_list_loop run_list ∅).2 -> enough order st0 n p) ->
  (DependsCookbooks order fuel run_list env st0).1 <> OutOfFuel.
Proof.
  intros Hfuel Hen. unfold DependsCookbooks.
  destruct (run_list_loop run_list ∅) as [cd_list ref].
  assert (hoare inv
    (bind (of_res (env_constraints_loop (range order env) cd_list))
       (fun cd => bind (needed_loop order fuel ref cd)
                    (fun cd => deps_loop order (range order cd) ∅)))
    (fun _ _ => True)) as H.
  { eapply hoare_bind with (Q := fun _ st => inv st).
    - apply hoare_of_res; [apply env_constraints_loop_result | done].
    - intros cd. eapply hoare_bind; [by apply (hoare_needed_loop n) |].
      intros cd' st _. split; [apply deps_loop_result | done]. }
  apply H. apply caches_filled_refl.
Qed.
End Fixed.

(** Claim C10: when the declared dependencies of the store are acyclic,
    resolution terminates: there is an amount of fuel from which
    [DependsCookbooks] never runs out of it, for every run list and every
    table of environment constraints.  The recursion of
    [resolveDependencies] enters the chosen version of every declared
    dependency, also of a cookbook that is in the table already, so the
    bound comes from the depth of the dependency graph alone. *)
Theorem resolution_terminates st run_list env :
  acyclic st ->
  exists fuel, forall fuel', (fuel <= fuel')%nat ->
    (DependsCookbooks order fuel' run_list env st).1 <> OutOfFuel.
Proof.
  intros Hacyc.
  destruct (enough_choice st (fun _ => True) (run_list_loop run_list ∅).2) as [n Hn].
  - intros q _ _. by apply enough_exists.
  - intros q. apply _.
  - exists n. intros fuel Hfuel.
    apply (DependsCookbooks_enough st n); [done |]. intros p Hp. by apply Hn.
Qed.
End FrameProofs.

(** Claim C8, as it is stated, fails on the code.  In [abc_store] the
    version of a depends on b and on c, and c depends on b = 1.0.0.  When
    the dependencies of a are visited as b, c the resolution succeeds;
    when they are visited as c, b the same run list on the same store
    fails with a conflict.  The successful resolution has also written the
    cache of a. *)
Lemma DependsCookbooks_order_counterexample :
  (exists deps, (DependsCookbooks ascending 3 ["a"] ∅ abc_store).1 = Ok deps) /\
  (DependsCookbooks descending 3 ["a"] ∅ abc_store).1
  = Err (ErrDepConflict "a" "1.0.0" "b" "" "= 1.0.0") /\
  latest <$> abc_store !! "a" = Some None /\
  latest <$> (DependsCookbooks ascending 3 ["a"] ∅ abc_store).2 !! "a"
  = Some (Some (example_version "a" "1.0.0" [("b", ""); ("c", "")])).
Proof.
  split; [eexists; vm_compute; reflexivity |].
  repeat split; vm_compute; reflexivity.
Qed.

(** The last loop of [DependsCookbooks] picks the first of the sorted
    versions whenever it picks one: the constraints do not take part. *)
Lemma versions_loop_first sorted traints cv :
  versions_loop sorted traints = Ok (Some cv) -> head sorted = Some cv.
Proof.
  unfold versions_loop. destruct sorted as [| v vs]; [done |].
  destruct (Vers_loop v traints); [done |]. by intros [= ->].
Qed.

(** Claim C1, at its failing input: the run list asks for foo at 1.0.0,
    foo has the versions 1.0.0, 1.2.0 and 2.0.0 and the table holds
    "= 1.0.0" for foo, but the result of [DependsCookbooks] carries version
    2.0.0 of foo; no error is raised either when no version satisfies the
    table, as for the constraint "= 9.9.9" put against the sorted versions
    of foo. *)
Theorem DependsCookbooks_ignores_constraints :
  (run_list_loop ["foo@1.0.0"] ∅).1 !! "foo" = Some ["= 1.0.0"] /\
  res_map (fun deps => chosen_version deps "foo")
    (DependsCookbooks ascending 1 ["foo@1.0.0"] ∅ foo_store).1
  = Ok (Some (VString "2.0.0")) /\
  versions_loop (sortedVersions ascending foo) ["= 9.9.9"] = Ok (Some foo_2_0_0).
Proof. repeat split; vm_compute; reflexivity. Qed.

(** A numbering that falls along every declared dependency shows that the
    dependencies are acyclic. *)
Lemma ranked_acyclic rank st : ranked rank st = true -> acyclic st.
Proof.
  intros Hr. unfold ranked in Hr. rewrite forallb_forall in Hr.
  assert (forall p q, tc (declares st) p q -> (rank q < rank p)%nat) as Htc.
  { induction 1 as [p q H | p q r H _ IH].
    - apply list_elem_of_In, Hr, Nat.ltb_lt in H. exact H.
    - apply list_elem_of_In, Hr, Nat.ltb_lt in H. simpl in H. lia. }
  intros p Hp. apply Htc in Hp. lia.
Qed.

Lemma resolution_terminates_witness :
  acyclic abc_store /\
  exists fuel, forall fuel', (fuel <= fuel')%nat ->
    (DependsCookbooks ascending fuel' ["a"] ∅ abc_store).1 <> OutOfFuel.
Proof.
  assert (acyclic abc_store) as Hacyc
    by (apply (ranked_acyclic abc_rank); vm_compute; reflexivity).
  split; [exact Hacyc |].
  apply (resolution_terminates ascending abc_store ["a"] ∅ Hacyc).
Defined.

Lemma self_step rec cbv cd :
  cd !! "a" = Some [""] ->
  resolveDependencies_loop ascending rec cbv [("a", VString "")] cd self_store
  = bind (rec self_version cd) (fun cd' => ret cd') self_store.
Proof.
  intros Hcd. cbn [resolveDependencies_loop]. unfold bind at 1. unfold Get.
  change (self_store !! "a") with (Some self_cookbook). cbv iota beta.
  unfold bind at 1. unfold at_cookbook.
  change (self_store !! "a") with (Some self_cookbook). cbv iota beta.
  change (LatestConstrained ascending self_cookbook "") with (Ok (Some self_version), self_cookbook).
  cbv iota beta.
  replace (<["a" := self_cookbook]> self_store) with self_store
    by (symmetry; by apply insert_id).
  rewrite Hcd. unfold bind at 1. unfold bind at 1. simpl. reflexivity.
Qed.

Lemma self_diverges fuel : forall cd,
  cd !! "a" = Some [""] ->
  resolveDependencies ascending fuel self_version cd self_store = (OutOfFuel, self_store).
Proof.
  induction fuel as [| fuel IH]; intros cd Hcd; [done |].
  cbn [resolveDependencies].
  change (Metadata self_version !! "dependencies")
    with (Some (VMap ({[ "a" := VString "" ]} : gmap string value))).
  cbv iota beta.
  change (range ascending ({[ "a" := VString "" ]} : gmap string value))
    with [("a", VString "")].
  rewrite self_step by done. unfold bind. by rewrite IH.
Qed.

(** Without acyclicity no fuel is enough: a version that depends on its
    own cookbook sends [resolveDependencies] round for ever. *)
Lemma DependsCookbooks_cycle fuel :
  (DependsCookbooks ascending fuel ["a"] ∅ self_store).1 = OutOfFuel.
Proof.
  unfold DependsCookbooks.
  change (run_list_loop ["a"] ∅) with (({[ "a" := [""] ]} : gmap string (list string)), ["a"]).
  cbv iota beta. change (range ascending (∅ : gmap string string)) with (@nil (string * string)).
  cbn [env_constraints_loop]. unfold bind at 1. unfold of_res. cbv iota beta.
  unfold bind at 1. cbn [needed_loop]. unfold bind at 1. unfold Get.
  change (self_store !! "a") with (Some self_cookbook). cbv iota beta.
  change (default [] (({[ "a" := [""] ]} : gmap string (list string)) !! "a")) with [""].
  cbv iota beta. unfold bind at 1. unfold at_cookbook.
  change (self_store !! "a") with (Some self_cookbook). cbv iota beta.
  change (LatestConstrained ascending self_cookbook "") with (Ok (Some self_version), self_cookbook).
  cbv iota beta.
  replace (<["a" := self_cookbook]> self_store) with self_store
    by (symmetry; by apply insert_id).
  unfold bind at 1. by rewrite self_diverges.
Qed.

(** * Further properties of the code *)
(** ** Splitting at one byte *)

Lemma append_cons c s t : String c s +:+ t = String c (s +:+ t).
Proof. reflexivity. Qed.

Lemma append_nil_l t : "" +:+ t = t.
Proof. reflexivity. Qed.

Lemma append_assoc_s s : forall t u, (s +:+ t) +:+ u = s +:+ (t +:+ u).
Proof.
  induction s as [| c s IH]; intros t u; [done |].
  rewrite !append_cons. by rewrite IH.
Qed.

Lemma rev_app_append s : forall t, String.rev_app s t = String.rev s +:+ t.
Proof.
  unfold String.rev. induction s as [| c s IH]; intros t; simpl; [done |].
  rewrite IH, (IH (String c "")), append_assoc_s. done.
Qed.

Lemma no_char_append c s t :
  no_char c (s +:+ t) = no_char c s && no_char c t.
Proof.
  induction s as [| a s IH]; [done |]. rewrite append_cons. simpl.
  rewrite IH. by rewrite andb_assoc.
Qed.

Lemma no_char_rev_app c s : forall t,
  no_char c (String.rev_app s t) = no_char c s && no_char c t.
Proof.
  induction s as [| a s IH]; intros t; simpl; [done |].
  rewrite IH. simpl. destruct (negb (Ascii.eqb a c)), (no_char c s); simpl; auto.
Qed.

Lemma Split_scan_skip c s : forall cur t,
  no_char c s = true ->
  Split_scan (String c "") 0 cur (s +:+ t)
  = Split_scan (String c "") 0 (String.rev_app s cur) t.
Proof.
  induction s as [| a s IH]; intros cur t H; [done |].
  simpl in H. apply andb_prop in H as [Ha Hs]. rewrite append_cons.
  cbn [Split_scan HasPrefix String.rev_app]. rewrite HasPrefix_nil, andb_true_r.
  apply negb_true_iff in Ha. rewrite Ha. by apply IH.
Qed.

Lemma Split_scan_sep c cur t :
  Split_scan (String c "") 0 cur (String c t)
  = String.rev cur :: Split_scan (String c "") 0 "" t.
Proof.
  cbn [Split_scan HasPrefix]. by rewrite HasPrefix_nil, Ascii.eqb_refl.
Qed.

Lemma Split_char_piece c s t :
  no_char c s = true ->
  Split (s +:+ String c t) (String c "") = s :: Split t (String c "").
Proof.
  intros H. unfold Split. rewrite Split_scan_skip, Split_scan_sep by done.
  unfold String.rev. by rewrite rev_app_rev_app, append_empty_r.
Qed.

Lemma Split_char_last c s :
  no_char c s = true -> Split s (String c "") = [s].
Proof.
  intros H. unfold Split. rewrite <- (append_empty_r s) at 1.
  rewrite Split_scan_skip by done. simpl.
  unfold String.rev. by rewrite rev_app_rev_app, append_empty_r.
Qed.

(** What [Split] at one byte returns: pieces free of the byte that give
    the text back when they are joined with it. *)
Lemma Split_scan_char_spec c s : forall cur,
  no_char c cur = true ->
  Join (Split_scan (String c "") 0 cur s) (String c "") = String.rev cur +:+ s /\
  Forall (fun piece => no_char c piece = true) (Split_scan (String c "") 0 cur s) /\
  Split_scan (String c "") 0 cur s <> [].
Proof.
  induction s as [| a s IH]; intros cur Hcur.
  - simpl. rewrite append_empty_r. split; [done |]. split; [| done].
    constructor; [| constructor]. unfold String.rev.
    by rewrite no_char_rev_app, Hcur.
  - cbn [Split_scan HasPrefix]. rewrite HasPrefix_nil, andb_true_r.
    destruct (Ascii.eqb_spec a c) as [-> | Hne].
    + destruct (IH "" eq_refl) as (Hj & Hf & Hn). simpl.
      split; [| split; [| done]].
      * destruct (Split_scan (String c "") 0 "" s) as [| x l] eqn:E; [done |].
        change (Join (String.rev cur :: x :: l) (String c ""))
          with (String.rev cur +:+ String c "" +:+ Join (x :: l) (String c "")).
        rewrite Hj. done.
      * constructor; [| done]. unfold String.rev. by rewrite no_char_rev_app, Hcur.
    + destruct (IH (String a cur)) as (Hj & Hf & Hn).
      { simpl. rewrite Hcur. by destruct (Ascii.eqb_spec a c). }
      split; [| by split]. rewrite Hj.
      change (String.rev (String a cur)) with (String.rev_app cur (String a "")).
      rewrite rev_app_append, append_assoc_s. done.
Qed.

Lemma Split_char_spec c s :
  Join (Split s (String c "")) (String c "") = s /\
  Forall (fun piece => no_char c piece = true) (Split s (String c "")).
Proof.
  destruct (Split_scan_char_spec c s "" eq_refl) as (Hj & Hf & _). by split.
Qed.

(** Property X1: [splitConstraint] accepts exactly the texts made of two parts free
    of blanks with one blank between them, and returns the two parts. *)
Theorem splitConstraint_iff constraint op ver :
  splitConstraint constraint = inl (op, ver) <->
  constraint = op +:+ " " +:+ ver /\
  no_char " " op = true /\ no_char " " ver = true.
Proof.
  unfold splitConstraint. split.
  - destruct (Split_char_spec " " constraint) as [Hj Hf].
    destruct (Split constraint " ") as [| x [| y [| z l]]]; try done.
    intros [= -> ->]. simpl in Hj.
    apply Forall_cons in Hf as [Hx Hf]. apply Forall_cons in Hf as [Hy _]. done.
  - intros (-> & Hop & Hver).
    change (op +:+ " " +:+ ver) with (op +:+ String " " ver).
    rewrite Split_char_piece, Split_char_last by done. done.
Qed.

(** ** Run-list entries *)

Lemma Split_scan_colons_skip s : forall cur t,
  no_char ":" s = true ->
  Split_scan "::" 0 cur (s +:+ t) = Split_scan "::" 0 (String.rev_app s cur) t.
Proof.
  induction s as [| a s IH]; intros cur t H; [done |].
  simpl in H. apply andb_prop in H as [Ha Hs]. rewrite append_cons.
  cbn [Split_scan HasPrefix String.rev_app].
  apply negb_true_iff in Ha. rewrite Ha. simpl. by apply IH.
Qed.

Lemma Split_colons_none name :
  no_char ":" name = true -> Split name "::" = [name].
Proof.
  intros H. unfold Split. rewrite <- (append_empty_r name) at 1.
  rewrite Split_scan_colons_skip by done. simpl.
  unfold String.rev. by rewrite rev_app_rev_app, append_empty_r.
Qed.

Lemma Split_colons_first name rest :
  no_char ":" name = true ->
  Split (name +:+ "::" +:+ rest) "::" !!! 0%nat = name.
Proof.
  intros H. unfold Split. rewrite Split_scan_colons_skip by done.
  change ("::" +:+ rest) with (String ":" (String ":" rest)).
  cbn [Split_scan HasPrefix]. rewrite HasPrefix_nil. simpl.
  unfold String.rev. by rewrite rev_app_rev_app, append_empty_r.
Qed.

(** Property X2: how an entry of the run list is read.  For a cookbook name free of
    ":" and "@": the name alone, or followed by "::" and a recipe, asks
    for the cookbook without a constraint; an "@" and a version after it
    give the constraint "= version"; and an entry with two "@" gives no
    constraint at all. *)
Theorem run_list_entry_shape name recipe ver :
  no_char ":" name = true -> no_char "@" name = true ->
  no_char "@" recipe = true -> no_char "@" ver = true ->
  run_list_entry name = (name, "") /\
  run_list_entry (name +:+ "::" +:+ recipe) = (name, "") /\
  run_list_entry (name +:+ "@" +:+ ver) = (name, "= " +:+ ver) /\
  run_list_entry (name +:+ "::" +:+ recipe +:+ "@" +:+ ver) = (name, "= " +:+ ver) /\
  run_list_entry (name +:+ "@" +:+ ver +:+ "@" +:+ recipe) = (name, "").
Proof.
  intros Hc Hn Hr Hv.
  assert (no_char "@" (name +:+ "::" +:+ recipe) = true) as Hq.
  { rewrite !no_char_append, Hn, Hr. done. }
  unfold run_list_entry. repeat split.
  - rewrite (Split_char_last "@" name) by done.
    change ([name] !!! 0%nat) with name. by rewrite Split_colons_none.
  - rewrite (Split_char_last "@") by done.
    change ([name +:+ "::" +:+ recipe] !!! 0%nat) with (name +:+ "::" +:+ recipe).
    by rewrite Split_colons_first.
  - change (name +:+ "@" +:+ ver) with (name +:+ String "@" ver).
    rewrite (Split_char_piece "@"), (Split_char_last "@") by done.
    change ([name; ver] !!! 0%nat) with name. by rewrite Split_colons_none.
  - replace (name +:+ "::" +:+ recipe +:+ "@" +:+ ver)
      with ((name +:+ "::" +:+ recipe) +:+ String "@" ver)
      by (rewrite !append_assoc_s; reflexivity).
    rewrite (Split_char_piece "@"), (Split_char_last "@") by done.
    change ([name +:+ "::" +:+ recipe; ver] !!! 0%nat) with (name +:+ "::" +:+ recipe).
    by rewrite Split_colons_first.
  - change (name +:+ "@" +:+ ver +:+ "@" +:+ recipe)
      with (name +:+ String "@" (ver +:+ String "@" recipe)).
    rewrite !(Split_char_piece "@"), (Split_char_last "@") by done.
    change ([name; ver; recipe] !!! 0%nat) with name. by rewrite Split_colons_none.
Qed.

Lemma run_list_entry_shape_witness :
  no_char ":" "apache2" = true /\ no_char "@" "apache2" = true /\
  no_char "@" "mod_ssl" = true /\ no_char "@" "1.2.0" = true /\
  run_list_entry "apache2::mod_ssl@1.2.0" = ("apache2", "= 1.2.0").
Proof.
  repeat (split; [reflexivity |]).
  apply (run_list_entry_shape "apache2" "mod_ssl" "1.2.0"); reflexivity.
Defined.

(** ** The table of constraints *)

Section Table.

Variable order : list string -> list string.

Lemma singletons_insert cd k c : singletons cd -> singletons (<[k := [c]]> cd).
Proof.
  intros H k' l. rewrite lookup_insert. case_decide; [| by apply H].
  intros [= <-]. eauto.
Qed.

Lemma env_constraint_cases k ec cd cd' :
  env_constraint k ec cd = Ok cd' ->
  cd' = cd \/ (is_Some (cd !! k) /\ cd' = <[k := [ec]]> cd).
Proof.
  unfold env_constraint. destruct (cd !! k) as [[| requested rest] |] eqn:Ek.
  - done.
  - intros H.
    repeat match type of H with
    | context [match ?x with _ => _ end] => destruct x
    end;
    first [discriminate H | injection H as <-]; eauto.
  - intros [= <-]. by left.
Qed.

(** Property X3: the constraints of the environment only replace entries of the
    table.  When the second loop of [DependsCookbooks] succeeds, the table
    has the cookbooks it had, every entry is either as it was or the
    constraint of the environment for that cookbook, and a cookbook the
    environment does not mention keeps its entry. *)
Theorem env_constraints_loop_frame entries cd cd' :
  env_constraints_loop entries cd = Ok cd' ->
  dom cd' = dom cd /\
  (forall k, cd' !! k = cd !! k \/
             exists ec, (k, ec) ∈ entries /\ is_Some (cd !! k) /\ cd' !! k = Some [ec]) /\
  (singletons cd -> singletons cd').
Proof.
  revert cd. induction entries as [| [k ec] rest IH]; intros cd; simpl.
  - intros [= <-]. split; [done |]. split; [by left | done].
  - destruct (env_constraint k ec cd) as [cd1 | | |] eqn:E; try done.
    intros H. destruct (IH _ H) as (Hdom & Hk & Hs).
    apply env_constraint_cases in E as [-> | [Hsome ->]].
    + split; [done |]. split; [| done].
      intros k'. destruct (Hk k') as [? | (ec' & Hin & ? & ?)]; [by left |].
      right. exists ec'. split; [by right | done].
    + split; [| split].
      * rewrite Hdom. by apply dom_insert_lookup_L.
      * intros k'. destruct (Hk k') as [Hsame | (ec' & Hin & Hsome' & Hec)].
        -- rewrite Hsame, lookup_insert. case_decide; [| by left].
           subst k'. right. exists ec. split; [left | done].
        -- right. exists ec'. split; [by right |]. split; [| done].
           rewrite lookup_insert in Hsome'. by case_decide; subst.
      * intros Hsing. by apply Hs, singletons_insert.
Qed.

End Table.

Lemma env_constraints_loop_frame_witness :
  env_constraints_loop [("foo", ">= 2.0.0")] {[ "foo" := [">= 1.0.0"]; "bar" := [""] ]}
  = Ok {[ "foo" := [">= 2.0.0"]; "bar" := [""] ]} /\
  dom ({[ "foo" := [">= 2.0.0"]; "bar" := [""] ]} : gmap string (list string))
  = dom ({[ "foo" := [">= 1.0.0"]; "bar" := [""] ]} : gmap string (list string)).
Proof.
  assert (env_constraints_loop [("foo", ">= 2.0.0")]
            {[ "foo" := [">= 1.0.0"]; "bar" := [""] ]}
          = Ok {[ "foo" := [">= 2.0.0"]; "bar" := [""] ]}) as H
    by (vm_compute; reflexivity).
  split; [exact H |]. apply (env_constraints_loop_frame _ _ _ H).
Defined.

(** ** What resolution adds to the table and puts in its result *)

Section Results.

Variable order : list string -> list string.

(** A computation that returns the table with nothing but new entries
    added. *)
Local Abbreviation grows cd m :=
  (forall st cd' st', m st = (Ok cd', st') ->
     cd ⊆ cd' /\ (singletons cd -> singletons cd')).

Lemma check_constraints_cases cbv deb c cs :
  check_constraints cbv deb c cs = Ok tt \/
  exists e, check_constraints cbv deb c cs = Err e.
Proof.
  induction cs as [| dcon cs IH]; simpl; [by left |].
  destruct (negb (String.eqb dcon "")); [| done].
  destruct (splitConstraint dcon) as [[op ver] | bad]; [| right; eauto].
  destruct (negb _); [right; eauto | done].
Qed.

Lemma bind_Ok {S A B} (m : ST S A) (k : A -> ST S B) st b st' :
  bind m k st = (Ok b, st') ->
  exists a st1, m st = (Ok a, st1) /\ k a st1 = (Ok b, st').
Proof.
  unfold bind. destruct (m st) as [[a | e | |] st1]; try done. eauto.
Qed.

Lemma resolveDependencies_loop_grows rec cbv deps :
  (forall v cd, grows cd (rec v cd)) ->
  forall cd, grows cd (resolveDependencies_loop order rec cbv deps cd).
Proof.
  intros Hrec. induction deps as [| [r c2] rest IH]; intros cd st cd' st' H.
  - injection H as <- <-. done.
  - simpl in H. destruct c2 as [| | c | | | |]; try done.
    apply bind_Ok in H as (p & st1 & _ & H).
    apply bind_Ok in H as (deb & st2 & _ & H).
    destruct deb as [deb |]; [| done].
    apply bind_Ok in H as (cd1 & st3 & H1 & H).
    apply bind_Ok in H as (cd2 & st4 & H2 & H).
    apply Hrec in H2 as [Hsub2 Hsing2]. apply IH in H as [Hsub3 Hsing3].
    assert (cd ⊆ cd1 /\ (singletons cd -> singletons cd1)) as [Hsub1 Hsing1].
    { destruct (cd !! r) as [constraints |] eqn:Er.
      - apply bind_Ok in H1 as (? & ? & _ & H1). injection H1 as <- <-. done.
      - injection H1 as <- <-. split; [by apply insert_subseteq |].
        apply singletons_insert. }
    split; [by repeat (etrans; [eassumption |]) | auto].
Qed.

Lemma resolveDependencies_grows fuel :
  forall cbv cd, grows cd (resolveDependencies order fuel cbv cd).
Proof.
  induction fuel as [| fuel IH]; intros cbv cd st cd' st' H; [done |].
  simpl in H. destruct (Metadata cbv !! "dependencies") as [[| | | | | dep_list |] |];
    try done.
  by eapply resolveDependencies_loop_grows.
Qed.

(** Property X4: resolving the dependencies of a version never changes or removes
    an entry of the table: a cookbook keeps the constraint it was first
    entered with, a constraint met later is checked against it and is not
    recorded, and every entry keeps holding one single constraint. *)
Theorem resolveDependencies_table fuel cbv cd st cd' st' :
  resolveDependencies order fuel cbv cd st = (Ok cd', st') ->
  (forall k l, cd !! k = Some l -> cd' !! k = Some l) /\
  (singletons cd -> singletons cd').
Proof.
  intros H. apply resolveDependencies_grows in H as [Hsub Hsing].
  split; [| done]. intros k l Hk. by eapply lookup_weaken.
Qed.

Lemma at_cookbook_pure {A} p (g : Cookbook -> A) st a st' :
  at_cookbook p (fun c => (Ok (g c), c)) st = (Ok a, st') ->
  exists c, st !! p = Some c /\ a = g c /\ st' = st.
Proof.
  unfold at_cookbook. destruct (st !! p) as [c |] eqn:E; [| done].
  intros [= <- <-]. exists c. split; [done |]. split; [done |]. by apply insert_id.
Qed.

Lemma deps_loop_entries entries : forall deps st deps' st',
  deps_loop order entries deps st = (Ok deps', st') ->
  st' = st /\
  forall name j, deps' !! name = Some j ->
    deps !! name = Some j \/
    exists cname traints c v,
      (cname, traints) ∈ entries /\ st !! cname = Some c /\
      head (sortedVersions order c) = Some v /\
      name = CookbookName v /\ j = VMap (fill_divisions (ToJson v "POST")).
Proof.
  induction entries as [| [cname traints] rest IH]; intros deps st deps' st' H.
  - injection H as <- <-. split; [done |]. by left.
  - simpl in H. apply bind_Ok in H as (p & st1 & Hget & H).
    unfold Get in Hget. destruct (st !! cname) as [c0 |] eqn:Ec; [| done].
    injection Hget as <- <-.
    apply bind_Ok in H as (sorted & st2 & Hs & H).
    apply at_cookbook_pure in Hs as (c & Hc & -> & ->).
    apply bind_Ok in H as (gcbv & st3 & Hv & H).
    unfold of_res in Hv. injection Hv as Hv <-.
    destruct gcbv as [gcbv |]; [| done].
    apply versions_loop_first in Hv.
    apply IH in H as [-> Hrest]. split; [done |].
    intros name j Hj. destruct (Hrest name j Hj) as [Hin | (cn & tr & c' & v & Hin & ?)].
    + rewrite lookup_insert in Hin. case_decide as Hname.
      * injection Hin as <-. right. exists cname, traints, c, gcbv.
        split; [left |]. done.
      * by left.
    + right. exists cn, tr, c', v. split; [by right | done].
Qed.

Lemma DependsCookbooks_entries fuel run_list env st deps st' :
  DependsCookbooks order fuel run_list env st = (Ok deps, st') ->
  forall name j, deps !! name = Some j ->
    exists cname c v,
      st' !! cname = Some c /\ head (sortedVersions order c) = Some v /\
      CookbookName v = name /\ j = VMap (fill_divisions (ToJson v "POST")).
Proof.
  unfold DependsCookbooks. destruct (run_list_loop run_list ∅) as [cd ref].
  intros H name j Hj.
  apply bind_Ok in H as (cd1 & st1 & _ & H).
  apply bind_Ok in H as (cd2 & st2 & _ & H).
  apply deps_loop_entries in H as [-> Hall].
  destruct (Hall name j Hj) as [Hin | (cn & tr & c & v & _ & Hc & Hv & -> & ->)];
    [by rewrite lookup_empty in Hin |].
  eauto 10.
Qed.

(** A key holds a value that is not nil. *)
Local Abbreviation filled j key :=
  (exists x : value, @lookup string value (gmap string value) _ key j = Some x /\ x <> VNil).

Lemma filled_insert (j : gmap string value) k x key :
  x <> VNil -> key = k \/ filled j key -> filled (<[k := x]> j) key.
Proof.
  intros Hx H. rewrite lookup_insert. case_decide; [eauto |].
  destruct H as [-> | H]; done.
Qed.

Lemma filled_fill_step (j : gmap string value) cd key :
  key = cd \/ filled j key ->
  filled (match j !! cd with
          | None | Some VNil => <[cd := VDivs []]> j
          | Some _ => j
          end) key.
Proof.
  intros H. destruct (j !! cd) as [x |] eqn:E.
  - destruct x; try (apply filled_insert; [done | exact H]);
      (destruct H as [-> | H]; [eexists; split; [exact E | done] | exact H]).
  - apply filled_insert; [done | exact H].
Qed.

Lemma filled_fold l : forall (j : gmap string value) key,
  key ∈ l \/ filled j key ->
  filled (fold_left
            (fun (j : gmap string value) cd =>
               match j !! cd with
               | None | Some VNil => <[cd := VDivs []]> j
               | Some _ => j
               end) l j) key.
Proof.
  induction l as [| cd l IH]; intros j key H; simpl.
  - destruct H as [H | H]; [by apply elem_of_nil in H | done].
  - apply IH. destruct H as [H | H].
    + apply elem_of_cons in H as [-> | H]; [| by left].
      right. apply filled_fill_step. by left.
    + right. apply filled_fill_step. by right.
Qed.

Lemma filled_division (b : bool) k x (j : gmap string value) key :
  x <> VNil -> filled j key -> filled (if b then <[k := x]> j else j) key.
Proof.
  intros Hx H. destruct b; [| done]. apply filled_insert; [done | by right].
Qed.

Lemma filled_ToJson v method key :
  key ∈ ["name"; "cookbook_name"; "chef_type"; "json_class"; "frozen?"; "recipes";
         "metadata"] ->
  filled (ToJson v method) key.
Proof.
  intros Hkey. unfold ToJson. cbv zeta.
  repeat (apply filled_division; [done |]).
  repeat (apply elem_of_cons in Hkey as [-> | Hkey];
          [repeat first
             [ apply filled_insert; [done |]; first [by left | right]
             | apply filled_division; [done |] ] |]).
  by apply elem_of_nil in Hkey.
Qed.

Lemma filled_fill_divisions v method key :
  key ∈ result_keys -> filled (fill_divisions (ToJson v method)) key.
Proof.
  intros Hkey. unfold fill_divisions. apply filled_fold.
  unfold result_keys in Hkey.
  repeat (apply elem_of_cons in Hkey as [-> | Hkey];
          [first [ left; unfold chkDiv; by repeat constructor
                 | right; apply filled_ToJson; by repeat constructor ] |]).
  by apply elem_of_nil in Hkey.
Qed.

(** Property X5: the shape of a resolution result.  Every cookbook of a successful
    result is a map that holds, with a value that is not nil, the name,
    the cookbook name, the type fields, the frozen flag, the recipes, the
    metadata and every one of the eight divisions, also those the chosen
    version has nothing in. *)
Theorem DependsCookbooks_shape fuel run_list env st deps st' :
  DependsCookbooks order fuel run_list env st = (Ok deps, st') ->
  forall name j, deps !! name = Some j ->
    exists gcbvJson, j = VMap gcbvJson /\
      forall key, key ∈ result_keys ->
        exists x, gcbvJson !! key = Some x /\ x <> VNil.
Proof.
  intros H name j Hj.
  destruct (DependsCookbooks_entries _ _ _ _ _ _ H name j Hj)
    as (cname & c & v & _ & _ & _ & ->).
  eexists. split; [reflexivity |]. intros key Hkey.
  by apply filled_fill_divisions.
Qed.

(** Property X6: whatever the constraints, a resolution that succeeds reports for
    every cookbook of its result the first of the sorted versions of a
    cookbook of the store, under the name that version carries, rendered
    by [ToJson] for "POST" with the missing divisions filled in. *)
Theorem DependsCookbooks_result fuel run_list env st deps st' :
  DependsCookbooks order fuel run_list env st = (Ok deps, st') ->
  forall name j, deps !! name = Some j ->
    exists cname c v,
      st' !! cname = Some c /\ head (sortedVersions order c) = Some v /\
      CookbookName v = name /\ j = VMap (fill_divisions (ToJson v "POST")).
Proof. apply DependsCookbooks_entries. Qed.

Lemma run_list_loop_spec run_list : forall cd0,
  (run_list_loop run_list cd0).2 = (run_list_entry <$> run_list).*1 /\
  (forall name, is_Some ((run_list_loop run_list cd0).1 !! name) <->
                name ∈ (run_list_entry <$> run_list).*1 \/ is_Some (cd0 !! name)) /\
  (singletons cd0 -> singletons (run_list_loop run_list cd0).1).
Proof.
  induction run_list as [| cb_v rest IH]; intros cd0.
  - simpl. split; [done |]. split; [| done]. intros name. rewrite elem_of_nil. tauto.
  - cbn [run_list_loop]. rewrite !fmap_cons.
    destruct (run_list_entry cb_v) as [cbName constraint] eqn:E.
    specialize (IH (<[cbName := [constraint]]> cd0)).
    destruct (run_list_loop rest (<[cbName := [constraint]]> cd0)) as [cd ref].
    cbn [fst snd] in *. destruct IH as (Href & Hdom & Hsing).
    split; [by rewrite Href |]. split.
    + intros name. rewrite Hdom, elem_of_cons, lookup_insert_is_Some. 
      destruct (decide (cbName = name)); subst; intuition congruence.
    + intros H. by apply Hsing, singletons_insert.
Qed.

(** Property X7: the table the run list starts resolution with.  It has an entry
    for exactly the cookbooks the run list names, every entry holds one
    single constraint, and the cookbooks are resolved in the order of the
    run list. *)
Theorem run_list_loop_table run_list :
  (run_list_loop run_list ∅).2 = (run_list_entry <$> run_list).*1 /\
  (forall name, is_Some ((run_list_loop run_list ∅).1 !! name) <->
                name ∈ (run_list_entry <$> run_list).*1) /\
  singletons (run_list_loop run_list ∅).1.
Proof.
  destruct (run_list_loop_spec run_list ∅) as (Href & Hdom & Hsing).
  split; [done |]. split.
  - intros name. rewrite Hdom, lookup_empty, is_Some_alt. tauto.
  - apply Hsing. intros k l. by rewrite lookup_empty.
Qed.

Lemma caches_filled_is_Some st st' p :
  caches_filled order st st' -> is_Some (st' !! p) -> is_Some (st !! p).
Proof. intros H Hp. specialize (H p). destruct H; [eauto | by destruct Hp]. Qed.

Lemma needed_loop_exists fuel names : forall cd st cd' st',
  needed_loop order fuel names cd st = (Ok cd', st') ->
  forall name, name ∈ names -> is_Some (st !! name).
Proof.
  induction names as [| n rest IH]; intros cd st cd' st' H name Hin.
  - by apply elem_of_nil in Hin.
  - simpl in H. apply bind_Ok in H as (p & st1 & Hget & H).
    unfold Get in Hget. destruct (st !! n) as [c0 |] eqn:En; [| done].
    injection Hget as <- <-.
    apply elem_of_cons in Hin as [-> | Hin]; [by rewrite En |].
    destruct (default [] (cd !! n)) as [| constraint ?]; [done |].
    apply bind_Ok in H as (cbv & st2 & Hc & H).
    destruct cbv as [cbv |].
    + apply bind_Ok in H as (cd1 & st3 & Hr & H).
      apply (IH _ _ _ _ H) in Hin.
      pose proof (proj1 (fills_caches_resolveDependencies order fuel cbv cd) st2) as H23.
      rewrite Hr in H23. simpl in H23.
      pose proof (proj1 (fills_caches_at_cookbook order n _
                           (fills_cache_LatestConstrained order constraint)) st) as H12.
      rewrite Hc in H12. simpl in H12.
      eapply caches_filled_is_Some; [exact H12 |].
      eapply caches_filled_is_Some; [exact H23 | exact Hin].
    + apply bind_Ok in H as (? & ? & _ & H). done.
Qed.

(** Property X8: a cookbook of the run list that the store does not have makes the
    whole resolution fail: [DependsCookbooks] never succeeds then. *)
Theorem DependsCookbooks_missing fuel run_list env st cb_v :
  cb_v ∈ run_list -> st !! (run_list_entry cb_v).1 = None ->
  forall deps st', DependsCookbooks order fuel run_list env st <> (Ok deps, st').
Proof.
  intros Hin Hnone deps st' H. unfold DependsCookbooks in H.
  pose proof (run_list_loop_spec run_list ∅) as (Href & _ & _).
  destruct (run_list_loop run_list ∅) as [cd ref]. simpl in Href. subst ref.
  apply bind_Ok in H as (cd1 & st1 & Henv & H).
  unfold of_res in Henv. injection Henv as _ <-.
  apply bind_Ok in H as (cd2 & st2 & Hneed & _).
  eapply needed_loop_exists in Hneed as [c Hc].
  - rewrite Hnone in Hc. done.
  - apply list_elem_of_fmap. exists (run_list_entry cb_v). split; [done |].
    apply list_elem_of_fmap. eauto.
Qed.

End Results.

(** ** The order of versions and the sorted versions *)

Ltac order_cases :=
  repeat match goal with
  | |- context [Z.eqb ?a ?b] => destruct (Z.eqb_spec a b); subst; simpl
  | H : context [Z.eqb ?a ?b] |- _ => destruct (Z.eqb_spec a b); subst; simpl in H
  | |- context [Z.ltb ?a ?b] => destruct (Z.ltb_spec a b); simpl
  | H : context [Z.ltb ?a ?b] |- _ => destruct (Z.ltb_spec a b); simpl in H
  end.

Lemma absent_first_less_asym v w :
  absent_first_less v w = true -> absent_first_less w v = false.
Proof.
  destruct v as [a b [c |]], w as [a' b' [c' |]]; unfold absent_first_less; simpl;
    order_cases; intros; try done; try lia.
Qed.

Lemma absent_first_less_trans u v w :
  absent_first_less u v = true -> absent_first_less v w = true ->
  absent_first_less u w = true.
Proof.
  destruct u as [a b [c |]], v as [a' b' [c' |]], w as [a'' b'' [c'' |]];
    unfold absent_first_less; simpl; order_cases; intros; try done; try lia.
Qed.

Lemma absent_first_less_total v w :
  v <> w -> absent_first_less v w = true \/ absent_first_less w v = true.
Proof.
  destruct v as [a b [c |]], w as [a' b' [c' |]]; unfold absent_first_less; simpl;
    intros Hne; order_cases; auto; try (left; lia); try (right; lia);
    try (exfalso; apply Hne; f_equal; try f_equal; lia); try done.
Qed.

Lemma absent_first_less_connex v w :
  absent_first_less v w = false -> absent_first_less w v = false -> v = w.
Proof.
  destruct v as [a b [c |]], w as [a' b' [c' |]]; unfold absent_first_less; simpl;
    intros H1 H2; order_cases; try done; try lia;
    f_equal; try f_equal; lia.
Qed.

(** Property X9: on canonical version texts [versionLess] is a strict total order:
    no text is less than itself, two texts are never each less than the
    other, less-than is transitive, and of two different texts one is
    less than the other.  (No text at all is less than itself.) *)
Theorem versionLess_strict_order a b c :
  canonical a -> canonical b -> canonical c ->
  versionLess a a = false /\
  (versionLess a b = true -> versionLess b a = false) /\
  (versionLess a b = true -> versionLess b c = true -> versionLess a c = true) /\
  (a <> b -> versionLess a b = true \/ versionLess b a = true).
Proof.
  intros (u & Hu & ->) (v & Hv & ->) (w & Hw & ->).
  rewrite !versionLess_render by done.
  split; [apply absent_first_less_irrefl |].
  split; [apply absent_first_less_asym |].
  split; [apply absent_first_less_trans |].
  intros Hne. apply absent_first_less_total. by intros ->.
Qed.

Lemma versionLess_strict_order_witness :
  canonical "1.2" /\ canonical "1.2.0" /\ canonical "10.0.0" /\
  (versionLess "1.2" "1.2.0" = true -> versionLess "1.2.0" "10.0.0" = true ->
   versionLess "1.2" "10.0.0" = true).
Proof.
  assert (canonical "1.2") as Ha
    by (exists (short 1 2); split; [unfold valid, in_range; simpl; lia | reflexivity]).
  assert (canonical "1.2.0") as Hb
    by (exists (full 1 2 0); split; [unfold valid, in_range; simpl; lia | reflexivity]).
  assert (canonical "10.0.0") as Hc
    by (exists (full 10 0 0); split; [unfold valid, in_range; simpl; lia | reflexivity]).
  repeat (split; [assumption |]).
  apply (versionLess_strict_order "1.2" "1.2.0" "10.0.0" Ha Hb Hc).
Defined.

Lemma insert_rev_Permutation x before : insert_rev x before ≡ₚ x :: before.
Proof.
  induction before as [| y before IH]; simpl; [done |].
  destruct (versionLess y x); [| done].
  rewrite IH. apply Permutation_swap.
Qed.

Lemma fold_insert_rev_Permutation keys : forall before,
  fold_left (fun before x => insert_rev x before) keys before ≡ₚ (keys ++ before)%list.
Proof.
  induction keys as [| k keys IH]; intros before; simpl; [done |].
  rewrite IH, insert_rev_Permutation. by rewrite Permutation_middle.
Qed.

Lemma sortReverse_Permutation keys : sortReverse keys ≡ₚ keys.
Proof.
  unfold sortReverse. rewrite <- Permutation_rev, fold_insert_rev_Permutation.
  by rewrite app_nil_r.
Qed.

(** [a] is not newer than [b]. *)
Local Abbreviation older a b := (versionLess b a = false).

Lemma older_trans a b c :
  canonical a -> canonical b -> canonical c ->
  older a b -> older b c -> older a c.
Proof.
  intros (u & Hu & ->) (v & Hv & ->) (w & Hw & ->).
  rewrite !versionLess_render by done. intros Hab Hbc.
  destruct (absent_first_less w u) eqn:E; [| done].
  destruct (absent_first_less u v) eqn:H.
  - by rewrite (absent_first_less_trans _ _ _ E H) in Hbc.
  - rewrite (absent_first_less_connex _ _ H Hab) in E. congruence.
Qed.

Lemma older_asym a b :
  canonical a -> canonical b -> versionLess a b = true -> older a b.
Proof.
  intros (u & Hu & ->) (v & Hv & ->). rewrite !versionLess_render by done.
  apply absent_first_less_asym.
Qed.

Lemma insert_rev_sorted x before :
  canonical x -> Forall canonical before ->
  StronglySorted (fun a b => older a b) before ->
  StronglySorted (fun a b => older a b) (insert_rev x before).
Proof.
  intros Hx. induction before as [| y before IH]; intros Hc Hs; simpl.
  - by repeat constructor.
  - apply Forall_cons in Hc as [Hy Hc].
    apply StronglySorted_inv in Hs as [Hs Hall].
    destruct (versionLess y x) eqn:E.
    + constructor; [by apply IH |].
      rewrite insert_rev_Permutation. constructor; [| done].
      by apply older_asym.
    + constructor; [by constructor |].
      constructor; [done |].
      rewrite Forall_forall in Hall, Hc |- *. intros z Hz.
      apply (older_trans x y z); auto.
Qed.

Lemma fold_insert_rev_sorted keys : forall before,
  Forall canonical keys -> Forall canonical before ->
  StronglySorted (fun a b => older a b) before ->
  StronglySorted (fun a b => older a b)
    (fold_left (fun before x => insert_rev x before) keys before).
Proof.
  induction keys as [| k keys IH]; intros before Hk Hc Hs; simpl; [done |].
  apply Forall_cons in Hk as [Hk Hks]. apply IH; [done | |].
  - by rewrite insert_rev_Permutation; constructor.
  - by apply insert_rev_sorted.
Qed.

Lemma StronglySorted_snoc {A} (R : A -> A -> Prop) l x :
  StronglySorted R l -> Forall (fun y => R y x) l -> StronglySorted R (l ++ [x]).
Proof.
  induction 1 as [| y l Hs IH Hall]; intros Hx; simpl.
  - by repeat constructor.
  - apply Forall_cons in Hx as [Hy Hx]. constructor; [by apply IH |].
    apply Forall_app. split; [done |]. by repeat constructor.
Qed.

Lemma StronglySorted_rev {A} (R : A -> A -> Prop) l :
  StronglySorted R l -> StronglySorted (fun a b => R b a) (rev l).
Proof.
  induction 1 as [| x l Hs IH Hall]; simpl; [constructor |].
  apply StronglySorted_snoc; [done |]. by rewrite <- Permutation_rev.
Qed.

Lemma sortReverse_sorted keys :
  Forall canonical keys ->
  StronglySorted (fun a b => versionLess a b = false) (sortReverse keys).
Proof.
  intros Hk. unfold sortReverse.
  apply (StronglySorted_rev (fun a b => older a b)).
  apply fold_insert_rev_sorted; [done | constructor | constructor].
Qed.

(** Property X10: on canonical version texts [sort.Sort(sort.Reverse(keys))] gives
    the same keys, each as often as before, newest first: no key of the
    result is [versionLess] than a key after it. *)
Theorem sortReverse_descending keys :
  Forall canonical keys ->
  sortReverse keys ≡ₚ keys /\
  StronglySorted (fun a b => versionLess a b = false) (sortReverse keys).
Proof.
  intros Hk. split; [apply sortReverse_Permutation | by apply sortReverse_sorted].
Qed.

Section Sorted.

Variable order : list string -> list string.
Hypothesis order_Permutation : forall keys, order keys ≡ₚ keys.

Lemma omap_lookup_keys {A B} (m : gmap string A) (f : string -> A -> B)
    (l : list (string * A)) :
  (forall k x, (k, x) ∈ l -> m !! k = Some x) ->
  omap (fun k => f k <$> m !! k) l.*1 = (fun kx => f kx.1 kx.2) <$> l.
Proof.
  induction l as [| [k x] l IH]; intros H; simpl; [done |].
  rewrite (H k x) by left. simpl. f_equal. apply IH. intros; apply H. by right.
Qed.

Lemma omap_lookup_values {A} (m : gmap string A) (l : list (string * A)) :
  (forall k x, (k, x) ∈ l -> m !! k = Some x) ->
  omap (fun k => m !! k) l.*1 = l.*2.
Proof.
  induction l as [| [k x] l IH]; intros H; simpl; [done |].
  rewrite (H k x) by left. f_equal. apply IH. intros; apply H. by right.
Qed.

Lemma range_Permutation {A} (m : gmap string A) : range order m ≡ₚ map_to_list m.
Proof.
  unfold range. rewrite order_Permutation.
  rewrite (omap_lookup_keys m pair).
  - rewrite <- (list_fmap_id (map_to_list m)) at 2.
    apply reflexive_eq, list_fmap_ext. by intros _ [k x] _.
  - intros k x. apply elem_of_map_to_list.
Qed.

Lemma sortedVersions_keys c :
  sortedVersions order c ≡ₚ (map_to_list (Versions c)).*2.
Proof.
  unfold sortedVersions.
  rewrite sortReverse_Permutation, range_Permutation.
  apply reflexive_eq, omap_lookup_values.
  intros k x. apply elem_of_map_to_list.
Qed.

Lemma sortedVersions_length c : length (sortedVersions order c) = size (Versions c).
Proof. rewrite sortedVersions_keys, length_fmap. apply length_map_to_list. Qed.

Lemma sortedVersions_elem c v :
  v ∈ sortedVersions order c <-> exists k, Versions c !! k = Some v.
Proof.
  rewrite sortedVersions_keys, list_elem_of_fmap. split.
  - intros ([k x] & -> & H%elem_of_map_to_list). eauto.
  - intros [k H]. exists (k, v). split; [done |]. by apply elem_of_map_to_list.
Qed.

(** Property X11: when a [range] visits every key once, [sortedVersions] lists the
    versions of the cookbook, each stored entry once: none is left out and
    none is repeated. *)
Theorem sortedVersions_Permutation c :
  sortedVersions order c ≡ₚ (map_to_list (Versions c)).*2 /\
  length (sortedVersions order c) = size (Versions c) /\
  forall v, v ∈ sortedVersions order c <-> exists k, Versions c !! k = Some v.
Proof.
  split; [apply sortedVersions_keys |].
  split; [apply sortedVersions_length | apply sortedVersions_elem].
Qed.

Lemma range_keys_canonical c :
  keyed c -> Forall canonical (range order (Versions c)).*1.
Proof.
  intros Hk. apply Forall_forall. intros k ([k' v] & -> & H%elem_of_range)%list_elem_of_fmap.
  by destruct (Hk _ _ H).
Qed.

Lemma keyed_omap c (keys : list string) :
  keyed c -> (forall k, k ∈ keys -> is_Some (Versions c !! k)) ->
  Version <$> omap (fun s => Versions c !! s) keys = keys.
Proof.
  intros Hk. induction keys as [| k keys IH]; intros H; simpl; [done |].
  destruct (H k) as [v Hv]; [left |]. rewrite Hv. simpl.
  destruct (Hk _ _ Hv) as [-> _]. f_equal. apply IH. intros; apply H. by right.
Qed.

Lemma sortedVersions_Version c :
  keyed c ->
  Version <$> sortedVersions order c = sortReverse (range order (Versions c)).*1.
Proof.
  intros Hk. apply keyed_omap; [done |]. intros k.
  rewrite sortReverse_Permutation.
  intros ([k' v] & -> & H%elem_of_range)%list_elem_of_fmap. eauto.
Qed.

Lemma sortedVersions_descending c :
  keyed c ->
  StronglySorted (fun a b => versionLess a b = false)
    (Version <$> sortedVersions order c).
Proof.
  intros Hk. rewrite sortedVersions_Version by done.
  by apply sortReverse_sorted, range_keys_canonical.
Qed.

Lemma sortedVersions_head_newest c v l w :
  keyed c -> sortedVersions order c = v :: l ->
  w ∈ sortedVersions order c -> versionLess (Version v) (Version w) = false.
Proof.
  intros Hk E Hw. pose proof (sortedVersions_descending c Hk) as Hs.
  rewrite E in Hs, Hw. rewrite fmap_cons in Hs.
  apply StronglySorted_inv in Hs as [_ Hall].
  apply elem_of_cons in Hw as [-> | Hw]; [apply versionLess_same |].
  rewrite Forall_forall in Hall. apply Hall. by apply list_elem_of_fmap_2.
Qed.

(** Property X12: with an empty cache, on a cookbook that has versions, each stored
    under its canonical version text, [LatestVersion] returns a version
    that no version of the cookbook is newer than, and caches it. *)
Theorem LatestVersion_newest c :
  keyed c -> latest c = None -> Versions c <> ∅ ->
  exists v, LatestVersion order c = (Ok v, set_latest c (Some v)) /\
    (exists k, Versions c !! k = Some v) /\
    forall k w, Versions c !! k = Some w ->
      versionLess (Version v) (Version w) = false.
Proof.
  intros Hk Hl Hne. unfold LatestVersion. rewrite Hl.
  destruct (sortedVersions order c) as [| v l] eqn:E.
  - exfalso. apply Hne, map_size_empty_inv.
    rewrite <- sortedVersions_length. by rewrite E.
  - exists v. split; [done |]. split.
    + apply (sortedVersions_elem c v). rewrite E. left.
    + intros k w Hw. apply (sortedVersions_head_newest c v l w Hk E).
      apply (sortedVersions_elem c w). eauto.
Qed.

Lemma LatestConstrained_scan_first vs ver op :
  match LatestConstrained_scan vs ver op with
  | Some v => exists l1 l2, vs = (l1 ++ v :: l2)%list /\ passes op ver v /\
                Forall (fun w => ~ passes op ver w) l1
  | None => Forall (fun w => ~ passes op ver w) vs
  end.
Proof.
  unfold passes. induction vs as [| cv vs IH]; simpl; [constructor |].
  destruct (String.eqb_spec (verConstraintCheck (Version cv) ver op) "ok") as [E | E].
  - exists [], vs. by repeat split.
  - destruct (LatestConstrained_scan vs ver op) as [v |].
    + destruct IH as (l1 & l2 & -> & Hv & Hl). exists (cv :: l1), l2.
      repeat split; [done |]. by constructor.
    + by constructor.
Qed.

Lemma LatestConstrained_split c op ver :
  no_char " " op = true -> no_char " " ver = true ->
  LatestConstrained order c (op +:+ " " +:+ ver)
  = (Ok (LatestConstrained_scan (sortedVersions order c) ver op), c).
Proof.
  intros Hop Hver. unfold LatestConstrained.
  assert (String.eqb (op +:+ " " +:+ ver) "" = false) as ->
    by (by destruct op).
  change (op +:+ " " +:+ ver) with (op +:+ String " " ver).
  change (Split ?s " ") with (Split s (String " " "")).
  by rewrite Split_char_piece, Split_char_last.
Qed.

(** Property X13: for a constraint [op ver], [LatestConstrained] leaves the cookbook
    and its cache alone; on a cookbook whose versions are stored under
    their canonical version texts it returns a version that passes the
    check and that no passing version is newer than, and it returns nil
    only when no version passes. *)
Theorem LatestConstrained_newest c op ver :
  no_char " " op = true -> no_char " " ver = true -> keyed c ->
  exists r, LatestConstrained order c (op +:+ " " +:+ ver) = (Ok r, c) /\
    match r with
    | Some v =>
        (exists k, Versions c !! k = Some v) /\ passes op ver v /\
        forall k w, Versions c !! k = Some w -> passes op ver w ->
          versionLess (Version v) (Version w) = false
    | None => forall k w, Versions c !! k = Some w -> ~ passes op ver w
    end.
Proof.
  intros Hop Hver Hk. rewrite LatestConstrained_split by done.
  eexists. split; [done |].
  pose proof (LatestConstrained_scan_first (sortedVersions order c) ver op) as H.
  destruct (LatestConstrained_scan (sortedVersions order c) ver op) as [v |].
  - destruct H as (l1 & l2 & E & Hv & Hl1). split; [| split; [done |]].
    + apply (sortedVersions_elem c v). rewrite E.
      apply elem_of_app. right. left.
    + intros k w Hw Hpass.
      assert (w ∈ sortedVersions order c) as Hin
        by (apply (sortedVersions_elem c w); eauto).
      pose proof (sortedVersions_descending c Hk) as Hs.
      rewrite E in Hin, Hs. rewrite fmap_app, fmap_cons in Hs.
      apply StronglySorted_app_1_r, StronglySorted_inv in Hs as [_ Hall].
      apply elem_of_app in Hin as [Hin | Hin].
      { rewrite Forall_forall in Hl1. by destruct (Hl1 w Hin). }
      apply elem_of_cons in Hin as [-> | Hin]; [apply versionLess_same |].
      rewrite Forall_forall in Hall. apply Hall. by apply list_elem_of_fmap_2.
  - intros k w Hw. rewrite Forall_forall in H. apply H.
    apply (sortedVersions_elem c w). eauto.
Qed.

End Sorted.

(** ** The properties at concrete cookbooks *)

Lemma canonical_render v : valid v -> canonical (render v).
Proof. intros Hv. by exists v. Qed.

Lemma valid_full x y z :
  0 <= x < 2 ^ 63 -> 0 <= y < 2 ^ 63 -> 0 <= z < 2 ^ 63 -> valid (full x y z).
Proof. unfold valid, in_range. simpl. tauto. Qed.

Lemma keyed_example_cookbook name vs :
  Forall (fun v => canonical (Version v)) vs -> keyed (example_cookbook name vs).
Proof.
  intros Hvs k v H. simpl in H. apply elem_of_list_to_map_2 in H.
  apply list_elem_of_fmap in H as (v' & [= -> ->] & Hin).
  rewrite Forall_forall in Hvs. split; [done | by apply Hvs].
Qed.

Lemma keyed_foo : keyed foo.
Proof.
  apply keyed_example_cookbook.
  repeat constructor.
  - apply (canonical_render (full 1 0 0)), valid_full; lia.
  - apply (canonical_render (full 1 2 0)), valid_full; lia.
  - apply (canonical_render (full 2 0 0)), valid_full; lia.
Qed.

Lemma Versions_foo_nonempty : Versions foo <> ∅.
Proof.
  intros H. assert (Versions foo !! "1.0.0" = Some foo_1_0_0) as E
    by (vm_compute; reflexivity).
  rewrite H in E. by rewrite lookup_empty in E.
Qed.

Lemma sortReverse_descending_witness :
  Forall canonical ["1.2.0"; "10.0.0"; "2.0.0"] /\
  sortReverse ["1.2.0"; "10.0.0"; "2.0.0"] ≡ₚ ["1.2.0"; "10.0.0"; "2.0.0"] /\
  StronglySorted (fun a b => versionLess a b = false)
    (sortReverse ["1.2.0"; "10.0.0"; "2.0.0"]).
Proof.
  assert (Forall canonical ["1.2.0"; "10.0.0"; "2.0.0"]) as H.
  { repeat constructor.
    - apply (canonical_render (full 1 2 0)), valid_full; lia.
    - apply (canonical_render (full 10 0 0)), valid_full; lia.
    - apply (canonical_render (full 2 0 0)), valid_full; lia. }
  split; [exact H |]. apply (sortReverse_descending _ H).
Defined.

Lemma sortedVersions_Permutation_witness :
  (forall keys, ascending keys ≡ₚ keys) /\
  length (sortedVersions ascending foo) = size (Versions foo).
Proof.
  split; [exact ascending_Permutation |].
  apply (sortedVersions_Permutation ascending ascending_Permutation foo).
Defined.

Lemma LatestVersion_newest_witness :
  (forall keys, ascending keys ≡ₚ keys) /\ keyed foo /\ latest foo = None /\
  Versions foo <> ∅ /\
  exists v, LatestVersion ascending foo = (Ok v, set_latest foo (Some v)) /\
    (exists k, Versions foo !! k = Some v) /\
    forall k w, Versions foo !! k = Some w ->
      versionLess (Version v) (Version w) = false.
Proof.
  split; [exact ascending_Permutation |].
  split; [exact keyed_foo |]. split; [reflexivity |].
  split; [exact Versions_foo_nonempty |].
  apply (LatestVersion_newest ascending ascending_Permutation foo keyed_foo
           eq_refl Versions_foo_nonempty).
Defined.

Lemma LatestConstrained_newest_witness :
  (forall keys, ascending keys ≡ₚ keys) /\
  no_char " " "<" = true /\ no_char " " "2.0.0" = true /\ keyed foo /\
  exists r, LatestConstrained ascending foo "< 2.0.0" = (Ok r, foo) /\
    match r with
    | Some v =>
        (exists k, Versions foo !! k = Some v) /\ passes "<" "2.0.0" v /\
        forall k w, Versions foo !! k = Some w -> passes "<" "2.0.0" w ->
          versionLess (Version v) (Version w) = false
    | None => forall k w, Versions foo !! k = Some w -> ~ passes "<" "2.0.0" w
    end.
Proof.
  split; [exact ascending_Permutation |].
  split; [reflexivity |]. split; [reflexivity |]. split; [exact keyed_foo |].
  apply (LatestConstrained_newest ascending ascending_Permutation foo "<" "2.0.0"
           eq_refl eq_refl keyed_foo).
Defined.

Lemma foo_resolution_Ok :
  DependsCookbooks ascending 1 ["foo@1.0.0"] ∅ foo_store
  = (Ok foo_deps, foo_resolution.2).
Proof. vm_compute. reflexivity. Qed.

Lemma DependsCookbooks_shape_witness :
  DependsCookbooks ascending 1 ["foo@1.0.0"] ∅ foo_store
  = (Ok foo_deps, foo_resolution.2) /\
  forall name j, foo_deps !! name = Some j ->
    exists gcbvJson, j = VMap gcbvJson /\
      forall key, key ∈ result_keys ->
        exists x, gcbvJson !! key = Some x /\ x <> VNil.
Proof.
  split; [exact foo_resolution_Ok |].
  apply (DependsCookbooks_shape ascending _ _ _ _ _ _ foo_resolution_Ok).
Defined.

Lemma DependsCookbooks_result_witness :
  DependsCookbooks ascending 1 ["foo@1.0.0"] ∅ foo_store
  = (Ok foo_deps, foo_resolution.2) /\
  forall name j, foo_deps !! name = Some j ->
    exists cname c v,
      foo_resolution.2 !! cname = Some c /\
      head (sortedVersions ascending c) = Some v /\
      CookbookName v = name /\ j = VMap (fill_divisions (ToJson v "POST")).
Proof.
  split; [exact foo_resolution_Ok |].
  apply (DependsCookbooks_result ascending _ _ _ _ _ _ foo_resolution_Ok).
Defined.

Lemma DependsCookbooks_missing_witness :
  "bar" ∈ ["foo"; "bar"] /\ foo_store !! (run_list_entry "bar").1 = None /\
  forall deps st',
    DependsCookbooks ascending 1 ["foo"; "bar"] ∅ foo_store <> (Ok deps, st').
Proof.
  assert ("bar" ∈ ["foo"; "bar"]) as Hin by (right; left).
  assert (foo_store !! (run_list_entry "bar").1 = None) as Hno
    by (vm_compute; reflexivity).
  split; [exact Hin |]. split; [exact Hno |].
  apply (DependsCookbooks_missing ascending 1 ["foo"; "bar"] ∅ foo_store "bar" Hin Hno).
Defined.

Lemma a_resolution_Ok :
  resolveDependencies ascending 3 a_1_0_0 {[ "a" := [""] ]} abc_store
  = (Ok a_table, a_resolution.2).
Proof. vm_compute. reflexivity. Qed.

Lemma resolveDependencies_table_witness :
  resolveDependencies ascending 3 a_1_0_0 {[ "a" := [""] ]} abc_store
  = (Ok a_table, a_resolution.2) /\
  (forall k l, ({[ "a" := [""] ]} : gmap string (list string)) !! k = Some l ->
               a_table !! k = Some l) /\
  (singletons {[ "a" := [""] ]} -> singletons a_table).
Proof.
  split; [exact a_resolution_Ok |].
  apply (resolveDependencies_table ascending _ _ _ _ _ _ a_resolution_Ok).
Defined.

(** ** Updating a version *)

Lemma same_identity_refl v : same_identity v v.
Proof. by repeat split. Qed.

Lemma same_identity_trans u v w :
  same_identity u v -> same_identity v w -> same_identity u w.
Proof. unfold same_identity. intros (-> & -> & ->) (-> & -> & ->). done. Qed.

Lemma keeps_identity_reads_only {A} (m : ST CookbookVersion A) :
  reads_only m -> keeps_identity m.
Proof. intros H v. rewrite H. apply same_identity_refl. Qed.

Lemma keeps_identity_bind {A B} (m : ST CookbookVersion A)
    (k : A -> ST CookbookVersion B) :
  keeps_identity m -> (forall a, keeps_identity (k a)) -> keeps_identity (bind m k).
Proof.
  intros Hm Hk v. unfold bind. specialize (Hm v).
  destruct (m v) as [[a | | |] v']; simpl in *; auto.
  eapply same_identity_trans; [exact Hm | apply Hk].
Qed.

Lemma keeps_identity_modify f :
  (forall v, same_identity v (f v)) -> keeps_identity (modify f).
Proof. intros H v. apply H. Qed.

Lemma reads_only_ret {A} (a : A) : reads_only (ret a).
Proof. by intros v. Qed.
Lemma reads_only_fail {A} e : reads_only (@fail _ A e).
Proof. by intros v. Qed.
Lemma reads_only_panic {A} : reads_only (@panic _ A).
Proof. by intros v. Qed.
Lemma reads_only_get : reads_only (@get CookbookVersion).
Proof. by intros v. Qed.
Lemma reads_only_assert_string v : reads_only (assert_string v).
Proof. by destruct v. Qed.
Lemma reads_only_assert_bool v : reads_only (assert_bool v).
Proof. by destruct v. Qed.
Lemma reads_only_assert_divs v : reads_only (assert_divs v).
Proof. by destruct v. Qed.
Lemma reads_only_assert_map v : reads_only (assert_map v).
Proof. by destruct v. Qed.

Lemma reads_only_bind {A B} (m : ST CookbookVersion A)
    (k : A -> ST CookbookVersion B) :
  reads_only m -> (forall a, reads_only (k a)) -> reads_only (bind m k).
Proof.
  intros Hm Hk v. unfold bind. specialize (Hm v).
  destruct (m v) as [[a | | |] v']; simpl in *; subst; auto. apply Hk.
Qed.

Lemma never_fails_ret {A} (a : A) : never_fails (ret a).
Proof. by intros v e v'. Qed.
Lemma never_fails_panic {A} : never_fails (@panic _ A).
Proof. by intros v e v'. Qed.
Lemma never_fails_get : never_fails (@get CookbookVersion).
Proof. by intros v e v'. Qed.
Lemma never_fails_modify f : never_fails (modify f).
Proof. by intros v e v'. Qed.
Lemma never_fails_assert_string v : never_fails (assert_string v).
Proof. by destruct v. Qed.
Lemma never_fails_assert_bool v : never_fails (assert_bool v).
Proof. by destruct v. Qed.
Lemma never_fails_assert_divs v : never_fails (assert_divs v).
Proof. by destruct v. Qed.
Lemma never_fails_assert_map v : never_fails (assert_map v).
Proof. by destruct v. Qed.

Lemma never_fails_bind {A B} (m : ST CookbookVersion A)
    (k : A -> ST CookbookVersion B) :
  never_fails m -> (forall a, never_fails (k a)) -> never_fails (bind m k).
Proof.
  intros Hm Hk v e v'. unfold bind. specialize (Hm v).
  destruct (m v) as [[a | e1 | |] v1]; try done.
  - apply Hk.
  - by destruct (Hm e1 v1).
Qed.

Lemma rejects_cleanly_reads_only {A} (m : ST CookbookVersion A) :
  reads_only m -> rejects_cleanly m.
Proof. intros H v e v' E. specialize (H v). by rewrite E in H. Qed.

Lemma rejects_cleanly_never_fails {A} (m : ST CookbookVersion A) :
  never_fails m -> rejects_cleanly m.
Proof. intros H v e v' E. by destruct (H v e v'). Qed.

Lemma rejects_cleanly_bind {A B} (m : ST CookbookVersion A)
    (k : A -> ST CookbookVersion B) :
  reads_only m -> (forall a, rejects_cleanly (k a)) -> rejects_cleanly (bind m k).
Proof.
  intros Hm Hk v e v'. unfold bind. specialize (Hm v).
  destruct (m v) as [[a | e1 | |] v1]; simpl in Hm; subst v1; try done.
  - apply Hk.
  - by intros [= _ <-].
Qed.

Ltac case_step P :=
  match goal with
  | |- P _ (match ?x with _ => _ end) => destruct x eqn:?
  | |- P _ (let '(_, _) := ?x in _) => destruct x eqn:?
  end.

Ltac reads_step :=
  first
    [ apply reads_only_ret | apply reads_only_fail | apply reads_only_panic
    | apply reads_only_get
    | apply reads_only_assert_string | apply reads_only_assert_bool
    | apply reads_only_assert_divs | apply reads_only_assert_map
    | apply reads_only_bind; [| intros ?]
    | case_step (@reads_only) ].

Ltac never_step :=
  first
    [ apply never_fails_ret | apply never_fails_panic | apply never_fails_get
    | apply never_fails_modify
    | apply never_fails_assert_string | apply never_fails_assert_bool
    | apply never_fails_assert_divs | apply never_fails_assert_map
    | apply never_fails_bind; [| intros ?]
    | case_step (@never_fails) ].

Ltac identity_step :=
  first
    [ apply keeps_identity_reads_only; solve [repeat reads_step]
    | apply keeps_identity_modify; intros ?; by repeat split
    | apply keeps_identity_bind; [| intros ?]
    | case_step (@keeps_identity) ].

Section Update.

Variable order : list string -> list string.
Variables ValidateAsString ValidateAsFieldString ValidateAsVersion :
  value -> value * option string.
Variable ValidateCookbookDivision : string -> value -> value * option string.
Variables ValidateCookbookMetadata ValidateAsBool : value -> value * option string.

Local Abbreviation update :=
  (UpdateVersion order ValidateAsString ValidateAsFieldString ValidateAsVersion
     ValidateCookbookDivision ValidateCookbookMetadata ValidateAsBool).

Lemma reads_only_validate_field key expected current cbv_data :
  reads_only (validate_field ValidateAsFieldString key expected current cbv_data).
Proof. unfold validate_field. repeat reads_step. Qed.

Lemma keeps_identity_UpdateVersion cbv_data force :
  keeps_identity (update cbv_data force).
Proof.
  unfold UpdateVersion.
  repeat first
    [ apply keeps_identity_reads_only, reads_only_validate_field
    | identity_step ].
Qed.

(** Property X14: [UpdateVersion] never changes the cookbook name, the name or the
    version text of the version it is called on, whatever the request
    holds and however the call ends. *)
Theorem UpdateVersion_identity cbv_data force cbv :
  same_identity cbv
    (UpdateVersion order ValidateAsString ValidateAsFieldString ValidateAsVersion
      ValidateCookbookDivision ValidateCookbookMetadata ValidateAsBool
      cbv_data force cbv).2.
Proof.
  apply keeps_identity_UpdateVersion.
Qed.

(** Property X15: an update that is refused changes nothing: whenever
    [UpdateVersion] returns an error, the version is as it was before the
    call.  Every check is made before the first field is assigned. *)
Theorem UpdateVersion_rejects cbv_data force cbv e cbv' :
  UpdateVersion order ValidateAsString ValidateAsFieldString ValidateAsVersion
      ValidateCookbookDivision ValidateCookbookMetadata ValidateAsBool
      cbv_data force cbv = (Err e, cbv') ->
  cbv' = cbv.
Proof.
  revert cbv e cbv'. change (rejects_cleanly (update cbv_data force)).
  unfold UpdateVersion.
  repeat first
    [ apply rejects_cleanly_reads_only; solve [repeat reads_step]
    | apply rejects_cleanly_bind;
        [first [apply reads_only_validate_field | solve [repeat reads_step]] | intros ?]
    | case_step (@rejects_cleanly)
    | apply rejects_cleanly_never_fails; solve [repeat never_step] ].
Qed.

Lemma ValidElem_None keys :
  ValidElem keys = None -> forall k, k ∈ keys -> k ∈ valid_elements.
Proof.
  induction keys as [| k' keys IH]; intros H k Hk; [by apply elem_of_nil in Hk |].
  cbn [ValidElem] in H. destruct (existsb (String.eqb k') valid_elements) eqn:E; [| done].
  apply elem_of_cons in Hk as [-> | Hk]; [| by apply IH].
  apply existsb_exists in E as (x & Hx & Hkx).
  apply String.eqb_eq in Hkx as ->. by apply list_elem_of_In.
Qed.

Lemma elem_of_range_keys {A} (m : gmap string A) k :
  (forall keys, order keys ≡ₚ keys) -> is_Some (m !! k) -> k ∈ (range order m).*1.
Proof.
  intros Hperm [x Hx]. apply list_elem_of_fmap. exists (k, x). split; [done |].
  unfold range. apply list_elem_of_omap. exists k. split.
  - rewrite Hperm. apply list_elem_of_fmap. exists (k, x). split; [done |].
    by apply elem_of_map_to_list.
  - by rewrite Hx.
Qed.

(** Property X16: a request that holds a key outside the list of valid elements is
    always refused, and the version stays as it was (a [range] over the
    request visits every key). *)
Theorem UpdateVersion_unknown_key cbv_data force cbv k :
  (forall keys, order keys ≡ₚ keys) ->
  is_Some (cbv_data !! k) -> k ∉ valid_elements ->
  exists e,
    UpdateVersion order ValidateAsString ValidateAsFieldString ValidateAsVersion
      ValidateCookbookDivision ValidateCookbookMetadata ValidateAsBool
      cbv_data force cbv = (Err e, cbv).
Proof.
  intros Hperm Hk Hno. unfold UpdateVersion, bind, get. simpl.
  destruct (IsFrozen cbv && negb (String.eqb force "true")); [by eexists |].
  destruct (ValidateAsString (index cbv_data "cookbook_name")).2 as [msg |].
  { destruct (String.eqb msg "Field 'name' missing"); by eexists. }
  destruct (ValidElem (range order cbv_data).*1) as [k' |] eqn:E; [by eexists |].
  destruct Hno. apply (ValidElem_None _ E). by apply elem_of_range_keys.
Qed.

Local Abbreviation new :=
  (NewVersion order ValidateAsString ValidateAsFieldString ValidateAsVersion
     ValidateCookbookDivision ValidateCookbookMetadata ValidateAsBool).

Lemma LatestVersion_frame c r c' :
  LatestVersion order c = (r, c') ->
  (forall e, r <> Err e) /\ cb_Name c' = cb_Name c /\ Versions c' = Versions c /\
  numVersions c' = numVersions c.
Proof.
  unfold LatestVersion. destruct (latest c).
  - by intros [= <- <-].
  - destruct (sortedVersions order c); by intros [= <- <-].
Qed.

Lemma NewVersion_inv cb_version cbv_data c cbv c' :
  NewVersion order ValidateAsString ValidateAsFieldString ValidateAsVersion
      ValidateCookbookDivision ValidateCookbookMetadata ValidateAsBool
      cb_version cbv_data c = (Ok cbv, c') ->
  cb_version <> "_latest" /\ Versions c !! cb_version = None /\
  cb_Name c' = cb_Name c /\ Versions c' = <[cb_version := cbv]> (Versions c) /\
  numVersions c' = None /\
  same_identity
    {| CookbookName := cb_Name c; Name := cb_Name c +:+ "-" +:+ cb_version;
       Version := cb_version; ChefType := "cookbook_version";
       JsonClass := "Chef::CookbookVersion";
       Definitions := []; Libraries := []; Attributes := []; Recipes := [];
       Providers := []; Resources := []; Templates := []; RootFiles := [];
       Files := []; IsFrozen := false; Metadata := ∅ |} cbv.
Proof.
  unfold NewVersion, GetVersion.
  destruct (String.eqb_spec cb_version "_latest") as [-> | Hne].
  { destruct (LatestVersion order c) as [r c1] eqn:E.
    apply LatestVersion_frame in E as [E _]. destruct r; try done. by destruct (E e). }
  destruct (Versions c !! cb_version) eqn:Hv; [done |].
  match goal with
  | |- context [UpdateVersion ?o ?a ?b ?d ?e ?f ?g ?h ?i ?v] =>
      pose proof (keeps_identity_UpdateVersion h i v) as Hid;
      destruct (UpdateVersion o a b d e f g h i v) as [[[] | ? | |] cbv1]; try done
  end.
  destruct (UpdateLatestVersion order _) as [r c2] eqn:E.
  unfold UpdateLatestVersion in E.
  destruct (LatestVersion order _) as [r1 c3] eqn:E1.
  injection E as <- <-.
  apply LatestVersion_frame in E1 as (_ & Hn & Hvs & Hnum). simpl in *.
  destruct r1; simpl; try done. intros [= -> <-]. done.
Qed.

(** Property X17: what a successful [NewVersion] has done.  The version text is not
    "_latest" and the cookbook had no version under it; the new version
    is stored under that text and no other entry of [Versions] is
    touched; it carries the name of the cookbook, the name made of the
    cookbook name, "-" and the version text, and the version text; the
    count of versions is reset. *)
Theorem NewVersion_adds cb_version cbv_data c cbv c' :
  NewVersion order ValidateAsString ValidateAsFieldString ValidateAsVersion
      ValidateCookbookDivision ValidateCookbookMetadata ValidateAsBool
      cb_version cbv_data c = (Ok cbv, c') ->
  cb_version <> "_latest" /\ Versions c !! cb_version = None /\
  cb_Name c' = cb_Name c /\ Versions c' = <[cb_version := cbv]> (Versions c) /\
  numVersions c' = None /\
  CookbookName cbv = cb_Name c /\ Name cbv = cb_Name c +:+ "-" +:+ cb_version /\
  Version cbv = cb_version.
Proof.
  intros (? & ? & ? & ? & ? & ? & ? & ?)%NewVersion_inv. by repeat split.
Qed.

(** Property X18: the version a successful [NewVersion] returns can be read back
    with [GetVersion] under its version text; deleting it again with
    [DeleteVersion] succeeds and leaves the cookbook with its name and
    with the versions it had before the version was added. *)
Theorem NewVersion_round_trip cb_version cbv_data c cbv c' :
  NewVersion order ValidateAsString ValidateAsFieldString ValidateAsVersion
      ValidateCookbookDivision ValidateCookbookMetadata ValidateAsBool
      cb_version cbv_data c = (Ok cbv, c') ->
  GetVersion order cb_version c' = (Ok cbv, c') /\
  exists c'',
    DeleteVersion order cb_version c' = (Ok tt, c'') /\
    cb_Name c'' = cb_Name c /\ Versions c'' = Versions c.
Proof.
  intros (Hne & Hno & Hname & Hvs & _)%NewVersion_inv.
  assert (GetVersion order cb_version c' = (Ok cbv, c')) as Hget.
  { unfold GetVersion. destruct (String.eqb_spec cb_version "_latest"); [done |].
    by rewrite Hvs, lookup_insert_eq. }
  split; [done |]. unfold DeleteVersion. rewrite Hget.
  eexists. split; [done |]. simpl. split; [done |].
  rewrite Hvs, delete_insert_eq. by apply delete_id.
Qed.

(** Property X19: [NewVersion] refuses a version text the cookbook has a version
    under, and [DeleteVersion] one it has none under; either way the
    cookbook is left as it was. *)
Theorem NewVersion_DeleteVersion_refuse cb_version cbv_data c :
  cb_version <> "_latest" ->
  match Versions c !! cb_version with
  | Some _ =>
      exists e,
        NewVersion order ValidateAsString ValidateAsFieldString ValidateAsVersion
          ValidateCookbookDivision ValidateCookbookMetadata ValidateAsBool
          cb_version cbv_data c = (Err e, c)
  | None => exists e, DeleteVersion order cb_version c = (Err e, c)
  end.
Proof.
  intros Hne. unfold NewVersion, DeleteVersion, GetVersion.
  destruct (String.eqb_spec cb_version "_latest"); [done |].
  destruct (Versions c !! cb_version); by eexists.
Qed.

End Update.

(** ** File hashes *)

Lemma ascii_compare_refl c : Ascii.compare c c = Eq.
Proof. unfold Ascii.compare. apply N.compare_refl. Qed.

Lemma string_compare_refl s : String.compare s s = Eq.
Proof. induction s as [| c s IH]; simpl; [done |]. by rewrite ascii_compare_refl. Qed.



Lemma ltb_irrefl s : String.ltb s s = false.
Proof. unfold String.ltb. by rewrite string_compare_refl. Qed.


Lemma delSliceElement_sublist pos strs : delSliceElement pos strs `sublist_of` strs.
Proof.
  unfold delSliceElement. rewrite <- (take_drop pos strs) at 3.
  apply sublist_app; [done |]. rewrite <- (take_drop 1 (drop pos strs)).
  rewrite drop_drop, Nat.add_1_r. by apply sublist_inserts_l.
Qed.

Lemma delSliceElement_dup i v strs h :
  strs !! i = Some v -> strs !! (i + 1)%nat = Some v ->
  h ∈ strs -> h ∈ delSliceElement (i + 1) strs.
Proof.
  intros Hi Hi1 Hh. unfold delSliceElement.
  rewrite <- (take_drop_middle strs (i + 1) v Hi1) in Hh.
  apply elem_of_app in Hh as [Hh | Hh]; [apply elem_of_app; by left |].
  apply elem_of_cons in Hh as [-> | Hh]; apply elem_of_app; [left | by right].
  apply (list_elem_of_lookup_2 _ i). rewrite lookup_take_lt by lia. done.
Qed.

Lemma removeDupHashes_loop_keeps n : forall i file_hashes,
  removeDupHashes_loop n i file_hashes `sublist_of` file_hashes /\
  forall h, h ∈ file_hashes -> h ∈ removeDupHashes_loop n i file_hashes.
Proof.
  induction n as [| n IH]; intros i l; simpl; [done |].
  destruct (length l <=? i + 1)%nat; [done |].
  destruct (l !! i) as [v |] eqn:Hi; [| done].
  destruct (l !! (i + 1)%nat) as [next |] eqn:Hi1; [| done].
  destruct (String.eqb_spec v next) as [<- | _]; [| apply IH].
  destruct (IH (S i) (delSliceElement (i + 1) l)) as [Hs He]. split.
  - etransitivity; [exact Hs | apply delSliceElement_sublist].
  - intros h Hh. by apply He, (delSliceElement_dup i v).
Qed.

Lemma removeDupHashes_sublist_elem file_hashes :
  removeDupHashes file_hashes `sublist_of` file_hashes /\
  forall h, h ∈ removeDupHashes file_hashes <-> h ∈ file_hashes.
Proof.
  unfold removeDupHashes.
  destruct (removeDupHashes_loop_keeps (length file_hashes) 0 file_hashes) as [Hs He].
  split; [done |]. intros h. split; [| apply He].
  intros Hh. by eapply elem_of_sublist.
Qed.

(** Property X20: [removeDupHashes] only takes out copies: what it returns is the
    hashes it was given with some of them left out, in the same order,
    and every hash it was given is still there at least once. *)
Theorem removeDupHashes_keeps file_hashes :
  removeDupHashes file_hashes `sublist_of` file_hashes /\
  forall h, h ∈ removeDupHashes file_hashes <-> h ∈ file_hashes.
Proof. apply removeDupHashes_sublist_elem. Qed.

Lemma delSliceElement_replicate pos m (h : string) :
  (pos < m)%nat -> delSliceElement pos (replicate m h) = replicate (m - 1) h.
Proof.
  intros Hlt. unfold delSliceElement.
  rewrite take_replicate, drop_replicate, <- replicate_add. f_equal. lia.
Qed.

Lemma removeDupHashes_loop_replicate h n : forall i m,
  (m - i - 1 <= n)%nat ->
  removeDupHashes_loop n i (replicate m h)
  = replicate (if (m <=? i + 1)%nat then m else (i + m + 1) / 2)%nat h.
Proof.
  induction n as [| n IH]; intros i m Hn.
  - simpl. destruct (Nat.leb_spec m (i + 1)); [done |]. lia.
  - cbn [removeDupHashes_loop]. rewrite length_replicate.
    destruct (Nat.leb_spec m (i + 1)) as [Hle | Hgt]; [done |].
    rewrite !lookup_replicate_2 by lia. rewrite String.eqb_refl.
    rewrite delSliceElement_replicate by lia. rewrite IH by lia.
    f_equal. destruct (Nat.leb_spec (m - 1) (S i + 1)) as [Hle | Hgt'].
    + assert (m = i + 2 \/ m = i + 3)%nat as [-> | ->] by lia.
      * replace (i + (i + 2) + 1)%nat with (1 + (i + 1) * 2)%nat by lia.
        rewrite Nat.div_add by done. simpl. lia.
      * replace (i + (i + 3) + 1)%nat with ((i + 2) * 2)%nat by lia.
        rewrite Nat.div_mul by done. lia.
    + f_equal. lia.
Qed.

(** Property X21: [removeDupHashes] does not take out every copy.  Of [k] equal
    hashes in a row, half of them, rounded up, are left: after a copy is
    deleted the loop steps over the element that has moved into its
    place.  A hash that three files share is still listed twice. *)
Theorem removeDupHashes_run k h :
  removeDupHashes (replicate k h) = replicate ((k + 1) / 2) h.
Proof.
  unfold removeDupHashes. rewrite length_replicate.
  rewrite removeDupHashes_loop_replicate by lia.
  destruct (Nat.leb_spec k (0 + 1)) as [Hle | Hgt]; [| done].
  f_equal. assert (k = 0 \/ k = 1)%nat as [-> | ->] by lia; done.
Qed.

Lemma insert_string_Permutation x before : insert_string x before ≡ₚ x :: before.
Proof.
  induction before as [| y before IH]; simpl; [done |].
  destruct (String.ltb x y); [| done].
  rewrite IH. apply Permutation_swap.
Qed.

Lemma sort_Strings_Permutation l : sort_Strings l ≡ₚ l.
Proof.
  unfold sort_Strings. rewrite <- Permutation_rev.
  assert (forall before,
    fold_left (fun before x => insert_string x before) l before
    ≡ₚ (l ++ before)%list) as H.
  { induction l as [| x l IH]; intros before; simpl; [done |].
    rewrite IH, insert_string_Permutation. by rewrite Permutation_middle. }
  by rewrite H, app_nil_r.
Qed.

(** Property X22: [fileHashes] lists exactly the checksums of the items of the nine
    divisions of the version, with the empty string for an item that has
    no checksum string: none is lost in sorting and removing copies, and
    nothing else is listed. *)
Theorem fileHashes_elem cbv h :
  h ∈ fileHashes cbv <-> h ∈ getAttrHashes (division_items cbv).
Proof.
  unfold fileHashes.
  match goal with
  | |- context [removeDupHashes ?l] =>
      destruct (removeDupHashes_sublist_elem l) as [_ H]; rewrite H; clear H
  end.
  rewrite sort_Strings_Permutation.
  unfold division_items, getAttrHashes. by rewrite !map_app.
Qed.








Section Hashes.

Variable order : list string -> list string.



End Hashes.

(** ** Listings of versions *)

Section Info.

Variable order : list string -> list string.
Variable ObjURL : Cookbook -> string.
Variable CustomObjURL : Cookbook -> string -> string.

Lemma VerLoop_all c sorted num_versions nr :
  VerLoop CustomObjURL c sorted true num_versions nr None
  = version_info CustomObjURL c <$> sorted.
Proof.
  revert nr. induction sorted as [| cv rest IH]; intros nr; simpl; [done |].
  by rewrite IH.
Qed.

Lemma VerLoop_take c sorted num_versions nr :
  VerLoop CustomObjURL c sorted false num_versions nr None
  = version_info CustomObjURL c <$> take (Z.to_nat (num_versions - nr)) sorted.
Proof.
  revert nr. induction sorted as [| cv rest IH]; intros nr.
  - by rewrite take_nil.
  - cbn [VerLoop]. cbn [negb andb].
    destruct (Z.leb_spec num_versions nr) as [Hle | Hgt].
    + by replace (Z.to_nat (num_versions - nr)) with 0%nat by lia.
    + replace (Z.to_nat (num_versions - nr))
        with (S (Z.to_nat (num_versions - (nr + 1)))) by lia.
      simpl. by rewrite IH.
Qed.

Lemma VerLoop_sublist c sorted all_versions num_versions nr con :
  exists listed,
    VerLoop CustomObjURL c sorted all_versions num_versions nr con
    = version_info CustomObjURL c <$> listed /\
    listed `sublist_of` sorted /\
    (all_versions = false ->
     Z.of_nat (length listed) <= Z.max 0 (num_versions - nr)).
Proof.
  revert nr. induction sorted as [| cv rest IH]; intros nr.
  - exists []. repeat split; [done |]. simpl. lia.
  - cbn [VerLoop].
    destruct (negb all_versions && (num_versions <=? nr)) eqn:Estop.
    { exists []. repeat split; [apply sublist_nil_l |]. simpl. lia. }
    match goal with
    | |- context [String.eqb ?a "skip"] => destruct (String.eqb a "skip")
    end.
    { destruct (IH nr) as (listed & -> & Hsub & Hlen).
      exists listed. repeat split; [by apply sublist_cons | done]. }
    match goal with
    | |- context [String.eqb ?a "break"] => destruct (String.eqb a "break")
    end.
    { exists []. repeat split; [apply sublist_nil_l |]. simpl. lia. }
    destruct (IH (nr + 1)) as (listed & -> & Hsub & Hlen).
    exists (cv :: listed). repeat split; [by apply sublist_skip |].
    intros ->. specialize (Hlen eq_refl). simpl in Estop.
    apply Z.leb_gt in Estop. rewrite length_cons. lia.
Qed.

(** Property X24: what [InfoHash] lists.  For "all" it lists every version of the
    cookbook, newest first as [sortedVersions] gives them; for any other
    text it lists the first versions of that order, as many as the text
    asks for: one for the empty text, none for a text that is not a
    number or is a number below one. *)
Theorem InfoHash_versions c num_results :
  InfoHash order ObjURL CustomObjURL c (VString num_results)
  = Ok (Some (info_hash ObjURL CustomObjURL c
                (if String.eqb num_results "all" then sortedVersions order c
                 else take (Z.to_nat (asked num_results)) (sortedVersions order c)))).
Proof.
  unfold InfoHash, infoHashBase, info_hash, asked. simpl.
  destruct (String.eqb_spec num_results "") as [-> | Hne]; simpl.
  - by rewrite VerLoop_take, Z.sub_0_r.
  - destruct (String.eqb_spec num_results "all") as [-> | Hna]; simpl.
    + by rewrite VerLoop_all.
    + by rewrite VerLoop_take, Z.sub_0_r.
Qed.

(** Property X25: what [infoHashBase] can return for a [num_results] that is a
    string.  It returns nil only for a constraint that is not empty and
    does not split at blanks into two parts; otherwise it lists versions
    of the cookbook in the order of [sortedVersions], each at most once,
    and unless "all" was asked for no more of them than were asked for.
    It never fails. *)
Theorem infoHashBase_versions c num_results constraint :
  match infoHashBase order ObjURL CustomObjURL c (VString num_results) constraint with
  | Ok (Some cb_hash) =>
      exists listed,
        cb_hash = info_hash ObjURL CustomObjURL c listed /\
        listed `sublist_of` sortedVersions order c /\
        (num_results <> "all" ->
         Z.of_nat (length listed) <= Z.max 0 (asked num_results))
  | Ok None => constraint <> "" /\ length (Split constraint " ") <> 2%nat
  | _ => False
  end.
Proof.
  assert (forall all_versions num_versions con,
    (num_results <> "all" ->
     all_versions = false /\ num_versions = asked num_results) ->
    exists listed,
      <["versions" := VSlice
          (VerLoop CustomObjURL c (sortedVersions order c) all_versions num_versions 0 con)]>
        (<["url" := VString (ObjURL c)]> ∅)
      = info_hash ObjURL CustomObjURL c listed /\
      listed `sublist_of` sortedVersions order c /\
      (num_results <> "all" ->
       Z.of_nat (length listed) <= Z.max 0 (asked num_results)))
    as Hloop.
  { intros all_versions num_versions con Hcount.
    destruct (VerLoop_sublist c (sortedVersions order c) all_versions num_versions 0 con)
      as (listed & -> & Hsub & Hlen).
    exists listed. repeat split; [done |]. intros Hna.
    destruct (Hcount Hna) as [-> ->]. specialize (Hlen eq_refl). lia. }
  unfold infoHashBase. cbn beta iota.
  assert (forall all_versions num_versions,
    (num_results <> "all" ->
     all_versions = false /\ num_versions = asked num_results) ->
    match
      (let parsed : option (option (string * string)) :=
         if negb (String.eqb constraint "") then
           match Split constraint " " with
           | [constraint_op; constraint_version] =>
               Some (Some (constraint_op, constraint_version))
           | _ => None
           end
         else Some None in
       match parsed with
       | None => Ok None
       | Some con =>
           let versions :=
             VerLoop CustomObjURL c (sortedVersions order c) all_versions num_versions 0 con in
           Ok (Some (<["versions" := VSlice versions]>
                       (<["url" := VString (ObjURL c)]> ∅)))
       end)
    with
    | Ok (Some cb_hash) =>
        exists listed,
          cb_hash = info_hash ObjURL CustomObjURL c listed /\
          listed `sublist_of` sortedVersions order c /\
          (num_results <> "all" ->
           Z.of_nat (length listed) <= Z.max 0 (asked num_results))
    | Ok None => constraint <> "" /\ length (Split constraint " ") <> 2%nat
    | _ => False
    end) as Htail.
  { intros all_versions num_versions Hcount.
    destruct (String.eqb_spec constraint "") as [-> | Hne]; simpl; [by apply Hloop |].
    destruct (Split constraint " ") as [| op [| ver [| ? ?]]] eqn:E; simpl; try done.
    by apply Hloop. }
  unfold asked in *.
  destruct (String.eqb_spec num_results "") as [-> | Hne]; simpl.
  - apply Htail. done.
  - destruct (String.eqb_spec num_results "all") as [-> | Hna]; simpl;
      apply Htail; done.
Qed.

Lemma verConstraintCheck_invalid ver_a ver_b op :
  op ∉ operators -> verConstraintCheck ver_a ver_b op = "invalid".
Proof.
  intros Hop. unfold verConstraintCheck.
  repeat match goal with
  | |- context [String.eqb op ?o] =>
      destruct (String.eqb_spec op o) as [-> | _];
        [destruct Hop; unfold operators; by repeat constructor |]
  end.
  done.
Qed.

Lemma VerLoop_invalid c sorted all_versions num_versions op ver :
  op ∉ operators -> forall nr,
  VerLoop CustomObjURL c sorted all_versions num_versions nr (Some (op, ver))
  = VerLoop CustomObjURL c sorted all_versions num_versions nr None.
Proof.
  intros Hop. induction sorted as [| cv rest IH]; intros nr; [done |].
  cbn [VerLoop]. rewrite verConstraintCheck_invalid by done.
  destruct (negb all_versions && (num_versions <=? nr)); [done |].
  simpl. by rewrite IH.
Qed.

(** Property X26: a constraint with an operator that [verConstraintCheck] does not
    know filters nothing: [ConstrainedInfoHash] then lists the versions
    that [InfoHash] lists. *)
Theorem ConstrainedInfoHash_unknown_operator c num_results op ver :
  op ∉ operators -> no_char " " op = true -> no_char " " ver = true ->
  ConstrainedInfoHash order ObjURL CustomObjURL c num_results (op +:+ " " +:+ ver)
  = InfoHash order ObjURL CustomObjURL c num_results.
Proof.
  intros Hop Hb Hv. unfold ConstrainedInfoHash, InfoHash, infoHashBase.
  assert (String.eqb (op +:+ " " +:+ ver) "" = false) as -> by (by destruct op).
  change (op +:+ " " +:+ ver) with (op +:+ String " " ver).
  change (Split ?s " ") with (Split s (String " " "")).
  rewrite Split_char_piece, Split_char_last by done. simpl.
  destruct num_results; try done.
  match goal with
  | |- context [if ?b then Ok (false, Atoi s) else _] => destruct b
  end; [by rewrite VerLoop_invalid |].
  destruct (String.eqb s ""); by rewrite VerLoop_invalid.
Qed.

End Info.

(** ** Recipe names and rendering *)

Lemma recipe_base_file rbase : forall cur,
  no_char "." rbase = true -> no_char "010" rbase = true ->
  recipe_base cur (rbase +:+ ".rb") = Some (String.rev cur +:+ rbase).
Proof.
  induction rbase as [| c rbase IH]; intros cur Hdot Hnl.
  - simpl. by rewrite append_empty_r.
  - simpl in Hdot, Hnl.
    apply andb_prop in Hdot as [Hc Hdot]. apply andb_prop in Hnl as [Hc' Hnl].
    apply negb_true_iff in Hc, Hc'.
    rewrite append_cons. cbn [recipe_base].
    assert (HasPrefix (String c (rbase +:+ ".rb")) ".rb" = false) as ->.
    { cbn [HasPrefix]. by rewrite Hc. }
    rewrite Hc', IH by done. f_equal.
    change (String.rev (String c cur)) with (String.rev_app cur (String c "")).
    by rewrite rev_app_append, append_assoc_s.
Qed.

(** Property X27: the names [RecipeList] gives.  When every recipe of the version
    is a file [rbase].rb whose [rbase] holds no dot and no line break,
    the list has, recipe by recipe, the cookbook name for the recipe
    default and the cookbook name, "::" and [rbase] for any other. *)
Theorem RecipeList_names cbv rbases :
  Forall2 recipe_file (Recipes cbv) rbases ->
  RecipeList cbv = Ok (recipe_name (CookbookName cbv) <$> rbases).
Proof.
  unfold RecipeList. generalize (CookbookName cbv) as cookbookName.
  intros cookbookName.
  induction 1 as [| r rbase rs rbases (Hname & Hdot & Hnl) _ IH]; [done |].
  cbn [RecipeList_loop]. rewrite Hname, recipe_base_file by done.
  rewrite IH. done.
Qed.

Lemma RecipeList_names_witness :
  Forall2 recipe_file
    (Recipes (set_Recipes [{[ "name" := VString "default.rb" ]};
                           {[ "name" := VString "mod_ssl.rb" ]}] foo_1_0_0))
    ["default"; "mod_ssl"] /\
  RecipeList (set_Recipes [{[ "name" := VString "default.rb" ]};
                           {[ "name" := VString "mod_ssl.rb" ]}] foo_1_0_0)
  = Ok ["foo"; "foo::mod_ssl"].
Proof.
  assert (Forall2 recipe_file
            (Recipes (set_Recipes [{[ "name" := VString "default.rb" ]};
                                   {[ "name" := VString "mod_ssl.rb" ]}] foo_1_0_0))
            ["default"; "mod_ssl"]) as H
    by (repeat constructor).
  split; [exact H |]. apply (RecipeList_names _ _ H).
Defined.

(** Property X28: [methodize] copies the items of a division as they are, except
    for the method "PUT", where it leaves the key "url" out of every item
    and keeps every other key. *)
Theorem methodize_url method cb_thing :
  methodize method cb_thing
  = if String.eqb method "PUT" then delete "url" <$> cb_thing else cb_thing.
Proof.
  unfold methodize. destruct (String.eqb method "PUT"); simpl.
  - apply list_fmap_ext. intros _ v _. apply map_eq. intros k.
    apply option_eq. intros x.
    rewrite map_lookup_filter_Some, lookup_delete_Some. simpl.
    destruct (String.eqb_spec k "url"); simpl; split; intros [? ?]; split; congruence.
  - rewrite <- (list_fmap_id cb_thing) at 2.
    apply list_fmap_ext. intros _ v _. simpl. by apply map_filter_id.
Qed.

Section Numbers.

Variable ValidateAsVersion : value -> value * option string.
Variable ParseInt_base0 : string -> Z * option string.

(** Property X29: what [extractVerNums] returns when it succeeds.  The text has at
    least two parts between dots; the major and the minor number are
    parsed from the first two, and the patch number is parsed from the
    third part when there are exactly three parts and is 0 otherwise,
    also when there are more than three. *)
Theorem extractVerNums_parts cbVersion maj min patch :
  extractVerNums ValidateAsVersion ParseInt_base0 cbVersion = Ok (maj, min, patch) ->
  exists n0 n1 rest,
    Split cbVersion "." = n0 :: n1 :: rest /\
    ParseInt_base0 n0 = (maj, None) /\ ParseInt_base0 n1 = (min, None) /\
    match rest with
    | [n2] => ParseInt_base0 n2 = (patch, None)
    | _ => patch = 0
    end.
Proof.
  unfold extractVerNums.
  destruct (ValidateAsVersion (VString cbVersion)).2; [done |].
  destruct (Split cbVersion ".") as [| n0 [| n1 rest]] eqn:E; try done.
  { simpl. by destruct (ParseInt_base0 n0) as [? []]. }
  assert ((length (n0 :: n1 :: rest) <? 2)%nat = false) as -> by done.
  cbn [andb]. cbn [lookup list_lookup].
  destruct (ParseInt_base0 n0) as [x0 [msg |]] eqn:E0; [done |].
  change ((n0 :: n1 :: rest) !! 1%nat) with (Some n1). cbn iota beta.
  destruct (ParseInt_base0 n1) as [x1 [msg |]] eqn:E1; [done |].
  destruct rest as [| n2 [| n3 rest]].
  - simpl. intros [= <- <- <-]. by exists n0, n1, [].
  - simpl. destruct (ParseInt_base0 n2) as [x2 [msg |]] eqn:E2; [done |].
    intros [= <- <- <-]. by exists n0, n1, [n2].
  - simpl. intros [= <- <- <-]. by exists n0, n1, (n2 :: n3 :: rest).
Qed.

End Numbers.

Lemma extractVerNums_parts_witness :
  extractVerNums example_string example_parse "1.2.3.4" = Ok (1, 2, 0) /\
  exists n0 n1 rest,
    Split "1.2.3.4" "." = n0 :: n1 :: rest /\
    example_parse n0 = (1, None) /\ example_parse n1 = (2, None) /\
    match rest with
    | [n2] => example_parse n2 = (0, None)
    | _ => 0 = 0
    end.
Proof.
  assert (extractVerNums example_string example_parse "1.2.3.4" = Ok (1, 2, 0)) as H
    by (vm_compute; reflexivity).
  split; [exact H |].
  apply (extractVerNums_parts example_string example_parse "1.2.3.4" 1 2 0 H).
Defined.

Lemma UpdateVersion_rejects_witness :
  UpdateVersion ascending example_string example_string example_string
    example_division example_metadata example_bool new_request "" foo_1_0_0
  = (Err (Gerror "Field 'name' invalid"), foo_1_0_0) /\
  foo_1_0_0 = foo_1_0_0.
Proof.
  assert (UpdateVersion ascending example_string example_string example_string
            example_division example_metadata example_bool new_request "" foo_1_0_0
          = (Err (Gerror "Field 'name' invalid"), foo_1_0_0)) as H
    by (vm_compute; reflexivity).
  split; [exact H |].
  apply (UpdateVersion_rejects ascending example_string example_string example_string
           example_division example_metadata example_bool _ _ _ _ _ H).
Defined.

Lemma colour_not_valid : "colour" ∉ valid_elements.
Proof.
  intros H%list_elem_of_In. simpl in H.
  repeat (destruct H as [H | H]; [discriminate H |]). done.
Qed.

Lemma UpdateVersion_unknown_key_witness :
  (forall keys, ascending keys ≡ₚ keys) /\
  is_Some (colour_request !! "colour") /\ ("colour" ∉ valid_elements) /\
  exists e,
    UpdateVersion ascending example_string example_string example_string
      example_division example_metadata example_bool colour_request "" foo_1_0_0
    = (Err e, foo_1_0_0).
Proof.
  assert (is_Some (colour_request !! "colour")) as Hk
    by (exists (VString "red"); vm_compute; reflexivity).
  split; [exact ascending_Permutation |]. split; [exact Hk |].
  split; [exact colour_not_valid |].
  apply (UpdateVersion_unknown_key ascending example_string example_string
           example_string example_division example_metadata example_bool
           colour_request "" foo_1_0_0 "colour"
           ascending_Permutation Hk colour_not_valid).
Defined.

Lemma foo_new_Ok :
  NewVersion ascending example_string example_string example_string
    example_division example_metadata example_bool "3.0.0" new_request foo
  = (Ok foo_3_0_0, foo_new.2).
Proof. vm_compute. reflexivity. Qed.

Lemma NewVersion_adds_witness :
  NewVersion ascending example_string example_string example_string
    example_division example_metadata example_bool "3.0.0" new_request foo
  = (Ok foo_3_0_0, foo_new.2) /\
  "3.0.0" <> "_latest" /\ Versions foo !! "3.0.0" = None /\
  cb_Name foo_new.2 = cb_Name foo /\
  Versions foo_new.2 = <["3.0.0" := foo_3_0_0]> (Versions foo) /\
  numVersions foo_new.2 = None /\
  CookbookName foo_3_0_0 = cb_Name foo /\
  Name foo_3_0_0 = cb_Name foo +:+ "-" +:+ "3.0.0" /\
  Version foo_3_0_0 = "3.0.0".
Proof.
  split; [exact foo_new_Ok |].
  apply (NewVersion_adds ascending example_string example_string example_string
           example_division example_metadata example_bool _ _ _ _ _ foo_new_Ok).
Defined.

Lemma NewVersion_round_trip_witness :
  NewVersion ascending example_string example_string example_string
    example_division example_metadata example_bool "3.0.0" new_request foo
  = (Ok foo_3_0_0, foo_new.2) /\
  GetVersion ascending "3.0.0" foo_new.2 = (Ok foo_3_0_0, foo_new.2) /\
  exists c'',
    DeleteVersion ascending "3.0.0" foo_new.2 = (Ok tt, c'') /\
    cb_Name c'' = cb_Name foo /\ Versions c'' = Versions foo.
Proof.
  split; [exact foo_new_Ok |].
  apply (NewVersion_round_trip ascending example_string example_string example_string
           example_division example_metadata example_bool _ _ _ _ _ foo_new_Ok).
Defined.

Lemma NewVersion_DeleteVersion_refuse_witness :
  "9.9.9" <> "_latest" /\
  match Versions foo !! "9.9.9" with
  | Some _ =>
      exists e,
        NewVersion ascending example_string example_string example_string
          example_division example_metadata example_bool "9.9.9" new_request foo
        = (Err e, foo)
  | None => exists e, DeleteVersion ascending "9.9.9" foo = (Err e, foo)
  end.
Proof.
  assert ("9.9.9" <> "_latest") as Hne by discriminate.
  split; [exact Hne |].
  apply (NewVersion_DeleteVersion_refuse ascending example_string example_string
           example_string example_division example_metadata example_bool
           "9.9.9" new_request foo Hne).
Defined.


Lemma arrow_not_operator : "=>" ∉ operators.
Proof.
  intros H%list_elem_of_In. simpl in H.
  repeat (destruct H as [H | H]; [discriminate H |]). done.
Qed.

Lemma ConstrainedInfoHash_unknown_operator_witness :
  ("=>" ∉ operators) /\ no_char " " "=>" = true /\ no_char " " "1.2.0" = true /\
  ConstrainedInfoHash ascending cb_Name (fun c v => cb_Name c +:+ "/" +:+ v) foo
    (VString "all") "=> 1.2.0"
  = InfoHash ascending cb_Name (fun c v => cb_Name c +:+ "/" +:+ v) foo (VString "all").
Proof.
  split; [exact arrow_not_operator |]. split; [reflexivity |]. split; [reflexivity |].
  apply (ConstrainedInfoHash_unknown_operator ascending cb_Name
           (fun c v => cb_Name c +:+ "/" +:+ v) foo (VString "all") "=>" "1.2.0"
           arrow_not_operator eq_refl eq_refl).
Defined.

Lemma lookup_insert_if (b : bool) (k k' : string) (v : value) (m : gmap string value) :
  (if b then <[k' := v]> m else m) !! k
  = if String.eqb k k' then (if b then Some v else m !! k) else m !! k.
Proof.
  destruct (String.eqb_spec k k') as [-> | Hne], b; try done.
  - apply lookup_insert_eq.
  - by apply lookup_insert_ne.
Qed.

Lemma lookup_insert_eqb (k k' : string) (v : value) (m : gmap string value) :
  <[k' := v]> m !! k = if String.eqb k k' then Some v else m !! k.
Proof. apply (lookup_insert_if true). Qed.

(** Property X30: what [ToJson] sends.  The version is left out when its text is
    "0.0.0"; the recipes are sent as they are stored for every method,
    also for "PUT"; and each of the eight other divisions is sent only
    when it has an item, passed through [methodize]. *)
Theorem ToJson_fields cbv method :
  ToJson cbv method !! "version"
  = (if String.eqb (Version cbv) "0.0.0" then None else Some (VString (Version cbv))) /\
  ToJson cbv method !! "recipes" = Some (VDivs (Recipes cbv)) /\
  forall key d, (key, d) ∈ optional_divisions cbv ->
    ToJson cbv method !! key
    = if (length d =? 0)%nat then None else Some (VDivs (methodize method d)).
Proof.
  unfold ToJson. cbv zeta.
  split; [| split].
  - rewrite !lookup_insert_if, !lookup_insert_eqb, lookup_insert_if. simpl.
    by destruct (String.eqb (Version cbv) "0.0.0").
  - rewrite !lookup_insert_if, !lookup_insert_eqb. done.
  - intros key d H. unfold optional_divisions in H.
    repeat (apply elem_of_cons in H as [[= -> ->] | H];
            [rewrite !lookup_insert_if, !lookup_insert_eqb, lookup_insert_if,
               !lookup_insert_eqb; simpl;
             by destruct (length _ =? 0)%nat |]).
    by apply elem_of_nil in H.
Qed.
